(** * glue_generator: a shallow embedding of
      utils/glue_generator_src/glue_generator.cpp

    The generator reads the located-variable declarations written by the
    MATIEC compiler, and writes the glue source of the OpenPLC runtime.

    Conventions of the embedding.
    - A computation whose C++ behaviour is undefined (a read or write past
      the end of an array, a read of an array cell that was never written,
      [std::string::operator[]] past [size()]) is [None]; a defined
      computation is [Some] of its result.
    - The two output streams are strings: [glueVars] is the generated file,
      [cout] the console.
    - [uint16_t] values are [N], with the conversion from [int] written out
      as a reduction modulo 65536.  [int] values are [Z].
    - A [char] array is a list of cells, each either written ([Some c]) or
      indeterminate ([None]). *)

From Stdlib Require Import String Ascii List ZArith NArith Lia Bool.
From Stdlib Require Import DecimalString Sorted Permutation.
Import ListNotations.
Local Open Scope char_scope.
Local Open Scope N_scope.
Local Open Scope string_scope.

(** ** Undefined behaviour as an error monad *)

Definition bind {A B : Type} (m : option A) (f : A -> option B) : option B :=
  match m with
  | Some a => f a
  | None => None
  end.

Notation "x <- m ;; k" := (bind m (fun x => k))
  (at level 61, m at next level, right associativity).
Notation "' pat <- m ;; k" := (bind m (fun x => match x with pat => k end))
  (at level 61, pat pattern, m at next level, right associativity).

Fixpoint mapM {A B : Type} (f : A -> option B) (l : list A) : option (list B) :=
  match l with
  | [] => Some []
  | a :: r => b <- f a ;; bs <- mapM f r ;; Some (b :: bs)
  end.

(** ** Characters, strings and character arrays *)

Definition NUL : ascii := "000".
Definition LF : ascii := "010".
Definition TAB : ascii := "009".

(** [std::endl] as far as the text written is concerned. *)
Definition endl : string := String LF "".

Definition chr (c : ascii) : string := String c "".

(** [s[i]] on a [std::string], and [p[i]] on the pointer [s.c_str()]: the
    array has [size() + 1] elements, the last one the terminator. *)
Definition str_at (s : string) (i : nat) : option ascii :=
  match String.get i s with
  | Some c => Some c
  | None => if Nat.eqb i (String.length s) then Some NUL else None
  end.

(** The text a [const char*] denotes: the characters before the first
    terminator. *)
Fixpoint c_str (s : string) : string :=
  match s with
  | EmptyString => EmptyString
  | String c r => if (c =? NUL)%char then EmptyString else String c (c_str r)
  end.

(** A [char] array. *)
Definition cbuf : Type := list (option ascii).

Definition uninitialized (n : nat) : cbuf := repeat None n.

Definition buf_of_chars (l : list ascii) : cbuf := map Some l.

(** [b[j] = c]; undefined outside the array. *)
Fixpoint buf_write (b : cbuf) (j : nat) (c : ascii) : option cbuf :=
  match b, j with
  | [], _ => None
  | _ :: r, O => Some (Some c :: r)
  | x :: r, S j' => r' <- buf_write r j' c ;; Some (x :: r')
  end.

(** The string a [char] array holds when it is read as a C string, as the
    [std::string(const char* )] constructor and [ostream << const char*] do. *)
Fixpoint cstring (b : cbuf) : option string :=
  match b with
  | [] => None
  | None :: _ => None
  | Some c :: r =>
      if (c =? NUL)%char then Some EmptyString
      else s <- cstring r ;; Some (String c s)
  end.

(** [strncpy(buffer, line.c_str(), n)]: at most [n] characters of the source
    text, padded with terminators up to [n] characters. *)
Definition strncpy (src : string) (n : nat) : cbuf :=
  let s := list_ascii_of_string (c_str src) in
  buf_of_chars (firstn n s ++ repeat NUL (n - List.length s))%list.

(** ** Decimal output *)

(** [ostream << uint16_t] and [to_string] of a promoted [uint16_t]. *)
Definition dec (n : N) : string := NilZero.string_of_uint (N.to_uint n).

(** [ostream << int]. *)
Definition decZ (z : Z) : string := NilZero.string_of_int (Z.to_int z).

(** ** The declaration record *)

Record IecVar : Type := mkIecVar {
  name : string;
  type : string;
  pos1 : N;
  pos2 : N
}.

(** ** glueVar *)

Definition invalidAddressing (varName : string) (pos2 : N) : string :=
  if (8 <=? pos2)%N
  then "***Invalid addressing on located variable" ++ c_str varName
       ++ "***" ++ endl
  else "".

(** The pair returned is the text written to [cout] and the text written to
    [glueVars]. *)
Definition glueVar (varName : string) (pos1 pos2 : N)
  : option (string * string) :=
  let diag := invalidAddressing varName pos2 in
  d <- str_at varName 2 ;;
  if (d =? "I")%char then
    s <- str_at varName 3 ;;
    if (s =? "X")%char then
      Some (diag, String TAB "bool_input[" ++ dec pos1 ++ "][" ++ dec pos2
                  ++ "] = " ++ c_str varName ++ ";" ++ endl)
    else if (s =? "B")%char then
      Some (diag, String TAB "byte_input[" ++ dec pos1 ++ "] = "
                  ++ c_str varName ++ ";" ++ endl)
    else if (s =? "W")%char then
      Some (diag, String TAB "int_input[" ++ dec pos1 ++ "] = "
                  ++ c_str varName ++ ";" ++ endl)
    else Some (diag, "")
  else if (d =? "Q")%char then
    s <- str_at varName 3 ;;
    if (s =? "X")%char then
      Some (diag, String TAB "bool_output[" ++ dec pos1 ++ "][" ++ dec pos2
                  ++ "] = " ++ c_str varName ++ ";" ++ endl)
    else if (s =? "B")%char then
      Some (diag, String TAB "byte_output[" ++ dec pos1 ++ "] = "
                  ++ c_str varName ++ ";" ++ endl)
    else if (s =? "W")%char then
      Some (diag, String TAB "int_output[" ++ dec pos1 ++ "] = "
                  ++ c_str varName ++ ";" ++ endl)
    else Some (diag, "")
  else if (d =? "M")%char then
    s <- str_at varName 3 ;;
    if (s =? "W")%char then
      Some (diag, String TAB "int_memory[" ++ dec pos1 ++ "] = "
                  ++ c_str varName ++ ";" ++ endl)
    else if (s =? "D")%char then
      Some (diag, String TAB "dint_memory[" ++ dec pos1 ++ "] = (IEC_DINT *)"
                  ++ c_str varName ++ ";" ++ endl)
    else if (s =? "L")%char then
      if (1023 <? pos1)%N then
        Some (diag, String TAB "special_functions["
                    ++ decZ (Z.of_N pos1 - 1024)
                    ++ "] = (IEC_LINT *)" ++ c_str varName ++ ";" ++ endl)
      else
        Some (diag, String TAB "lint_memory[" ++ dec pos1
                    ++ "] = (IEC_LINT *)" ++ c_str varName ++ ";" ++ endl)
    else Some (diag, "")
  else Some (diag, "").

(** ** fromDirectionFlag, fromSizeFlag *)

Definition fromDirectionFlag (flag : ascii) : string :=
  if (flag =? "I")%char then "IN"
  else if (flag =? "Q")%char then "OUT"
  else "MEM".

Definition fromSizeFlag (flag : ascii) : string :=
  if ((flag =? "G") || (flag =? "X"))%char then "BIT"
  else if (flag =? "B")%char then "BYTE"
  else if (flag =? "W")%char then "WORD"
  else if (flag =? "D")%char then "DOUBLEWORD"
  else "LONGWORD".

(** ** generateChecksum *)

Definition hex_chars : list ascii :=
  ["0"; "1"; "2"; "3"; "4"; "5"; "6"; "7";
   "8"; "9"; "A"; "B"; "C"; "D"; "E"; "F"]%char.

Definition quoted (c : ascii) : string := "'" ++ chr c ++ "', ".

(** The two statements of the loop body, for the array cell [b]. *)
Definition hexPair (b : Z) : option string :=
  hi <- nth_error hex_chars (Z.to_nat (Z.shiftr (Z.land b 240) 4)) ;;
  lo <- nth_error hex_chars (Z.to_nat (Z.shiftr (Z.land b 15) 0)) ;;
  Some (quoted hi ++ quoted lo).

(** The values [i] takes in [for (int i = 0; i <= 16; ++i)]. *)
Definition checksumIndices : list nat := seq 0 (16 + 1).

Definition checksumHeader : string :=
  "/// MD5 checksum of the located variables." ++ endl
  ++ "/// WARNING: this must not be used to trust file contents." ++ endl
  ++ "extern const char OPLCGLUE_MD5_DIGEST[] = {".

(** [digest] is the array the caller passes; [mainImpl] passes
    [md5_byte_t digest[16]]. *)
Definition generateChecksum (digest : list Z) : option string :=
  pairs <- mapM (fun i => b <- nth_error digest i ;; hexPair b)
                checksumIndices ;;
  Some (checksumHeader ++ String.concat "" pairs ++ "};" ++ endl
        ++ endl ++ endl).

(** ** The checksum primitive

    [md5.h] is not among the sources.  The generator uses three of its
    operations, on a state it only passes around; they are taken as an
    interface.  [md5_append] receives the bytes of a [std::string] and its
    [length()], [md5_finish] fills the caller's digest array. *)

Class Md5 : Type := {
  md5_state_s : Type;
  md5_init : md5_state_s;
  md5_append : md5_state_s -> string -> md5_state_s;
  md5_finish : md5_state_s -> list Z
}.

(** What a streaming hash promises: feeding two pieces one after the other
    is feeding their concatenation, and feeding nothing changes nothing. *)
Class Md5Streaming (H : Md5) : Prop := {
  md5_append_app : forall (s : md5_state_s) (a b : string),
    md5_append (md5_append s a) b = md5_append s (a ++ b);
  md5_append_empty : forall s : md5_state_s, md5_append s "" = s
}.

(** ** The input stream

    [getline] is the only operation the generator applies to the input
    stream, so the stream is modelled by the lines [getline] delivers: the
    characters up to each line feed, the line feed itself dropped, and a
    last line without line feed delivered when it is not empty. *)

Fixpoint split_lines (content : string) : list string :=
  match content with
  | EmptyString => []
  | String c r =>
      if (c =? LF)%char then EmptyString :: split_lines r
      else match split_lines r with
           | [] => [String c EmptyString]
           | l :: ls => String c l :: ls
           end
  end.

(** ** parseIecVars *)

(** [for (i = 0; buffer[i] != c; i++) continue;] the result is the part of
    the array from position [i] on. *)
Fixpoint seek (c : ascii) (b : cbuf) : option cbuf :=
  match b with
  | [] => None
  | None :: _ => None
  | Some x :: r => if (x =? c)%char then Some b else seek c r
  end.

(** [while (!stop(src[i])) { dst[j] = src[i]; i++; j++; dst[j] = '\0'; }]
    The result is the part of [src] from the final [i] on, and [dst]. *)
Fixpoint copy_until (stop : ascii -> bool) (src dst : cbuf) (j : nat)
  : option (cbuf * cbuf) :=
  match src with
  | [] => None
  | None :: _ => None
  | Some c :: rest =>
      if stop c then Some (src, dst)
      else
        dst1 <- buf_write dst j c ;;
        dst2 <- buf_write dst1 (S j) NUL ;;
        copy_until stop rest dst2 (S j)
  end.

Definition isComma (c : ascii) : bool := (c =? ",")%char.

(** The body of the [if (getline(locatedVars, line))] branch after the call
    of [md5_append]: the new contents of [varName] and [varType]. *)
Definition scanLine (line : string) (varName varType : cbuf)
  : option (cbuf * cbuf) :=
  let buffer := strncpy line 1024 in
  at_paren <- seek "(" buffer ;;
  let i1 := tl at_paren in
  '(at_comma, varType') <- copy_until isComma i1 varType 0 ;;
  let i2 := tl at_comma in
  '(_, varName') <- copy_until isComma i2 varName 0 ;;
  Some (varName', varType').

(** The result is the value returned, the stream left, the two arrays and
    the checksum state. *)
Definition parseIecVars {H : Md5} (locatedVars : list string)
    (varName varType : cbuf) (md5_state : md5_state_s)
  : option (Z * list string * cbuf * cbuf * md5_state_s) :=
  match locatedVars with
  | line :: rest =>
      let md5_state' := md5_append md5_state line in
      '(varName', varType') <- scanLine line varName varType ;;
      Some (1%Z, rest, varName', varType', md5_state')
  | [] => Some (0%Z, [], varName, varType, md5_state)
  end.

(** ** findPositions *)

Definition isspace (c : ascii) : bool :=
  let n := nat_of_ascii c in
  (Nat.eqb n 32 || (Nat.leb 9 n && Nat.leb n 13))%bool.

Definition digit (c : ascii) : option Z :=
  let n := nat_of_ascii c in
  if (Nat.leb 48 n && Nat.leb n 57)%bool then Some (Z.of_nat (n - 48))
  else None.

Fixpoint skip_spaces (b : cbuf) : option cbuf :=
  match b with
  | [] => None
  | None :: _ => None
  | Some c :: r => if isspace c then skip_spaces r else Some b
  end.

Fixpoint digits (acc : Z) (b : cbuf) : option Z :=
  match b with
  | [] => None
  | None :: _ => None
  | Some c :: r =>
      match digit c with
      | Some d => digits (10 * acc + d)%Z r
      | None => Some acc
      end
  end.

(** A value that an [int] cannot hold makes [atoi] undefined. *)
Definition as_int (z : Z) : option Z :=
  if ((-2147483648 <=? z) && (z <=? 2147483647))%Z then Some z else None.

Definition atoi (b : cbuf) : option Z :=
  b1 <- skip_spaces b ;;
  match b1 with
  | Some c :: r =>
      if (c =? "-")%char then z <- digits 0 r ;; as_int (- z)
      else if (c =? "+")%char then z <- digits 0 r ;; as_int z
      else z <- digits 0 b1 ;; as_int z
  | _ => None
  end.

(** The conversion of an [int] to [uint16_t]. *)
Definition to_uint16 (z : Z) : N := Z.to_N (z mod 65536).

Definition isSeparatorOrEnd (c : ascii) : bool :=
  ((c =? "_") || (c =? NUL))%char.

Definition isEnd (c : ascii) : bool := (c =? NUL)%char.

Definition findPositions (varName : cbuf) : option (N * N) :=
  let tempBuffer := uninitialized 100 in
  '(at_stop, tempBuffer1) <-
     copy_until isSeparatorOrEnd (skipn 4 varName) tempBuffer 0 ;;
  n1 <- atoi tempBuffer1 ;;
  match at_stop with
  | Some c :: after =>
      if (c =? NUL)%char then Some (to_uint16 n1, 0)
      else
        '(_, tempBuffer2) <- copy_until isEnd after tempBuffer1 0 ;;
        n2 <- atoi tempBuffer2 ;;
        Some (to_uint16 n1, to_uint16 n2)
  | _ => None
  end.

(** ** The group maps: [std::map<uint16_t, std::array<std::string, 8>>]

    A [std::map] keeps its entries in ascending key order, which is the
    order its iterators visit them in.  It is modelled by the list of its
    entries in that order. *)

Definition slots : Type := list string.

(** [array<string, 8>()]: eight empty strings. *)
Definition emptySlots : slots := repeat EmptyString 8.

Definition boolMap : Type := list (N * slots).

(** [m.find(k)]. *)
Fixpoint map_find (k : N) (m : boolMap) : option slots :=
  match m with
  | [] => None
  | (k', v) :: r => if (k =? k')%N then Some v else map_find k r
  end.

(** [m[k] = v]: the entry is created at its place in key order, or
    overwritten where it is. *)
Fixpoint map_set (k : N) (v : slots) (m : boolMap) : boolMap :=
  match m with
  | [] => [(k, v)]
  | (k', v') :: r =>
      if (k <? k')%N then (k, v) :: m
      else if (k =? k')%N then (k, v) :: r
      else (k', v') :: map_set k v r
  end.

(** [m[k]] as a value: the entry, value-initialised when it is absent. *)
Definition map_at (k : N) (m : boolMap) : slots :=
  match map_find k m with
  | Some v => v
  | None => emptySlots
  end.

Fixpoint set_nth (a : slots) (i : nat) (s : string) : slots :=
  match a, i with
  | [], _ => []
  | _ :: r, O => s :: r
  | x :: r, S i' => x :: set_nth r i' s
  end.

(** [a[i] = s] on a [std::array<string, 8>]: undefined from index 8 on. *)
Definition slot_store (a : slots) (i : N) (s : string) : option slots :=
  if (i <? 8)%N then Some (set_nth a (N.to_nat i) s) else None.

(** [m[k][i] = s]. *)
Definition map_store (m : boolMap) (k i : N) (s : string) : option boolMap :=
  a <- slot_store (map_at k m) i s ;;
  Some (map_set k a m).

(** ** generateBoolGroups, for one direction *)

Definition renderSlot (s : string) : string :=
  match s with
  | EmptyString => "nullptr, "
  | _ => s ++ ", "
  end.

Definition groupName (direction : ascii) (index : N) : string :=
  chr direction ++ "G" ++ dec index.

Definition renderGroup (direction : ascii) (g : N * slots) : string :=
  let nm := groupName direction (fst g) in
  "GlueBoolGroup ___" ++ nm
  ++ " { .index=" ++ dec (fst g) ++ ", .values={ "
  ++ String.concat "" (map renderSlot (snd g))
  ++ "} };" ++ endl
  ++ "GlueBoolGroup* __" ++ nm ++ "(&___" ++ nm ++ ");" ++ endl.

Definition generateBoolGroups_dir (direction : ascii) (items : boolMap)
  : string :=
  String.concat "" (map (renderGroup direction) items).

(** ** generateBoolGroups, on the list of declarations *)

Record Containers : Type := mkContainers {
  inputs : boolMap;
  outputs : boolMap;
  memory : boolMap
}.

Definition noGroups : Containers := mkContainers [] [] [].

(** The map the pointer [container] designates. *)
Inductive Container : Type := Inputs | Outputs | Memory.

Definition containerOf (directionFlag : ascii) : Container :=
  if (directionFlag =? "I")%char then Inputs
  else if (directionFlag =? "Q")%char then Outputs
  else Memory.

Definition deref (c : Container) (st : Containers) : boolMap :=
  match c with
  | Inputs => inputs st
  | Outputs => outputs st
  | Memory => memory st
  end.

Definition assign (c : Container) (m : boolMap) (st : Containers)
  : Containers :=
  match c with
  | Inputs => mkContainers m (outputs st) (memory st)
  | Outputs => mkContainers (inputs st) m (memory st)
  | Memory => mkContainers (inputs st) (outputs st) m
  end.

(** The name the first declaration of a group is given. *)
Definition specialName (directionFlag : ascii) (pos1 : N) : string :=
  "__" ++ chr directionFlag ++ "G" ++ dec pos1.

(** The loop over [all_vars]: the list it leaves and the three maps. *)
Fixpoint groupLoop (all_vars : list IecVar) (st : Containers)
  : option (list IecVar * Containers) :=
  match all_vars with
  | [] => Some ([], st)
  | it_var :: rest =>
      sizeFlag <- str_at (name it_var) 3 ;;
      if negb (sizeFlag =? "X")%char then
        '(rest', st') <- groupLoop rest st ;;
        Some (it_var :: rest', st')
      else
        directionFlag <- str_at (name it_var) 2 ;;
        let container := containerOf directionFlag in
        let p1 := pos1 it_var in
        let p2 := pos2 it_var in
        let nm := name it_var in
        match map_find p1 (deref container st) with
        | None =>
            let m1 := map_set p1 emptySlots (deref container st) in
            let renamed :=
              mkIecVar (specialName directionFlag p1) (type it_var) p1 0 in
            m2 <- map_store m1 p1 p2 nm ;;
            '(rest', st') <- groupLoop rest (assign container m2 st) ;;
            Some (renamed :: rest', st')
        | Some _ =>
            m2 <- map_store (deref container st) p1 p2 nm ;;
            groupLoop rest (assign container m2 st)
        end
  end.

Definition renderContainers (st : Containers) : string :=
  generateBoolGroups_dir "I" (inputs st)
  ++ generateBoolGroups_dir "Q" (outputs st)
  ++ generateBoolGroups_dir "M" (memory st).

(** The text written to [glueVars] and the list [all_vars] is left as. *)
Definition generateBoolGroups (all_vars : list IecVar)
  : option (string * list IecVar) :=
  '(all_vars', st) <- groupLoop all_vars noGroups ;;
  Some (renderContainers st, all_vars').

(** ** generateIntegratedGlue *)

Definition glueRow (it : IecVar) : option string :=
  directionFlag <- str_at (name it) 2 ;;
  sizeFlag <- str_at (name it) 3 ;;
  Some ("    {"
        ++ " IECLDT_" ++ fromDirectionFlag directionFlag ++ ","
        ++ " IECLST_" ++ fromSizeFlag sizeFlag ++ ","
        ++ " " ++ dec (pos1 it) ++ ","
        ++ " " ++ dec (pos2 it) ++ ","
        ++ " IECVT_" ++ type it ++ ", "
        ++ " " ++ name it ++ " }," ++ endl).

Definition glueRows (all_vars : list IecVar) : option (list string) :=
  mapM glueRow all_vars.

Definition glueSizeLine (size : nat) : string :=
  "extern std::size_t const OPLCGLUE_GLUE_SIZE("
  ++ dec (N.of_nat size) ++ ");" ++ endl.

Definition integratedGlueText (size : nat) (rows : list string) : string :=
  "/// The size of the array of glue variables." ++ endl
  ++ glueSizeLine size
  ++ "/// The packed glue variables." ++ endl
  ++ "extern const GlueVariable oplc_glue_vars[] = {" ++ endl
  ++ String.concat "" rows
  ++ "};" ++ endl ++ endl.

Definition generateIntegratedGlue (all_vars : list IecVar) : option string :=
  rows <- glueRows all_vars ;;
  Some (integratedGlueText (List.length all_vars) rows).

(** ** generateBody *)

(** The [while (parseIecVars(...))] loop: the declarations pushed onto
    [all_vars], the text written to [cout], and the checksum state.
    [max_index] is computed by the source and never used. *)
Fixpoint readVars {H : Md5} (locatedVars : list string)
    (iecVar_name iecVar_type : cbuf) (md5_state : md5_state_s)
  : option (list IecVar * string * md5_state_s) :=
  match locatedVars with
  | [] => Some ([], "", md5_state)
  | line :: rest =>
      let md5_state' := md5_append md5_state line in
      '(iecVar_name', iecVar_type') <-
         scanLine line iecVar_name iecVar_type ;;
      nm <- cstring iecVar_name' ;;
      ty <- cstring iecVar_type' ;;
      let shown := "varName: " ++ nm ++ String TAB "varType: " ++ ty ++ endl in
      '(p1, p2) <- findPositions iecVar_name' ;;
      '(vars, cout, md5_end) <-
         readVars rest iecVar_name' iecVar_type' md5_state' ;;
      Some (mkIecVar nm ty p1 p2 :: vars, shown ++ cout, md5_end)
  end.

(** The loop that calls [glueVar] on each declaration. *)
Definition glueAll (all_vars : list IecVar) : option (string * string) :=
  outs <- mapM (fun it => glueVar (name it) (pos1 it) (pos2 it)) all_vars ;;
  Some (String.concat "" (map fst outs), String.concat "" (map snd outs)).

Record BodyResult : Type := mkBodyResult {
  glueVars : string;
  cout : string;
  digest : list Z
}.

Definition generateBody {H : Md5} (locatedVars : string)
  : option BodyResult :=
  '(all_vars, cout1, md5_state) <-
     readVars (split_lines locatedVars)
              (uninitialized 100) (uninitialized 100) md5_init ;;
  '(cout2, statements) <- glueAll all_vars ;;
  '(groups, all_vars') <- generateBoolGroups all_vars ;;
  table <- generateIntegratedGlue all_vars' ;;
  Some (mkBodyResult
          ("void glueVars()" ++ endl ++ "{" ++ endl ++ statements
           ++ "}" ++ endl ++ endl ++ groups ++ table)
          (cout1 ++ cout2)
          (md5_finish md5_state)).

(** ** An instance of the checksum primitive

    Modelled from the spec: [md5.h] and the code behind it are missing from
    the sources; the spec describes the primitive as a streaming hash with
    the operations init, append and finish.  The module below is the MD5
    function of RFC 1321, which the names of the three operations
    designate. *)

Module RFC1321.

Local Open Scope Z_scope.

Definition w32 (x : Z) : Z := x mod 4294967296.

Definition rotl (x s : Z) : Z :=
  w32 (Z.lor (Z.shiftl x s) (Z.shiftr x (32 - s))).

Definition lnot32 (x : Z) : Z := Z.lxor x 4294967295.

Definition T : list Z :=
  [3614090360; 3905402710; 606105819; 3250441966;
   4118548399; 1200080426; 2821735955; 4249261313;
   1770035416; 2336552879; 4294925233; 2304563134;
   1804603682; 4254626195; 2792965006; 1236535329;
   4129170786; 3225465664; 643717713; 3921069994;
   3593408605; 38016083; 3634488961; 3889429448;
   568446438; 3275163606; 4107603335; 1163531501;
   2850285829; 4243563512; 1735328473; 2368359562;
   4294588738; 2272392833; 1839030562; 4259657740;
   2763975236; 1272893353; 4139469664; 3200236656;
   681279174; 3936430074; 3572445317; 76029189;
   3654602809; 3873151461; 530742520; 3299628645;
   4096336452; 1126891415; 2878612391; 4237533241;
   1700485571; 2399980690; 4293915773; 2240044497;
   1873313359; 4264355552; 2734768916; 1309151649;
   4149444226; 3174756917; 718787259; 3951481745].

Definition shifts : list Z :=
  [7; 12; 17; 22; 7; 12; 17; 22; 7; 12; 17; 22; 7; 12; 17; 22;
   5; 9; 14; 20; 5; 9; 14; 20; 5; 9; 14; 20; 5; 9; 14; 20;
   4; 11; 16; 23; 4; 11; 16; 23; 4; 11; 16; 23; 4; 11; 16; 23;
   6; 10; 15; 21; 6; 10; 15; 21; 6; 10; 15; 21; 6; 10; 15; 21].

Definition bytes_of (s : string) : list Z :=
  map (fun c => Z.of_nat (nat_of_ascii c)) (list_ascii_of_string s).

(** The [n] low bytes of [x], least significant first. *)
Definition le_bytes (n : nat) (x : Z) : list Z :=
  map (fun i => Z.shiftr x (8 * Z.of_nat i) mod 256) (seq 0 n).

Fixpoint word_le (bs : list Z) : Z :=
  match bs with
  | [] => 0
  | b :: r => b + 256 * word_le r
  end.

Fixpoint chunks (fuel k : nat) (l : list Z) : list (list Z) :=
  match fuel, l with
  | S f, _ :: _ => firstn k l :: chunks f k (skipn k l)
  | _, _ => []
  end.

Definition pad (msg : list Z) : list Z :=
  let len := Z.of_nat (List.length msg) in
  (msg ++ [128] ++ repeat 0 (Z.to_nat ((55 - len) mod 64))
   ++ le_bytes 8 (8 * len))%list.

Definition state : Type := (Z * Z * Z * Z)%type.

Definition step (M : list Z) (st : state) (i : nat) : state :=
  let '(a, b, c, d) := st in
  let r := (i / 16)%nat in
  let f :=
    match r with
    | 0%nat => Z.lor (Z.land b c) (Z.land (lnot32 b) d)
    | 1%nat => Z.lor (Z.land d b) (Z.land (lnot32 d) c)
    | 2%nat => Z.lxor b (Z.lxor c d)
    | _ => Z.lxor c (Z.lor b (lnot32 d))
    end in
  let g :=
    match r with
    | 0%nat => i
    | 1%nat => ((5 * i + 1) mod 16)%nat
    | 2%nat => ((3 * i + 5) mod 16)%nat
    | _ => ((7 * i) mod 16)%nat
    end in
  let x := w32 (a + f + nth i T 0 + nth g M 0) in
  (d, w32 (b + rotl x (nth i shifts 0)), b, c).

Definition block (st : state) (bytes : list Z) : state :=
  let M := map word_le (chunks 16 4 bytes) in
  let '(a, b, c, d) := st in
  let '(a', b', c', d') := fold_left (step M) (seq 0 64) st in
  (w32 (a + a'), w32 (b + b'), w32 (c + c'), w32 (d + d')).

Definition initial : state :=
  (1732584193, 4023233417, 2562383102, 271733878).

Definition md5 (msg : list Z) : list Z :=
  let padded := pad msg in
  let '(a, b, c, d) :=
    fold_left block (chunks (List.length padded) 64 padded) initial in
  (le_bytes 4 a ++ le_bytes 4 b ++ le_bytes 4 c ++ le_bytes 4 d)%list.

End RFC1321.

(** Modelled from the spec: the three operations of the missing [md5.h],
    as a streaming hash: the state is the text appended so far, and
    finishing hashes it with the function of RFC 1321. *)
#[export] Instance md5_rfc1321 : Md5 := {|
  md5_state_s := string;
  md5_init := EmptyString;
  md5_append := String.append;
  md5_finish := fun s => RFC1321.md5 (RFC1321.bytes_of s)
|}.

(** ** Vocabulary of the properties *)

(** The two flag characters of a declaration, read as the source reads
    them; [NUL] stands in where the read is undefined. *)
Definition directionFlagOf (v : IecVar) : ascii :=
  match str_at (name v) 2 with
  | Some c => c
  | None => NUL
  end.

Definition sizeFlagOf (v : IecVar) : ascii :=
  match str_at (name v) 3 with
  | Some c => c
  | None => NUL
  end.

(** A declaration is bit-addressed when its size flag is [X]. *)
Definition bitAddressed (v : IecVar) : bool := (sizeFlagOf v =? "X")%char.

Definition container_eqb (c d : Container) : bool :=
  match c, d with
  | Inputs, Inputs | Outputs, Outputs | Memory, Memory => true
  | _, _ => false
  end.

(** [w] is a bit-addressed declaration of the group with map [c] and major
    index [k]. *)
Definition inGroup (c : Container) (k : N) (w : IecVar) : bool :=
  bitAddressed w
  && container_eqb (containerOf (directionFlagOf w)) c
  && (pos1 w =? k)%N.

(** [w] is a bit-addressed declaration of the group [v] belongs to: the
    same direction and the same major index. *)
Definition sameGroup (v w : IecVar) : bool :=
  inGroup (containerOf (directionFlagOf v)) (pos1 v) w.

(** [w] is a bit-addressed declaration with the direction, major index and
    minor index of [v]. *)
Definition sameSlot (v w : IecVar) : bool :=
  sameGroup v w && (pos2 w =? pos2 v)%N.

(** The entry that stands for the group of [v] in the list, in the words
    of the contract: the synthetic name, two underscores, the direction
    flag, the letter G and the major index in decimal, and the minor
    index 0. *)
Definition groupEntry (v : IecVar) : IecVar :=
  mkIecVar ("__" ++ String (directionFlagOf v) ("G" ++ dec (pos1 v)))
           (type v) (pos1 v) 0.

(** What the aggregator is to leave of a list, in the words of its
    contract: a declaration that is not bit-addressed stays as it is, the
    first bit-addressed declaration of a group becomes the entry of the
    group, a later one disappears; [earlier] holds the declarations already
    passed. *)
Fixpoint aggregated (earlier vars : list IecVar) : list IecVar :=
  match vars with
  | [] => []
  | v :: rest =>
      (if negb (bitAddressed v) then [v]
       else if existsb (sameGroup v) earlier then []
       else [groupEntry v])
      ++ aggregated (earlier ++ [v]) rest
  end%list.

(** The declarations on which the two passes over the list are defined: the
    name has its two flag characters, and a bit-addressed declaration has a
    minor index below 8. *)
Definition addressable (v : IecVar) : bool :=
  (3 <=? String.length (name v))%nat
  && (if bitAddressed v then (pos2 v <? 8)%N else true).

(** The declarations that are not grouped. *)
Definition ungrouped (vars : list IecVar) : list IecVar :=
  filter (fun v => negb (bitAddressed v)) vars.

(** A group is non-empty when one of its slots holds a name. *)
Definition nonEmptyGroup (g : N * slots) : bool :=
  existsb (fun s => negb (s =? "")%string) (snd g).

Definition nonEmptyGroups (st : Containers) : nat :=
  (List.length (filter nonEmptyGroup (inputs st))
   + List.length (filter nonEmptyGroup (outputs st))
   + List.length (filter nonEmptyGroup (memory st)))%nat.

Definition keys (m : boolMap) : list N := map fst m.

Definition groupCount (st : Containers) : nat :=
  (List.length (inputs st) + List.length (outputs st)
   + List.length (memory st))%nat.

(** The effect of one bit-addressed declaration on the maps when its minor
    index is below 8: its name is stored in its slot of its group, the group
    being created with empty slots when it does not exist. *)
Definition record (v : IecVar) (st : Containers) : Containers :=
  let c := containerOf (directionFlagOf v) in
  let m := deref c st in
  assign c (map_set (pos1 v)
                    (set_nth (map_at (pos1 v) m) (N.to_nat (pos2 v)) (name v))
                    m) st.

Definition recordIfBit (st : Containers) (v : IecVar) : Containers :=
  if bitAddressed v then record v st else st.

(** The maps after the declarations [vars]. *)
Definition recorded (vars : list IecVar) (st : Containers) : Containers :=
  fold_left recordIfBit vars st.

Definition hasGroup (st : Containers) (c : Container) (k : N) : bool :=
  match map_find k (deref c st) with
  | Some _ => true
  | None => false
  end.

(** The maps hold exactly the groups of the declarations [earlier]. *)
Definition tracks (earlier : list IecVar) (st : Containers) : Prop :=
  forall (c : Container) (k : N),
    hasGroup st c k = existsb (inGroup c k) earlier.

(** Every group has its eight slots, and one of them holds a name. *)
Definition wellFormed (st : Containers) : Prop :=
  forall c : Container,
    Forall (fun g => List.length (snd g) = 8%nat /\ nonEmptyGroup g = true)
           (deref c st).

Definition sortedMap (m : boolMap) : Prop := StronglySorted N.lt (keys m).

Definition allSorted (st : Containers) : Prop :=
  forall c : Container, sortedMap (deref c st).

(** The slot of a group, when the group exists. *)
Definition slotOf (st : Containers) (c : Container) (k i : N)
  : option string :=
  a <- map_find k (deref c st) ;;
  nth_error a (N.to_nat i).

(** The flag combinations that have a case in [glueVar]. *)
Definition mapped (directionFlag sizeFlag : ascii) : bool :=
  (((directionFlag =? "I") || (directionFlag =? "Q"))
   && ((sizeFlag =? "X") || (sizeFlag =? "B") || (sizeFlag =? "W"))
   || (directionFlag =? "M")
      && ((sizeFlag =? "W") || (sizeFlag =? "D") || (sizeFlag =? "L")))%char.

(** The statements of the two branches of the long-word memory case. *)
Definition specialFunctionStatement (varName : string) (index : Z) : string :=
  String TAB "special_functions[" ++ decZ index
  ++ "] = (IEC_LINT *)" ++ c_str varName ++ ";" ++ endl.

Definition lintMemoryStatement (varName : string) (index : N) : string :=
  String TAB "lint_memory[" ++ dec index
  ++ "] = (IEC_LINT *)" ++ c_str varName ++ ";" ++ endl.

(** The routing of a long-word memory declaration in the words of the spec:
    the special-function buffer when the major index exceeds 1024. *)
Definition longMemoryStatement_spec (varName : string) (majorIndex : N)
  : string :=
  if (1024 <? majorIndex)%N
  then specialFunctionStatement varName (Z.of_N majorIndex - 1024)
  else lintMemoryStatement varName majorIndex.

(** The routing the source performs: from major index 1024 on. *)
Definition longMemoryStatement (varName : string) (majorIndex : N) : string :=
  if (1024 <=? majorIndex)%N
  then specialFunctionStatement varName (Z.of_N majorIndex - 1024)
  else lintMemoryStatement varName majorIndex.

(** The raw lines of the input: each line with its line feed. *)
Fixpoint raw_lines (content : string) : list string :=
  match content with
  | EmptyString => []
  | String c r =>
      if (c =? LF)%char then String c EmptyString :: raw_lines r
      else match raw_lines r with
           | [] => [String c EmptyString]
           | l :: ls => String c l :: ls
           end
  end.

(** The digest of a text fed in one piece. *)
Definition digestOf {H : Md5} (text : string) : list Z :=
  md5_finish (md5_append md5_init text).

(** A zero-initialised array of 100 characters, as [char a[100] = {}]. *)
Definition zeroed : cbuf := buf_of_chars (repeat NUL 100).

Definition isByte (b : Z) : bool := ((0 <=? b) && (b <? 256))%Z.

(** A line array as [strncpy] leaves it: every cell written, and nothing
    but terminators after the first terminator. *)
Definition all_nul (b : cbuf) : bool :=
  forallb (fun x => match x with
                    | Some c => (c =? NUL)%char
                    | None => false
                    end) b.

Fixpoint nul_closed (b : cbuf) : bool :=
  match b with
  | [] => true
  | None :: _ => false
  | Some c :: r => if (c =? NUL)%char then all_nul r else nul_closed r
  end.

(** The array [b] begins with the characters [l]. *)
Definition starts_with (b : cbuf) (l : list ascii) : Prop :=
  exists r, b = (buf_of_chars l ++ r)%list.

Definition noNul (l : list ascii) : Prop := Forall (fun c => c <> NUL) l.

(** ** Declaration lines as the compiler writes them

    The lines of [LOCATED_VARIABLES.h] have the shape
    [__LOCATED_VAR(BOOL,__IX0_1,I,X,0,1)]: the type, then the name, made of
    two underscores, the direction flag, the size flag, the major index and,
    for some, an underscore and the minor index. *)

Record Located : Type := mkLocated {
  loc_type : string;
  loc_direction : ascii;
  loc_size : ascii;
  loc_major : list ascii;
  loc_minor : option (list ascii);
  loc_tail : string
}.

(** The number a sequence of decimal digits denotes. *)
Definition numeral (ds : list ascii) : Z :=
  fold_left (fun acc c => (10 * acc + Z.of_nat (nat_of_ascii c - 48))%Z) ds 0%Z.

Definition locatedName (l : Located) : string :=
  "__" ++ chr (loc_direction l) ++ chr (loc_size l)
  ++ string_of_list_ascii (loc_major l)
  ++ match loc_minor l with
     | Some m => "_" ++ string_of_list_ascii m
     | None => ""
     end.

Definition locatedLine (l : Located) : string :=
  "__LOCATED_VAR(" ++ loc_type l ++ "," ++ locatedName l ++ ","
  ++ loc_tail l.

(** The declaration the line stands for. *)
Definition locatedVar (l : Located) : IecVar :=
  mkIecVar (locatedName l) (loc_type l)
           (to_uint16 (numeral (loc_major l)))
           match loc_minor l with
           | Some m => to_uint16 (numeral m)
           | None => 0
           end.

Definition isDigit (c : ascii) : bool :=
  match digit c with
  | Some _ => true
  | None => false
  end.

(** A character that ends neither a field, nor a C string, nor a line. *)
Definition plainChar (c : ascii) : bool :=
  (negb (c =? NUL) && negb (c =? ",") && negb (c =? LF))%char.

Definition isNumeral (ds : list ascii) : bool :=
  negb (Nat.eqb (List.length ds) 0) && forallb isDigit ds
  && (numeral ds <=? 2147483647)%Z.

Definition wellFormedLocated (l : Located) : bool :=
  negb (Nat.eqb (String.length (loc_type l)) 0)
  && forallb plainChar (list_ascii_of_string (loc_type l))
  && (String.length (loc_type l) <=? 99)%nat
  && plainChar (loc_direction l) && plainChar (loc_size l)
  && isNumeral (loc_major l)
  && match loc_minor l with
     | Some m => isNumeral m
     | None => true
     end
  && (String.length (locatedName l) <=? 99)%nat
  && forallb (fun c => negb (c =? LF)%char) (list_ascii_of_string (loc_tail l))
  && (if (loc_size l =? "X")%char then (pos2 (locatedVar l) <? 8)%N else true).

(** The file with these lines, each ended by a line feed. *)
Definition locatedInput (ls : list Located) : string :=
  String.concat "" (map (fun l => locatedLine l ++ endl) ls).

(** The characters of the name of a line after the major index. *)
Definition minorChars (minor : option (list ascii)) : list ascii :=
  match minor with
  | Some m => "_"%char :: m
  | None => []
  end.

(** What [wellFormedLocated] checks, condition by condition. *)
Record LocatedParts (l : Located) : Prop := mkLocatedParts {
  lp_type_nonempty : list_ascii_of_string (loc_type l) <> [];
  lp_type_plain : forallb plainChar (list_ascii_of_string (loc_type l)) = true;
  lp_type_length : (String.length (loc_type l) <= 99)%nat;
  lp_direction : plainChar (loc_direction l) = true;
  lp_size : plainChar (loc_size l) = true;
  lp_major : isNumeral (loc_major l) = true;
  lp_minor : match loc_minor l with
             | Some m => isNumeral m = true
             | None => True
             end;
  lp_name_length : (String.length (locatedName l) <= 99)%nat;
  lp_tail : forallb (fun c => negb (c =? LF)%char)
                    (list_ascii_of_string (loc_tail l)) = true;
  lp_bit : (loc_size l =? "X")%char = true -> (pos2 (locatedVar l) < 8)%N
}.

(** ** generateHeader, generateBottom

    The two functions write a fixed text each.  The double quote of the
    [#include] lines is [DQ]. *)

Definition DQ : ascii := ascii_of_nat 34.

Definition generateHeader : string :=
  "// This file is responsible for gluing the variables from the IEC program to
// the OpenPLC memory pointers. It is automatically generated by the
// glue_generator program. PLEASE DON'T EDIT THIS FILE!
// Thiago Alves, May 2016
// -----------------------------------------------------------------------------
#include <cstdint>

#include "
  ++ chr DQ ++ "iec_std_lib.h"
  ++ chr DQ ++ "

TIME __CURRENT_TIME;
extern unsigned long long common_ticktime__;

#ifndef OPLC_IEC_GLUE_DIRECTION
#define OPLC_IEC_GLUE_DIRECTION
enum IecLocationDirection {
    IECLDT_IN,
    IECLDT_OUT,
    IECLDT_MEM,
};
#endif  // OPLC_IEC_GLUE_DIRECTION

#ifndef OPLC_IEC_GLUE_SIZE
#define OPLC_IEC_GLUE_SIZE
enum IecLocationSize {
    /// Variables that are a single bit
    IECLST_BIT,
    /// Variables that are 1 byte
    IECLST_BYTE,
    /// Variables that are 2 bytes
    IECLST_WORD,
    /// Variables that are 4 bytes, including REAL
    IECLST_DOUBLEWORD,
    /// Variables that are 8 bytes, including LREAL
    IECLST_LONGWORD,
};
#endif  // OPLC_IEC_GLUE_SIZE

#ifndef OPLC_IEC_GLUE_VALUE_TYPE
#define OPLC_IEC_GLUE_VALUE_TYPE
enum IecGlueValueType {
    IECVT_BOOL,
    IECVT_BYTE,
    IECVT_SINT,
    IECVT_USINT,
    IECVT_INT,
    IECVT_UINT,
    IECVT_WORD,
    IECVT_DINT,
    IECVT_UDINT,
    IECVT_DWORD,
    IECVT_REAL,
    IECVT_LREAL,
    IECVT_LWORD,
    IECVT_LINT,
    IECVT_ULINT,
    /// This is not a normal type and won't appear in the glue variables
    /// here. But it does allow you to create your own indexed mapping
    /// and have a way to indicate a value that is not assigned a type.
    IECVT_UNASSIGNED,
};
#endif  // OPLC_IEC_GLUE_VALUE_TYPE

#ifndef OPLC_GLUE_BOOL_GROUP
#define OPLC_GLUE_BOOL_GROUP
/// Defines the mapping for a glued variable that is a boolean array.
/// The boolean array is sub-indiced as a group, for example all of the
/// values %IX0.0 through %IX0.1 share the same group. The size of the
/// group is fixed at 8 values, but some may be unassigned.
struct GlueBoolGroup {
    /// The first index for this array. If we are iterating over the glue
    /// variables, then this index is superfluous, but it is very helpful
    /// for debugging.
    std::uint16_t index;
    /// The values in this group. If the value is not assigned, then the
    /// value at the index points to nullptr.
    IEC_BOOL* values[8];
};
#endif // OPLC_GLUE_BOOL_GROUP

#ifndef OPLC_GLUE_VARIABLE
#define OPLC_GLUE_VARIABLE
/// Defines the mapping for a glued variable. This defines a simple, space
/// efficient lookup table. It has all of the mapping information that you
/// need to find the variable based on the location name (e.g. %IB1.1). While
/// this is space efficient, this should be searched once to construct a fast
/// lookup into this table used for the remainder of the application lifecycle.
struct GlueVariable {
    /// The direction of the variable - this is determined by I/Q/M.
    IecLocationDirection dir;
    /// The size of the variable - this is determined by X/B/W/D/L.
    IecLocationSize size;
    /// The most significant index for the variable. This is the part of the
    /// name, converted to an integer, before the period.
    std::uint16_t msi;
    /// The least significant index (sub-index) for the variable. This is the
    /// part of the name, converted to an integer, after the period. It is
    /// only relevant for boolean (bit) values.
    std::uint8_t lsi;
    /// The type of the glue variable. This is used so that we correctly
    /// write into the value type.
    IecGlueValueType type;
    /// A pointer to the memory address for reading/writing the value.
    void* value;
};
#endif  // OPLC_GLUE_VARIABLE

// Internal buffers for I/O and memory. These buffers are defined in the
// auto-generated glueVars.cpp file.
// Inputs: I
// Outputs: Q
// Memory: M
#define BUFFER_SIZE 1024

// Booleans - defined by the "
  ++ chr DQ ++ "X"
  ++ chr DQ ++ " width
IEC_BOOL *bool_input[BUFFER_SIZE][8] = {};
IEC_BOOL *bool_output[BUFFER_SIZE][8] = {};

// Bytes - defined by the "
  ++ chr DQ ++ "B"
  ++ chr DQ ++ " width
IEC_BYTE *byte_input[BUFFER_SIZE] = {};
IEC_BYTE *byte_output[BUFFER_SIZE] = {};

// Words - defined by the "
  ++ chr DQ ++ "W"
  ++ chr DQ ++ " width
IEC_UINT *int_input[BUFFER_SIZE] = {};
IEC_UINT *int_output[BUFFER_SIZE] = {};
IEC_UINT *int_memory[BUFFER_SIZE] = {};

// Double words - defined by the "
  ++ chr DQ ++ "D"
  ++ chr DQ ++ " width
// This is also valid size for a REAL but we don't allow
// them in this structure
IEC_DINT *dint_memory[BUFFER_SIZE] = {};

// Longs - defined by the "
  ++ chr DQ ++ "L"
  ++ chr DQ ++ " width
// This is also valid size for a LREAL but we don't allow
// them in this structure
IEC_LINT *lint_memory[BUFFER_SIZE] = {};

// Special Functions
IEC_LINT *special_functions[BUFFER_SIZE];


#define __LOCATED_VAR(type, name, ...) type __##name;
#include "
  ++ chr DQ ++ "LOCATED_VARIABLES.h"
  ++ chr DQ ++ "
#undef __LOCATED_VAR
#define __LOCATED_VAR(type, name, ...) type* name = &__##name;
#include "
  ++ chr DQ ++ "LOCATED_VARIABLES.h"
  ++ chr DQ ++ "
#undef __LOCATED_VAR
".

Definition generateBottom : string :=
  "void updateTime()
{
    __CURRENT_TIME.tv_nsec += common_ticktime__;

    if (__CURRENT_TIME.tv_nsec >= 1000000000) {
        __CURRENT_TIME.tv_nsec -= 1000000000;
        __CURRENT_TIME.tv_sec += 1;
    }
}".

(** ** mainImpl

    The files are what the two stream constructors find: [openInput] gives
    the content of a file that [ifstream] can open, [openOutput] tells
    whether [ofstream] can open a path for writing.  The result is the
    value returned, the text written to [cout], and the output file when it
    has been written. *)

Record Files : Type := mkFiles {
  openInput : string -> option string;
  openOutput : string -> bool
}.

Record MainResult : Type := mkMainResult {
  exitCode : Z;
  console : string;
  written : option (string * string)
}.

Definition usageText : string :=
  "Usage " ++ endl ++ endl
  ++ "  glue_generator [options] <path-to-located-variables.h> "
  ++ "<path-to-glue-vars.cpp>" ++ endl ++ endl
  ++ "Reads the LOCATED_VARIABLES.h file generated by the MATIEC "
  ++ "compiler and produces" ++ endl
  ++ "glueVars.cpp for the OpenPLC runtime. If not specified, "
  ++ "paths are relative to" ++ endl
  ++ "the current directory." ++ endl ++ endl
  ++ "Options" ++ endl
  ++ "  --help,-h   = Print usage information and exit." ++ endl.

(** [argc >= 2 && (strcmp(argv[1], "-h") == 0 || strcmp(argv[1], "--help") == 0)] *)
Definition show_help (argv : list string) : bool :=
  (2 <=? List.length argv)%nat
  && match nth_error argv 1 with
     | Some a => (a =? "-h")%string || (a =? "--help")%string
     | None => false
     end.

Definition mainImpl {H : Md5} (fs : Files) (argv : list string)
  : option MainResult :=
  let argc := List.length argv in
  if show_help argv || (negb (argc =? 1)%nat && negb (argc =? 3)%nat) then
    Some (mkMainResult (if show_help argv then 0%Z else (-1)%Z)
                       usageText None)
  else
    let input_file_name :=
      if (argc =? 3)%nat then nth 1 argv "" else "LOCATED_VARIABLES.h" in
    let output_file_name :=
      if (argc =? 3)%nat then nth 2 argv "" else "glueVars.cpp" in
    match openInput fs input_file_name with
    | None =>
        Some (mkMainResult 1%Z
                ("Error opening located variables file at "
                 ++ input_file_name ++ endl) None)
    | Some locatedVars =>
        if negb (openOutput fs output_file_name) then
          Some (mkMainResult 2%Z
                  ("Error opening glue variables file at "
                   ++ output_file_name ++ endl) None)
        else
          body <- generateBody locatedVars ;;
          checksum <- generateChecksum (digest body) ;;
          Some (mkMainResult 0%Z (cout body)
                  (Some (output_file_name,
                         generateHeader ++ glueVars body ++ checksum
                         ++ generateBottom)))
    end.

(** [md5_finish] fills the array [md5_byte_t digest[16]] of the caller:
    sixteen bytes. *)
Class Md5Digest16 (H : Md5) : Prop := {
  md5_finish_length :
    forall s : md5_state_s, List.length (md5_finish s) = 16%nat
}.

(** ** Vocabulary of the further properties *)

(** The letter [generateBoolGroups] passes for each of its three maps. *)
Definition containerLetter (c : Container) : ascii :=
  match c with
  | Inputs => "I"
  | Outputs => "Q"
  | Memory => "M"
  end.

Definition directionText (c : Container) : string :=
  match c with
  | Inputs => "IN"
  | Outputs => "OUT"
  | Memory => "MEM"
  end.

(** The name of the last declaration of [vars] that is bit-addressed with
    map [c], major index [k] and minor index [i]; [current] when there is
    none. *)
Definition lastWriter (c : Container) (k i : N) (vars : list IecVar)
    (current : string) : string :=
  fold_left (fun s w => if inGroup c k w && (pos2 w =? i)%N
                        then name w else s) vars current.

(** The value of a hexadecimal digit, upper case. *)
Definition hexValue (c : ascii) : option Z :=
  let n := nat_of_ascii c in
  if (Nat.leb 48 n && Nat.leb n 57)%bool then Some (Z.of_nat (n - 48))
  else if (Nat.leb 65 n && Nat.leb n 70)%bool then Some (Z.of_nat (n - 55))
  else None.


(** The text [s] occurs in the text [t]. *)
Definition occursIn (s t : string) : Prop :=
  exists before after : string, t = before ++ s ++ after.

(** The two lines [generateBoolGroups] ends a group with: the pointer the
    table row of the group refers to. *)
Definition pointerLine (c : Container) (k : N) : string :=
  "GlueBoolGroup* __" ++ groupName (containerLetter c) k
  ++ "(&___" ++ groupName (containerLetter c) k ++ ");" ++ endl.

(** The size class [generateIntegratedGlue] prints for a size flag: the
    group flag and the bit flag as bits, an unknown one as long words. *)
Definition sizeClassText (sizeFlag : ascii) : string :=
  match sizeFlag with
  | "G"%char | "X"%char => "BIT"
  | "B"%char => "BYTE"
  | "W"%char => "WORD"
  | "D"%char => "DOUBLEWORD"
  | _ => "LONGWORD"
  end.

(** The row of the table for a declaration, as the generated file has it:
    direction, size class, the two indices, type and name. *)
Definition rowText (it : IecVar) : string :=
  "    { IECLDT_" ++ directionText (containerOf (directionFlagOf it))
  ++ ", IECLST_" ++ sizeClassText (sizeFlagOf it)
  ++ ", " ++ dec (pos1 it) ++ ", " ++ dec (pos2 it)
  ++ ", IECVT_" ++ type it ++ ",  " ++ name it ++ " }," ++ endl.

(** * Properties *)

(** ** Reasoning about defined computations *)

Lemma bind_Some {A B : Type} (m : option A) (f : A -> option B) (b : B) :
  bind m f = Some b -> exists a, m = Some a /\ f a = Some b.
Proof.
  destruct m as [a|]; simpl; intros E; [exists a; auto | discriminate].
Qed.

Tactic Notation "inv_bind" hyp(H) "as" ident(a) ident(E) :=
  apply bind_Some in H; destruct H as (a & E & H).

Lemma mapM_length {A B : Type} (f : A -> option B) (l : list A) (r : list B) :
  mapM f l = Some r -> List.length r = List.length l.
Proof.
  revert r; induction l as [|a l IH]; simpl; intros r E.
  - injection E as <-. reflexivity.
  - inv_bind E as b Eb. inv_bind E as bs Ebs. injection E as <-.
    simpl. f_equal. now apply IH.
Qed.

Lemma mapM_total {A B : Type} (f : A -> option B) (l : list A) :
  Forall (fun a => f a <> None) l -> exists r, mapM f l = Some r.
Proof.
  induction 1 as [|a l Ha _ [r IH]]; simpl.
  - now exists [].
  - destruct (f a) as [b|]; [|congruence]. simpl. rewrite IH. simpl.
    now exists (b :: r).
Qed.


(** ** glueVar: long-word memory *)

Lemma glueVar_long_memory (varName : string) (p1 p2 : N) :
  str_at varName 2 = Some "M"%char ->
  str_at varName 3 = Some "L"%char ->
  glueVar varName p1 p2
  = Some (invalidAddressing varName p2, longMemoryStatement varName p1).
Proof.
  intros E2 E3. unfold glueVar, longMemoryStatement.
  rewrite E2. cbn [bind]. rewrite E3.
  replace (1023 <? p1)%N with (1024 <=? p1)%N
    by (destruct (N.leb_spec 1024 p1), (N.ltb_spec 1023 p1); auto; lia).
  destruct (1024 <=? p1)%N; reflexivity.
Qed.

(** C5, as amended: a long-word memory declaration is routed to the
    special-function buffer at index [majorIndex - 1024] exactly when its
    major index is at least 1024, and to the long-word memory buffer at
    index [majorIndex] otherwise. *)
Theorem long_memory_routing (varName : string) (p1 p2 : N) :
  str_at varName 2 = Some "M"%char ->
  str_at varName 3 = Some "L"%char ->
  exists shown,
    glueVar varName p1 p2 = Some (shown, longMemoryStatement varName p1)
    /\ ((1024 <= p1)%N ->
        longMemoryStatement varName p1
        = specialFunctionStatement varName (Z.of_N p1 - 1024))
    /\ ((p1 < 1024)%N ->
        longMemoryStatement varName p1 = lintMemoryStatement varName p1).
Proof.
  intros E2 E3. exists (invalidAddressing varName p2). split.
  - now apply glueVar_long_memory.
  - unfold longMemoryStatement.
    destruct (N.leb_spec 1024 p1); split; intros; auto; lia.
Qed.

(** The scenario of the spec: [%ML1025] goes to offset 1. *)
Lemma long_memory_routing_witness :
  exists shown,
    glueVar "__ML1025" 1025 0
    = Some (shown, longMemoryStatement "__ML1025" 1025)
    /\ ((1024 <= 1025)%N ->
        longMemoryStatement "__ML1025" 1025
        = specialFunctionStatement "__ML1025" (Z.of_N 1025 - 1024))
    /\ ((1025 < 1024)%N ->
        longMemoryStatement "__ML1025" 1025
        = lintMemoryStatement "__ML1025" 1025).
Proof.
  apply (long_memory_routing "__ML1025" 1025 0); reflexivity.
Defined.

(** C5 as the spec words it fails at major index 1024: 1024 does not exceed
    1024, so the spec sends [%ML1024] to the long-word memory buffer, and
    the source sends it to the special-function buffer at offset 0. *)
Lemma major_index_1024_is_special_function :
  longMemoryStatement_spec "__ML1024" 1024 = lintMemoryStatement "__ML1024" 1024
  /\ glueVar "__ML1024" 1024 0
     = Some ("", specialFunctionStatement "__ML1024" 0)
  /\ glueVar "__ML1024" 1024 0
     <> Some ("", longMemoryStatement_spec "__ML1024" 1024).
Proof.
  split; [reflexivity|]. split; [reflexivity|].
  vm_compute. discriminate.
Qed.

(** ** generateChecksum *)

Lemma hexPair_byte (b : Z) : isByte b = true -> hexPair b <> None.
Proof.
  intros Hb.
  assert (Hall : forallb (fun n => match hexPair (Z.of_nat n) with
                                   | Some _ => true
                                   | None => false
                                   end) (seq 0 256) = true)
    by (vm_compute; reflexivity).
  rewrite forallb_forall in Hall.
  unfold isByte in Hb. apply andb_true_iff in Hb as [H0 H1].
  apply Z.leb_le in H0. apply Z.ltb_lt in H1.
  specialize (Hall (Z.to_nat b)).
  rewrite Z2Nat.id in Hall by assumption.
  destruct (hexPair b); [discriminate|].
  assert (false = true); [|discriminate].
  apply Hall. apply in_seq. lia.
Qed.

(** C4: the loop of [generateChecksum] runs for [i] from 0 to 16 included.
    On a digest of 16 bytes it reads the cell at index 16, one past the end
    of the array; with one more readable byte behind the digest it renders
    17 pairs, not 16. *)
Theorem generateChecksum_reads_index_16 (digest : list Z) :
  List.length digest = 16%nat ->
  Forall (fun b => isByte b = true) digest ->
  In 16%nat checksumIndices
  /\ generateChecksum digest = None
  /\ forall next : Z, isByte next = true ->
       exists pairs,
         List.length pairs = 17%nat
         /\ generateChecksum (digest ++ [next])%list
            = Some (checksumHeader ++ String.concat "" pairs ++ "};" ++ endl
                    ++ endl ++ endl).
Proof.
  intros Hlen Hbytes. split; [|split].
  - unfold checksumIndices. apply in_seq. lia.
  - do 17 (destruct digest as [|? digest]; try discriminate Hlen).
    unfold generateChecksum, checksumIndices. cbn [seq Nat.add mapM].
    repeat match goal with
           | |- context [bind (bind (nth_error _ _) _) _] =>
               cbn [nth_error bind]
           end.
    inversion Hbytes as [|? ? Hb0 Hb]; subst.
    repeat match goal with
           | H : Forall _ (_ :: _) |- _ => inversion H; subst; clear H
           end.
    repeat match goal with
           | H : isByte ?b = true |- _ =>
               let E := fresh "E" in
               destruct (hexPair b) eqn:E;
               [cbn [bind]; clear H | now apply hexPair_byte in H]
           end.
    reflexivity.
  - intros next Hnext.
    assert (Hall : Forall (fun i => (b <- nth_error (digest ++ [next])%list i ;;
                                     hexPair b) <> None) checksumIndices).
    { apply Forall_forall. intros i Hi. unfold checksumIndices in Hi.
      apply in_seq in Hi.
      destruct (nth_error (digest ++ [next])%list i) as [b|] eqn:E.
      - cbn [bind]. apply hexPair_byte.
        apply nth_error_In in E. apply in_app_or in E as [E|[<-|[]]]; auto.
        rewrite Forall_forall in Hbytes. auto.
      - apply nth_error_None in E. rewrite length_app in E. simpl in E. lia. }
    destruct (mapM_total _ _ Hall) as [pairs E].
    exists pairs. split.
    + apply mapM_length in E. rewrite E. reflexivity.
    + unfold generateChecksum. rewrite E. reflexivity.
Qed.

Lemma generateChecksum_reads_index_16_witness :
  In 16%nat checksumIndices
  /\ generateChecksum (repeat 171%Z 16) = None
  /\ forall next : Z, isByte next = true ->
       exists pairs,
         List.length pairs = 17%nat
         /\ generateChecksum (repeat 171%Z 16 ++ [next])%list
            = Some (checksumHeader ++ String.concat "" pairs ++ "};" ++ endl
                    ++ endl ++ endl).
Proof.
  apply (generateChecksum_reads_index_16 (repeat 171%Z 16)).
  - reflexivity.
  - repeat constructor.
Defined.

(** ** parseIecVars *)

Lemma buf_write_starts_with (pre : list ascii) :
  forall (b b' : cbuf) (c : ascii),
    starts_with b pre ->
    buf_write b (List.length pre) c = Some b' ->
    starts_with b' (pre ++ [c])%list.
Proof.
  induction pre as [|p pre IH]; intros b b' c [r ->] E.
  - destruct r as [|x r]; simpl in E; [discriminate|].
    injection E as <-. now exists r.
  - simpl in E. inv_bind E as b1 E1. injection E as <-.
    destruct (IH _ _ _ (ex_intro _ r eq_refl) E1) as [r' ->].
    now exists r'.
Qed.

Lemma starts_with_app_l (b : cbuf) (l1 l2 : list ascii) :
  starts_with b (l1 ++ l2)%list -> starts_with b l1.
Proof.
  intros [r ->]. exists (buf_of_chars l2 ++ r)%list.
  unfold buf_of_chars. now rewrite map_app, <- app_assoc.
Qed.

Lemma cstring_starts_with (cs : list ascii) :
  forall b : cbuf,
    starts_with b (cs ++ [NUL])%list -> noNul cs ->
    cstring b = Some (string_of_list_ascii cs).
Proof.
  induction cs as [|c cs IH]; intros b [r ->] Hn.
  - reflexivity.
  - inversion Hn as [|? ? Hc Hcs]; subst. simpl.
    destruct (Ascii.eqb_spec c NUL) as [->|_]; [congruence|].
    rewrite (IH _ (ex_intro _ r eq_refl) Hcs). reflexivity.
Qed.

(** What the copying loop does when it ends: it has copied the characters
    [cs] that precede the stopping character, and then the array [dst]
    either is untouched (nothing was copied) or begins with [cs] and a
    terminator. *)
Lemma copy_until_spec (stop : ascii -> bool) (src : cbuf) :
  forall (dst : cbuf) (pre : list ascii) (src' dst' : cbuf),
    copy_until stop src dst (List.length pre) = Some (src', dst') ->
    starts_with dst pre ->
    exists (cs : list ascii) (c : ascii) (after : cbuf),
      src = (buf_of_chars cs ++ Some c :: after)%list
      /\ src' = Some c :: after
      /\ stop c = true
      /\ Forall (fun x => stop x = false) cs
      /\ (cs = [] -> dst' = dst)
      /\ (cs <> [] -> starts_with dst' (pre ++ cs ++ [NUL])%list).
Proof.
  induction src as [|x src IH]; intros dst pre src' dst' E Hpre;
    [discriminate|].
  destruct x as [c|]; [|discriminate]. simpl in E.
  destruct (stop c) eqn:Hstop.
  - injection E as <- <-. exists [], c, src.
    repeat split; auto. congruence.
  - inv_bind E as dst1 E1. inv_bind E as dst2 E2.
    assert (H1 : starts_with dst1 (pre ++ [c])%list)
      by (eapply buf_write_starts_with; eauto).
    assert (H2 : starts_with dst2 ((pre ++ [c]) ++ [NUL])%list).
    { eapply buf_write_starts_with; eauto.
      rewrite length_app, Nat.add_comm. exact E2. }
    replace (S (List.length pre)) with (List.length (pre ++ [c])%list) in E
      by (rewrite length_app, Nat.add_comm; reflexivity).
    destruct (IH _ _ _ _ E (starts_with_app_l _ _ _ H2))
      as (cs & c' & after & -> & -> & Hc' & Hcs & Hnil & Hcons).
    exists (c :: cs), c', after. repeat split; auto.
    + congruence.
    + intros _. destruct cs as [|c0 cs].
      * rewrite (Hnil eq_refl). now rewrite <- app_assoc in H2.
      * assert (Hne : c0 :: cs <> []) by congruence.
        specialize (Hcons Hne). now rewrite <- app_assoc in Hcons.
Qed.

Lemma all_nul_closed (b : cbuf) : all_nul b = true -> nul_closed b = true.
Proof.
  induction b as [|[c|] b IH]; simpl; intros E; auto.
  apply andb_true_iff in E as [-> E]. exact E.
Qed.

Lemma all_nul_app_r (l r : cbuf) : all_nul (l ++ r)%list = true -> all_nul r = true.
Proof.
  unfold all_nul. rewrite forallb_app. intros E.
  now apply andb_true_iff in E.
Qed.

Lemma nul_closed_app_r (l r : cbuf) :
  nul_closed (l ++ r)%list = true -> nul_closed r = true.
Proof.
  induction l as [|[c|] l IH]; simpl; intros E; auto; [|discriminate].
  destruct (c =? NUL)%char; auto.
  apply all_nul_closed. eapply all_nul_app_r; eauto.
Qed.

Lemma nul_closed_before (cs : list ascii) (c : ascii) (after : cbuf) :
  nul_closed (buf_of_chars cs ++ Some c :: after)%list = true ->
  c <> NUL -> noNul cs.
Proof.
  unfold noNul. intros E Hc. induction cs as [|x cs IH]; [constructor|].
  simpl in E. destruct (Ascii.eqb_spec x NUL) as [->|Hx].
  - apply all_nul_app_r in E. simpl in E.
    destruct (Ascii.eqb_spec c NUL); [contradiction|discriminate].
  - constructor; [exact Hx | exact (IH E)].
Qed.

Lemma c_str_noNul (s : string) : noNul (list_ascii_of_string (c_str s)).
Proof.
  unfold noNul. induction s as [|c s IH]; simpl; [constructor|].
  destruct (Ascii.eqb_spec c NUL); simpl; constructor; auto.
Qed.

Lemma noNul_firstn (n : nat) (l : list ascii) : noNul l -> noNul (firstn n l).
Proof.
  unfold noNul. intros H. revert n.
  induction H; intros [|n]; simpl; constructor; auto.
Qed.

Lemma all_nul_repeat (n : nat) : all_nul (buf_of_chars (repeat NUL n)) = true.
Proof.
  induction n; simpl; auto.
Qed.

Lemma strncpy_nul_closed (src : string) (n : nat) :
  nul_closed (strncpy src n) = true.
Proof.
  unfold strncpy, buf_of_chars. rewrite map_app.
  generalize (noNul_firstn n _ (c_str_noNul src)).
  generalize (firstn n (list_ascii_of_string (c_str src))).
  generalize (n - List.length (list_ascii_of_string (c_str src)))%nat.
  intros k l Hl. induction Hl as [|c l Hc _ IH]; simpl.
  - apply all_nul_closed, all_nul_repeat.
  - destruct (Ascii.eqb_spec c NUL); [contradiction|exact IH].
Qed.

Lemma seek_spec (c : ascii) (b : cbuf) :
  forall b', seek c b = Some b' ->
    exists pre after,
      b = (pre ++ Some c :: after)%list /\ b' = Some c :: after
      /\ ~ In (Some c) pre.
Proof.
  induction b as [|x b IH]; intros b' E; [discriminate|].
  destruct x as [x|]; [|discriminate]. simpl in E.
  destruct (Ascii.eqb_spec x c) as [->|Hx].
  - injection E as <-. exists [], b. auto.
  - destruct (IH _ E) as (pre & after & -> & -> & Hpre).
    exists (Some x :: pre), after. repeat split; auto.
    intros [Heq|Hin]; [congruence|contradiction].
Qed.

Lemma string_of_list_ascii_nonempty (cs : list ascii) :
  cs <> [] -> string_of_list_ascii cs <> EmptyString.
Proof.
  destruct cs; simpl; congruence.
Qed.

Lemma isComma_spec (c : ascii) : isComma c = true -> c = ","%char.
Proof.
  unfold isComma. now destruct (Ascii.eqb_spec c ",").
Qed.

Lemma not_comma (cs : list ascii) :
  Forall (fun x => isComma x = false) cs -> ~ In ","%char cs.
Proof.
  intros H Hin. rewrite Forall_forall in H. apply H in Hin. discriminate.
Qed.

(** The fields a successful scan has read and what it has left in the two
    arrays. *)
Lemma scanLine_spec (line : string) (varName varType varName' varType' : cbuf) :
  scanLine line varName varType = Some (varName', varType') ->
  exists (pre : cbuf) (ty nm : list ascii) (post : cbuf),
    strncpy line 1024
    = (pre ++ Some "("%char :: buf_of_chars ty
           ++ Some ","%char :: buf_of_chars nm
           ++ Some ","%char :: post)%list
    /\ ~ In (Some "("%char) pre
    /\ ~ In ","%char ty /\ ~ In ","%char nm
    /\ noNul ty /\ noNul nm
    /\ (ty = [] -> varType' = varType)
    /\ (ty <> [] -> cstring varType' = Some (string_of_list_ascii ty))
    /\ (nm = [] -> varName' = varName)
    /\ (nm <> [] -> cstring varName' = Some (string_of_list_ascii nm)).
Proof.
  unfold scanLine. intros E.
  pose proof (strncpy_nul_closed line 1024) as Hclosed.
  inv_bind E as at_paren E0.
  destruct (seek_spec _ _ _ E0) as (pre & i1 & Hbuf & -> & Hpre).
  cbn [tl] in E. inv_bind E as r1 E1. destruct r1 as [at_comma varType1].
  destruct (copy_until_spec _ _ varType [] _ _ E1 (ex_intro _ varType eq_refl))
    as (ty & c1 & i2 & -> & -> & Hc1 & Hty & Hty0 & Hty1).
  cbn [tl] in E. inv_bind E as r2 E2. destruct r2 as [at_comma2 varName1].
  destruct (copy_until_spec _ _ varName [] _ _ E2 (ex_intro _ varName eq_refl))
    as (nm & c2 & post & -> & -> & Hc2 & Hnm & Hnm0 & Hnm1).
  injection E as <- <-.
  apply isComma_spec in Hc1, Hc2. subst c1 c2.
  rewrite Hbuf in Hclosed.
  apply nul_closed_app_r in Hclosed.
  change (Some "("%char :: ?l) with ([Some "("%char] ++ l)%list in Hclosed.
  apply nul_closed_app_r in Hclosed.
  assert (Hnty : noNul ty) by (eapply nul_closed_before; eauto; discriminate).
  apply nul_closed_app_r in Hclosed.
  change (Some ","%char :: ?l) with ([Some ","%char] ++ l)%list in Hclosed.
  apply nul_closed_app_r in Hclosed.
  assert (Hnnm : noNul nm) by (eapply nul_closed_before; eauto; discriminate).
  exists pre, ty, nm, post. rewrite Hbuf.
  repeat split; auto using not_comma.
  all: intros; apply cstring_starts_with; auto.
Qed.

(** C7, as amended: a call of the parser that reports a declaration has
    read its type between the first opening parenthesis of the line and the
    next comma, and its name between that comma and the following one.  A
    field that is not empty is left in its array as a C string, which is
    then not empty.  The statement also has the other case, which the
    amended claim leaves open: the copy loop of an empty field runs no turn
    and writes no cell of its array. *)
Theorem parseIecVars_fields {H : Md5} (locatedVars : list string)
    (varName varType : cbuf) (md5_state : md5_state_s)
    (ret : Z) (rest : list string) (varName' varType' : cbuf)
    (md5_state' : md5_state_s) :
  parseIecVars locatedVars varName varType md5_state
  = Some (ret, rest, varName', varType', md5_state') ->
  ret = 1%Z ->
  exists (line : string) (pre : cbuf) (ty nm : list ascii) (post : cbuf),
    locatedVars = line :: rest
    /\ strncpy line 1024
       = (pre ++ Some "("%char :: buf_of_chars ty
              ++ Some ","%char :: buf_of_chars nm
              ++ Some ","%char :: post)%list
    /\ ~ In (Some "("%char) pre
    /\ ~ In ","%char ty /\ ~ In ","%char nm
    /\ (ty = [] -> varType' = varType)
    /\ (ty <> [] ->
        cstring varType' = Some (string_of_list_ascii ty)
        /\ string_of_list_ascii ty <> EmptyString)
    /\ (nm = [] -> varName' = varName)
    /\ (nm <> [] ->
        cstring varName' = Some (string_of_list_ascii nm)
        /\ string_of_list_ascii nm <> EmptyString).
Proof.
  intros E Hret. destruct locatedVars as [|line rest0].
  - simpl in E. injection E as <- _ _ _ _. discriminate Hret.
  - simpl in E. inv_bind E as bufs Es. destruct bufs as [n1 t1].
    injection E as _ <- <- <- _.
    destruct (scanLine_spec _ _ _ _ _ Es)
      as (pre & ty & nm & post & Hbuf & Hpre & Hty & Hnm & _ & _
          & Ht0 & Ht1 & Hn0 & Hn1).
    exists line, pre, ty, nm, post.
    repeat split; auto using string_of_list_ascii_nonempty.
Qed.

Lemma parseIecVars_fields_witness :
  exists (varName' varType' : cbuf),
    parseIecVars (H := md5_rfc1321) ["__LOCATED_VAR(BOOL,__IX0_0,I,X,0,0)"]
                 (uninitialized 100) (uninitialized 100) md5_init
    = Some (1%Z, [], varName', varType',
            md5_append md5_init "__LOCATED_VAR(BOOL,__IX0_0,I,X,0,0)")
    /\ exists (line : string) (pre : cbuf) (ty nm : list ascii) (post : cbuf),
         ["__LOCATED_VAR(BOOL,__IX0_0,I,X,0,0)"] = [line]
         /\ strncpy line 1024
            = (pre ++ Some "("%char :: buf_of_chars ty
                   ++ Some ","%char :: buf_of_chars nm
                   ++ Some ","%char :: post)%list
         /\ ~ In (Some "("%char) pre
         /\ ~ In ","%char ty /\ ~ In ","%char nm
         /\ (ty = [] -> varType' = uninitialized 100)
         /\ (ty <> [] ->
             cstring varType' = Some (string_of_list_ascii ty)
             /\ string_of_list_ascii ty <> EmptyString)
         /\ (nm = [] -> varName' = uninitialized 100)
         /\ (nm <> [] ->
             cstring varName' = Some (string_of_list_ascii nm)
             /\ string_of_list_ascii nm <> EmptyString).
Proof.
  eexists. eexists. split.
  - vm_compute. reflexivity.
  - apply (parseIecVars_fields (H := md5_rfc1321)
             ["__LOCATED_VAR(BOOL,__IX0_0,I,X,0,0)"]
             (uninitialized 100) (uninitialized 100) md5_init 1%Z []
             _ _ (md5_append md5_init "__LOCATED_VAR(BOOL,__IX0_0,I,X,0,0)")).
    + vm_compute. reflexivity.
    + reflexivity.
Defined.

(** C7 as the spec words it fails on a line whose two fields are empty: the
    call reports a declaration and has written neither array.  With the
    arrays of [generateBody], which start indeterminate, the declaration
    reported has no name and no type. *)
Lemma parseIecVars_empty_fields :
  parseIecVars (H := md5_rfc1321) ["__LOCATED_VAR(,,I,X,0,0)"]
               (uninitialized 100) (uninitialized 100) md5_init
  = Some (1%Z, [], uninitialized 100, uninitialized 100,
          md5_append md5_init "__LOCATED_VAR(,,I,X,0,0)")
  /\ ~ (exists nm : string,
          cstring (uninitialized 100) = Some nm /\ nm <> EmptyString).
Proof.
  split; [vm_compute; reflexivity|].
  intros (nm & E & _). discriminate E.
Qed.

(** ** The running checksum *)

Lemma concat_cons (x : string) (l : list string) :
  String.concat "" (x :: l) = x ++ String.concat "" l.
Proof.
  destruct l; simpl; [|reflexivity].
  induction x; simpl; congruence.
Qed.

Lemma append_assoc (a b c : string) : (a ++ b) ++ c = a ++ (b ++ c).
Proof.
  induction a; simpl; congruence.
Qed.

Lemma append_empty_r (a : string) : a ++ "" = a.
Proof.
  induction a; simpl; congruence.
Qed.

#[export] Instance md5_rfc1321_streaming : Md5Streaming md5_rfc1321.
Proof.
  split; simpl; intros.
  - apply append_assoc.
  - apply append_empty_r.
Qed.

Section RunningChecksum.

Context {H : Md5}.

(** The loop of [generateBody] is the iteration of [parseIecVars]. *)
Lemma readVars_parseIecVars (locatedVars : list string)
    (iecVar_name iecVar_type : cbuf) (md5_state : md5_state_s) :
  readVars locatedVars iecVar_name iecVar_type md5_state
  = ('(ret, rest, iecVar_name', iecVar_type', md5_state') <-
       parseIecVars locatedVars iecVar_name iecVar_type md5_state ;;
     if (ret =? 0)%Z then Some ([], "", md5_state')
     else
       nm <- cstring iecVar_name' ;;
       ty <- cstring iecVar_type' ;;
       '(p1, p2) <- findPositions iecVar_name' ;;
       '(vars, cout, md5_end) <-
          readVars rest iecVar_name' iecVar_type' md5_state' ;;
       Some (mkIecVar nm ty p1 p2 :: vars,
             ("varName: " ++ nm ++ String TAB "varType: " ++ ty ++ endl)
             ++ cout, md5_end)).
Proof.
  destruct locatedVars as [|line rest]; [reflexivity|].
  simpl. destruct (scanLine line iecVar_name iecVar_type) as [[n t]|];
    reflexivity.
Qed.

Lemma readVars_md5 (locatedVars : list string) :
  forall (n t : cbuf) (st : md5_state_s) vars shown st',
    readVars locatedVars n t st = Some (vars, shown, st') ->
    st' = fold_left md5_append locatedVars st.
Proof.
  induction locatedVars as [|line rest IH]; intros n t st vars shown st' E.
  - simpl in E. now injection E as _ _ <-.
  - simpl in E. inv_bind E as bufs Es. destruct bufs as [n1 t1].
    inv_bind E as nm En. inv_bind E as ty Et.
    inv_bind E as ps Ep. destruct ps as [p1 p2].
    inv_bind E as r Er. destruct r as [[vars1 shown1] st1].
    injection E as _ _ <-. simpl. eapply IH; eauto.
Qed.

Context {L : Md5Streaming H}.

Lemma fold_md5_append (l : list string) :
  forall st : md5_state_s,
    fold_left md5_append l st = md5_append st (String.concat "" l).
Proof.
  induction l as [|x l IH]; intros st.
  - simpl. now rewrite md5_append_empty.
  - rewrite concat_cons. simpl. rewrite IH. apply md5_append_app.
Qed.

Lemma raw_lines_concat (content : string) :
  String.concat "" (raw_lines content) = content.
Proof.
  induction content as [|c r IH]; [reflexivity|].
  simpl. destruct (c =? LF)%char.
  - rewrite concat_cons. simpl. now rewrite IH.
  - destruct (raw_lines r) as [|l ls].
    + simpl in *. now rewrite <- IH.
    + rewrite concat_cons in *. simpl. now rewrite IH.
Qed.

(** C3, as amended: when the run is defined, the digest it finalizes is the
    digest of the concatenation, in read order, of the lines as [getline]
    delivers them, that is without their line feeds. *)
Theorem checksum_of_lines_without_line_feeds
    (locatedVars : string) (r : BodyResult) :
  generateBody locatedVars = Some r ->
  digest r = digestOf (String.concat "" (split_lines locatedVars)).
Proof.
  unfold generateBody, digestOf. intros E.
  inv_bind E as r1 E1. destruct r1 as [[all_vars cout1] md5_state].
  inv_bind E as r2 E2. destruct r2 as [cout2 statements].
  inv_bind E as r3 E3. destruct r3 as [groups all_vars'].
  inv_bind E as table E4. injection E as <-. simpl.
  apply readVars_md5 in E1. rewrite E1. now rewrite fold_md5_append.
Qed.

End RunningChecksum.

Lemma checksum_of_lines_without_line_feeds_witness :
  exists r : BodyResult,
    generateBody (H := md5_rfc1321)
      ("__LOCATED_VAR(BOOL,__IX0_0,I,X,0,0)" ++ endl
       ++ "__LOCATED_VAR(BOOL,__IX0_1,I,X,0,1)" ++ endl) = Some r
    /\ digest r
       = digestOf (String.concat ""
           (split_lines ("__LOCATED_VAR(BOOL,__IX0_0,I,X,0,0)" ++ endl
                         ++ "__LOCATED_VAR(BOOL,__IX0_1,I,X,0,1)" ++ endl))).
Proof.
  eexists. split.
  - vm_compute. reflexivity.
  - apply (checksum_of_lines_without_line_feeds (H := md5_rfc1321)).
    vm_compute. reflexivity.
Defined.

(** C3 as the spec words it fails on two declarations of the shape the
    compiler writes: the digest of the run is the MD5 digest of the two
    lines without their line feeds, which is not the digest of the two raw
    lines. *)
Lemma checksum_is_not_of_raw_lines :
  exists r : BodyResult,
    generateBody (H := md5_rfc1321)
      ("__LOCATED_VAR(BOOL,__IX0_0,I,X,0,0)" ++ endl
       ++ "__LOCATED_VAR(BOOL,__IX0_1,I,X,0,1)" ++ endl) = Some r
    /\ raw_lines ("__LOCATED_VAR(BOOL,__IX0_0,I,X,0,0)" ++ endl
                  ++ "__LOCATED_VAR(BOOL,__IX0_1,I,X,0,1)" ++ endl)
       = ["__LOCATED_VAR(BOOL,__IX0_0,I,X,0,0)" ++ endl;
          "__LOCATED_VAR(BOOL,__IX0_1,I,X,0,1)" ++ endl]
    /\ digest r
       = [197; 170; 204; 249; 46; 122; 187; 153;
          178; 5; 112; 167; 160; 3; 64; 241]%Z
    /\ digestOf (H := md5_rfc1321)
         (String.concat ""
            (raw_lines ("__LOCATED_VAR(BOOL,__IX0_0,I,X,0,0)" ++ endl
                        ++ "__LOCATED_VAR(BOOL,__IX0_1,I,X,0,1)" ++ endl)))
       = [112; 94; 200; 64; 187; 185; 244; 142;
          4; 67; 153; 182; 26; 85; 168; 109]%Z
    /\ digest r
       <> digestOf (H := md5_rfc1321)
            (String.concat ""
               (raw_lines ("__LOCATED_VAR(BOOL,__IX0_0,I,X,0,0)" ++ endl
                           ++ "__LOCATED_VAR(BOOL,__IX0_1,I,X,0,1)" ++ endl))).
Proof.
  eexists. split; [vm_compute; reflexivity|].
  repeat split; try (vm_compute; reflexivity).
  vm_compute. discriminate.
Qed.

(** The two lines the spec writes in its scenario have no second comma: the
    scan for it leaves the line array, and the run is undefined from the
    first line on. *)
Lemma scenario_lines_are_not_scanned (H : Md5) :
  generateBody ("(BOOL,%IX0.0)" ++ endl ++ "(BOOL,%IX0.1)" ++ endl) = None.
Proof.
  vm_compute. reflexivity.
Qed.

(** The test vectors of RFC 1321 for the empty text and for [abc]. *)
Lemma md5_test_vectors :
  digestOf (H := md5_rfc1321) ""
  = [212; 29; 140; 217; 143; 0; 178; 4;
     233; 128; 9; 152; 236; 248; 66; 126]%Z
  /\ digestOf (H := md5_rfc1321) "abc"
     = [144; 1; 80; 152; 60; 210; 79; 176;
        214; 150; 63; 125; 40; 225; 127; 114]%Z.
Proof.
  split; vm_compute; reflexivity.
Qed.

(** ** The minor index from 8 on *)

(** C6: a bit-addressed declaration with minor index 8.  The pass of
    [glueVar] writes its message and its statement and goes on; the
    grouping pass then stores the name in slot 8 of an array of 8 slots,
    and the run is undefined from there. *)
Theorem minor_index_8_of_a_bit_declaration (H : Md5) :
  readVars (split_lines ("__LOCATED_VAR(BOOL,__IX0_8,I,X,0,8)" ++ endl))
           (uninitialized 100) (uninitialized 100) md5_init
  = Some ([mkIecVar "__IX0_8" "BOOL" 0 8],
          "varName: __IX0_8" ++ String TAB "varType: BOOL" ++ endl,
          md5_append md5_init "__LOCATED_VAR(BOOL,__IX0_8,I,X,0,8)")
  /\ glueAll [mkIecVar "__IX0_8" "BOOL" 0 8]
     = Some ("***Invalid addressing on located variable__IX0_8***" ++ endl,
             String TAB "bool_input[0][8] = __IX0_8;" ++ endl)
  /\ slot_store emptySlots 8 "__IX0_8" = None
  /\ generateBoolGroups [mkIecVar "__IX0_8" "BOOL" 0 8] = None
  /\ generateBody ("__LOCATED_VAR(BOOL,__IX0_8,I,X,0,8)" ++ endl) = None.
Proof.
  repeat split; vm_compute; reflexivity.
Qed.

(** ** The group maps *)

Lemma map_find_set (k k' : N) (a : slots) (m : boolMap) :
  map_find k (map_set k' a m) = if (k =? k')%N then Some a else map_find k m.
Proof.
  induction m as [|[k0 a0] m IH]; simpl.
  - destruct (k =? k')%N; reflexivity.
  - destruct (N.ltb_spec k' k0) as [Hlt|Hge]; simpl.
    + destruct (N.eqb_spec k k'); reflexivity.
    + destruct (N.eqb_spec k' k0) as [->|Hne]; simpl.
      * destruct (N.eqb_spec k k0); reflexivity.
      * rewrite IH. destruct (N.eqb_spec k k') as [->|Hkk']; [|reflexivity].
        destruct (N.eqb_spec k' k0); [contradiction|reflexivity].
Qed.

Lemma map_find_In (k : N) (m : boolMap) (a : slots) :
  map_find k m = Some a -> In (k, a) m.
Proof.
  induction m as [|[k0 a0] m IH]; simpl; [discriminate|].
  destruct (N.eqb_spec k k0) as [->|_].
  - intros [= ->]. now left.
  - intros E. right. auto.
Qed.

Lemma map_find_keys (k : N) (m : boolMap) :
  map_find k m <> None <-> In k (keys m).
Proof.
  induction m as [|[k0 a0] m IH]; simpl; [tauto|].
  destruct (N.eqb_spec k k0) as [->|Hne].
  - split; [now left | discriminate].
  - rewrite IH. split; [now right | intros [E|E]; [congruence | exact E]].
Qed.

Lemma map_set_set (k : N) (a b : slots) (m : boolMap) :
  map_set k b (map_set k a m) = map_set k b m.
Proof.
  induction m as [|[k0 a0] m IH]; simpl.
  - now rewrite N.ltb_irrefl, N.eqb_refl.
  - destruct (N.ltb_spec k k0) as [Hlt|Hge]; simpl.
    + now rewrite N.ltb_irrefl, N.eqb_refl.
    + destruct (N.eqb_spec k k0) as [->|Hne]; simpl.
      * now rewrite N.ltb_irrefl, N.eqb_refl.
      * destruct (N.ltb_spec k k0); [lia|].
        destruct (N.eqb_spec k k0); [contradiction|]. now rewrite IH.
Qed.

Lemma map_find_below (k k0 : N) (a0 : slots) (m : boolMap) :
  sortedMap ((k0, a0) :: m) -> (k < k0)%N ->
  map_find k ((k0, a0) :: m) = None.
Proof.
  unfold sortedMap, keys. simpl. intros Hm Hlt.
  apply StronglySorted_inv in Hm as [_ H0]. rewrite Forall_forall in H0.
  destruct (N.eqb_spec k k0); [lia|].
  destruct (map_find k m) eqn:E; [|reflexivity].
  assert (Hin : In k (keys m)) by (apply map_find_keys; congruence).
  specialize (H0 _ Hin). lia.
Qed.

Lemma map_set_length (k : N) (a : slots) (m : boolMap) :
  sortedMap m ->
  List.length (map_set k a m)
  = match map_find k m with
    | Some _ => List.length m
    | None => S (List.length m)
    end.
Proof.
  induction m as [|[k0 a0] m IH]; intros Hm; [reflexivity|].
  cbn [map_set].
  destruct (N.ltb_spec k k0) as [Hlt|Hge].
  - now rewrite (map_find_below _ _ _ _ Hm Hlt).
  - cbn [map_find]. destruct (N.eqb_spec k k0) as [->|Hne]; [reflexivity|].
    cbn [List.length]. rewrite IH.
    + destruct (map_find k m); reflexivity.
    + unfold sortedMap, keys in *. simpl in Hm.
      now apply StronglySorted_inv in Hm.
Qed.

Lemma map_set_keys (k k' : N) (a : slots) (m : boolMap) :
  In k' (keys (map_set k a m)) <-> k' = k \/ In k' (keys m).
Proof.
  rewrite <- !map_find_keys, map_find_set.
  destruct (N.eqb_spec k' k) as [->|Hne].
  - split; [now left | discriminate].
  - split; [now right | intros [E|E]; [contradiction | exact E]].
Qed.

Lemma map_set_Forall (P : N * slots -> Prop) (k : N) (a : slots) (m : boolMap) :
  Forall P m -> P (k, a) -> Forall P (map_set k a m).
Proof.
  intros Hm Ha. induction Hm as [|[k0 a0] m H0 Hm IH]; simpl.
  - now constructor.
  - destruct (k <? k0)%N; [now repeat constructor|].
    destruct (k =? k0)%N; constructor; auto.
Qed.

Lemma map_set_sorted (k : N) (a : slots) (m : boolMap) :
  sortedMap m -> sortedMap (map_set k a m).
Proof.
  unfold sortedMap, keys. intros Hm.
  induction m as [|[k0 a0] m IH]; simpl.
  - repeat constructor.
  - apply StronglySorted_inv in Hm as [Hm H0]. simpl in H0.
    destruct (N.ltb_spec k k0) as [Hlt|Hge]; simpl.
    + constructor; [constructor; assumption|].
      constructor; [exact Hlt|].
      rewrite Forall_forall in *. intros x Hx. specialize (H0 x Hx). lia.
    + destruct (N.eqb_spec k k0) as [->|Hne]; simpl.
      * now constructor.
      * constructor; [now apply IH|].
        rewrite Forall_forall in *. intros x Hx.
        apply (map_set_keys k x a m) in Hx as [->|Hx]; [lia | auto].
Qed.

(** Two maps in key order with the same keys have the same key sequence. *)
Lemma sorted_keys_unique (l1 : list N) :
  forall l2 : list N,
    StronglySorted N.lt l1 -> StronglySorted N.lt l2 ->
    (forall x, In x l1 <-> In x l2) -> l1 = l2.
Proof.
  induction l1 as [|a l1 IH]; intros l2 H1 H2 Hin.
  - destruct l2 as [|b l2]; [reflexivity|].
    destruct (proj2 (Hin b) (or_introl eq_refl)).
  - destruct l2 as [|b l2]; [destruct (proj1 (Hin a) (or_introl eq_refl))|].
    apply StronglySorted_inv in H1 as [H1 Ha].
    apply StronglySorted_inv in H2 as [H2 Hb].
    rewrite Forall_forall in Ha, Hb.
    assert (a = b) as ->.
    { destruct (proj1 (Hin a) (or_introl eq_refl)) as [E|E]; [auto|].
      destruct (proj2 (Hin b) (or_introl eq_refl)) as [E'|E']; [auto|].
      specialize (Ha _ E'). specialize (Hb _ E). lia. }
    f_equal. apply IH; auto.
    intros x. split; intros Hx.
    + destruct (proj1 (Hin x) (or_intror Hx)) as [<-|E]; [|exact E].
      specialize (Ha _ Hx). lia.
    + destruct (proj2 (Hin x) (or_intror Hx)) as [<-|E]; [|exact E].
      specialize (Hb _ Hx). lia.
Qed.

Lemma set_nth_length (a : slots) (i : nat) (s : string) :
  List.length (set_nth a i s) = List.length a.
Proof.
  revert i; induction a as [|x a IH]; intros [|i]; simpl; auto.
Qed.

Lemma set_nth_same (a : slots) (i : nat) (s : string) :
  (i < List.length a)%nat -> nth_error (set_nth a i s) i = Some s.
Proof.
  revert i; induction a as [|x a IH]; intros [|i]; simpl; intros Hi;
    try lia; auto. apply IH. lia.
Qed.

Lemma set_nth_other (a : slots) (i j : nat) (s : string) :
  i <> j -> nth_error (set_nth a i s) j = nth_error a j.
Proof.
  revert i j; induction a as [|x a IH]; intros [|i] [|j]; simpl; intros Hij;
    auto; try congruence.
Qed.

Lemma set_nth_nonEmpty (k : N) (a : slots) (i : nat) (s : string) :
  (i < List.length a)%nat -> s <> EmptyString ->
  nonEmptyGroup (k, set_nth a i s) = true.
Proof.
  unfold nonEmptyGroup. simpl. intros Hi Hs.
  apply existsb_exists. exists s. split.
  - eapply nth_error_In. now apply set_nth_same.
  - destruct (String.eqb_spec s ""); [contradiction|reflexivity].
Qed.

(** ** The three maps *)

Lemma container_eqb_spec (c d : Container) : reflect (c = d) (container_eqb c d).
Proof.
  destruct c, d; simpl; constructor; congruence.
Qed.

Lemma deref_assign (c c' : Container) (m : boolMap) (st : Containers) :
  deref c (assign c' m st) = if container_eqb c' c then m else deref c st.
Proof.
  destruct c, c'; reflexivity.
Qed.

Lemma groupCount_assign (c : Container) (m : boolMap) (st : Containers) :
  (groupCount (assign c m st) + List.length (deref c st)
   = groupCount st + List.length m)%nat.
Proof.
  destruct c; unfold groupCount; simpl; lia.
Qed.

(** ** Reading the flags *)

Lemma str_at_cons (c : ascii) (s : string) (i : nat) :
  str_at (String c s) (S i) = str_at s i.
Proof.
  reflexivity.
Qed.

Lemma str_at_defined (s : string) :
  forall i : nat, (i <= String.length s)%nat -> str_at s i <> None.
Proof.
  induction s as [|c s IH]; intros [|i] Hi; simpl in Hi.
  - discriminate.
  - lia.
  - discriminate.
  - rewrite str_at_cons. apply IH. lia.
Qed.

Lemma addressable_length (v : IecVar) :
  addressable v = true -> (3 <= String.length (name v))%nat.
Proof.
  unfold addressable. intros E. apply andb_true_iff in E as [E _].
  now apply Nat.leb_le in E.
Qed.

Lemma addressable_sizeFlag (v : IecVar) :
  addressable v = true -> str_at (name v) 3 = Some (sizeFlagOf v).
Proof.
  intros E. apply addressable_length in E.
  unfold sizeFlagOf. destruct (str_at (name v) 3) eqn:E3; [reflexivity|].
  now apply str_at_defined in E3.
Qed.

Lemma addressable_directionFlag (v : IecVar) :
  addressable v = true -> str_at (name v) 2 = Some (directionFlagOf v).
Proof.
  intros E. apply addressable_length in E.
  unfold directionFlagOf. destruct (str_at (name v) 2) eqn:E2; [reflexivity|].
  apply str_at_defined in E2; [contradiction | lia].
Qed.

Lemma addressable_bit (v : IecVar) :
  addressable v = true -> bitAddressed v = true -> (pos2 v < 8)%N.
Proof.
  unfold addressable. intros E Hb. rewrite Hb in E.
  apply andb_true_iff in E as [_ E]. now apply N.ltb_lt.
Qed.

Lemma bitAddressed_name (v : IecVar) :
  bitAddressed v = true -> name v <> EmptyString.
Proof.
  unfold bitAddressed, sizeFlagOf. intros E Hn. rewrite Hn in E.
  discriminate E.
Qed.

(** ** The grouping loop *)

Lemma map_store_defined (m : boolMap) (k i : N) (s : string) :
  (i < 8)%N ->
  map_store m k i s
  = Some (map_set k (set_nth (map_at k m) (N.to_nat i) s) m).
Proof.
  intros Hi. unfold map_store, slot_store.
  destruct (N.ltb_spec i 8); [reflexivity | lia].
Qed.

Lemma groupLoop_cons_other (v : IecVar) (rest : list IecVar) (st : Containers) :
  addressable v = true -> bitAddressed v = false ->
  groupLoop (v :: rest) st
  = ('(rest', st') <- groupLoop rest st ;; Some (v :: rest', st')).
Proof.
  intros Ha Hb. cbn [groupLoop].
  rewrite (addressable_sizeFlag _ Ha). cbn [bind].
  unfold bitAddressed in Hb. now rewrite Hb.
Qed.

Lemma groupLoop_cons_bit (v : IecVar) (rest : list IecVar) (st : Containers) :
  addressable v = true -> bitAddressed v = true ->
  groupLoop (v :: rest) st
  = ('(rest', st') <- groupLoop rest (record v st) ;;
     Some (((if hasGroup st (containerOf (directionFlagOf v)) (pos1 v)
             then [] else [groupEntry v]) ++ rest')%list, st')).
Proof.
  intros Ha Hb. cbn [groupLoop].
  rewrite (addressable_sizeFlag _ Ha). cbn [bind].
  pose proof (addressable_bit _ Ha Hb) as Hp2.
  unfold bitAddressed in Hb. rewrite Hb. cbn [negb].
  rewrite (addressable_directionFlag _ Ha). cbn [bind].
  unfold hasGroup, record.
  set (c := containerOf (directionFlagOf v)).
  set (m := deref c st).
  destruct (map_find (pos1 v) m) as [a|] eqn:Ef.
  - rewrite (map_store_defined _ _ _ _ Hp2). cbn [bind].
    destruct (groupLoop rest _) as [[rest' st']|]; reflexivity.
  - rewrite (map_store_defined _ _ _ _ Hp2). cbn [bind].
    unfold map_at. rewrite map_find_set, N.eqb_refl, Ef, map_set_set.
    reflexivity.
Qed.

Lemma hasGroup_record (v : IecVar) (st : Containers) (c : Container) (k : N) :
  hasGroup (record v st) c k
  = hasGroup st c k
    || (container_eqb (containerOf (directionFlagOf v)) c
        && (pos1 v =? k)%N).
Proof.
  unfold hasGroup, record. rewrite deref_assign.
  destruct (container_eqb_spec (containerOf (directionFlagOf v)) c) as [<-|_].
  - rewrite map_find_set, (N.eqb_sym (pos1 v) k).
    destruct (k =? pos1 v)%N; simpl.
    + now rewrite orb_true_r.
    + now rewrite orb_false_r.
  - simpl. now rewrite orb_false_r.
Qed.

Lemma existsb_snoc {A : Type} (f : A -> bool) (l : list A) (a : A) :
  existsb f (l ++ [a]) = existsb f l || f a.
Proof.
  rewrite existsb_app. simpl. now rewrite orb_false_r.
Qed.

Create HintDb glue discriminated.

Lemma tracks_nil : tracks [] noGroups.
Proof.
  intros [] k; reflexivity.
Qed.

#[local] Hint Resolve tracks_nil : glue.

Lemma tracks_step (earlier : list IecVar) (st : Containers) (v : IecVar) :
  tracks earlier st -> tracks (earlier ++ [v]) (recordIfBit st v).
Proof.
  intros Ht c k. rewrite existsb_snoc. unfold recordIfBit, inGroup at 2.
  destruct (bitAddressed v); simpl.
  - rewrite hasGroup_record. now rewrite Ht.
  - rewrite orb_false_r. apply Ht.
Qed.

(** On addressable declarations the loop is defined: it leaves the list
    [aggregated] describes and the maps [recorded] describes. *)
Lemma groupLoop_spec (vars : list IecVar) :
  forall (st : Containers) (earlier : list IecVar),
    Forall (fun v => addressable v = true) vars ->
    tracks earlier st ->
    groupLoop vars st = Some (aggregated earlier vars, recorded vars st).
Proof.
  induction vars as [|v rest IH]; intros st earlier Hall Ht; [reflexivity|].
  inversion Hall as [|? ? Hv Hrest]; subst.
  pose proof (tracks_step _ _ v Ht) as Ht'.
  cbn [aggregated recorded fold_left]. fold (recorded rest (recordIfBit st v)).
  unfold recordIfBit in *.
  destruct (bitAddressed v) eqn:Hb; cbn [negb].
  - rewrite (groupLoop_cons_bit _ _ _ Hv Hb).
    rewrite (IH _ _ Hrest Ht'). cbn [bind].
    rewrite (Ht (containerOf (directionFlagOf v)) (pos1 v)). reflexivity.
  - rewrite (groupLoop_cons_other _ _ _ Hv Hb).
    rewrite (IH _ _ Hrest Ht'). reflexivity.
Qed.

Lemma generateBoolGroups_spec (vars : list IecVar) :
  Forall (fun v => addressable v = true) vars ->
  generateBoolGroups vars
  = Some (renderContainers (recorded vars noGroups), aggregated [] vars).
Proof.
  intros Hall. unfold generateBoolGroups.
  now rewrite (groupLoop_spec _ _ _ Hall tracks_nil).
Qed.

Lemma recorded_app (l1 l2 : list IecVar) (st : Containers) :
  recorded (l1 ++ l2) st = recorded l2 (recorded l1 st).
Proof.
  apply fold_left_app.
Qed.

Lemma tracks_recorded (vars : list IecVar) :
  forall (earlier : list IecVar) (st : Containers),
    tracks earlier st -> tracks (earlier ++ vars) (recorded vars st).
Proof.
  induction vars as [|v rest IH]; intros earlier st Ht.
  - now rewrite app_nil_r.
  - change (v :: rest) with ([v] ++ rest)%list. rewrite app_assoc.
    apply IH. now apply tracks_step.
Qed.

(** *** Invariants of the maps *)

Lemma allSorted_nil : allSorted noGroups.
Proof.
  intros []; constructor.
Qed.

#[local] Hint Resolve allSorted_nil : glue.

Lemma allSorted_step (st : Containers) (v : IecVar) :
  allSorted st -> allSorted (recordIfBit st v).
Proof.
  intros Hs c. unfold recordIfBit. destruct (bitAddressed v); [|apply Hs].
  unfold record. rewrite deref_assign.
  destruct (container_eqb _ c); [|apply Hs].
  apply map_set_sorted, Hs.
Qed.

Lemma allSorted_recorded (vars : list IecVar) :
  forall st : Containers, allSorted st -> allSorted (recorded vars st).
Proof.
  induction vars as [|v rest IH]; intros st Hs; [exact Hs|].
  apply IH. now apply allSorted_step.
Qed.

Lemma wellFormed_nil : wellFormed noGroups.
Proof.
  intros []; constructor.
Qed.

#[local] Hint Resolve wellFormed_nil : glue.

Lemma map_at_length (k : N) (m : boolMap) :
  Forall (fun g => List.length (snd g) = 8%nat /\ nonEmptyGroup g = true) m ->
  List.length (map_at k m) = 8%nat.
Proof.
  intros Hm. unfold map_at. destruct (map_find k m) as [a|] eqn:E.
  - apply map_find_In in E. rewrite Forall_forall in Hm.
    now destruct (Hm _ E).
  - reflexivity.
Qed.

Lemma wellFormed_step (st : Containers) (v : IecVar) :
  addressable v = true -> wellFormed st -> wellFormed (recordIfBit st v).
Proof.
  intros Ha Hw c. unfold recordIfBit.
  destruct (bitAddressed v) eqn:Hb; [|apply Hw].
  unfold record. rewrite deref_assign.
  destruct (container_eqb _ c); [|apply Hw].
  pose proof (addressable_bit _ Ha Hb) as Hp2.
  pose proof (map_at_length (pos1 v) _
                (Hw (containerOf (directionFlagOf v)))) as Hlen.
  apply map_set_Forall; [apply Hw|]. split.
  - simpl. now rewrite set_nth_length.
  - apply set_nth_nonEmpty; [lia | now apply bitAddressed_name].
Qed.

Lemma wellFormed_recorded (vars : list IecVar) :
  forall st : Containers,
    Forall (fun v => addressable v = true) vars ->
    wellFormed st -> wellFormed (recorded vars st).
Proof.
  induction vars as [|v rest IH]; intros st Hall Hw; [exact Hw|].
  inversion Hall; subst. apply IH; auto. now apply wellFormed_step.
Qed.

Lemma filter_all {A : Type} (f : A -> bool) (l : list A) :
  Forall (fun a => f a = true) l -> filter f l = l.
Proof.
  induction 1 as [|a l Ha _ IH]; simpl; [reflexivity|].
  now rewrite Ha, IH.
Qed.

Lemma wellFormed_nonEmptyGroups (st : Containers) :
  wellFormed st -> nonEmptyGroups st = groupCount st.
Proof.
  intros Hw. unfold nonEmptyGroups, groupCount.
  rewrite (filter_all _ (inputs st)), (filter_all _ (outputs st)),
    (filter_all _ (memory st)); [reflexivity| | |].
  - eapply Forall_impl; [|apply (Hw Memory)]. now intros g [_ H].
  - eapply Forall_impl; [|apply (Hw Outputs)]. now intros g [_ H].
  - eapply Forall_impl; [|apply (Hw Inputs)]. now intros g [_ H].
Qed.

Lemma groupCount_record (v : IecVar) (st : Containers) :
  allSorted st ->
  groupCount (record v st)
  = if hasGroup st (containerOf (directionFlagOf v)) (pos1 v)
    then groupCount st else S (groupCount st).
Proof.
  intros Hs. unfold record, hasGroup.
  set (c := containerOf (directionFlagOf v)).
  pose proof (groupCount_assign c
    (map_set (pos1 v)
       (set_nth (map_at (pos1 v) (deref c st)) (N.to_nat (pos2 v)) (name v))
       (deref c st)) st) as Hc.
  rewrite (map_set_length _ _ _ (Hs c)) in Hc.
  destruct (map_find (pos1 v) (deref c st)); lia.
Qed.

(** The list left has one entry for each declaration that is not grouped and
    one for each group created. *)
Lemma aggregated_length (vars : list IecVar) :
  forall (earlier : list IecVar) (st : Containers),
    tracks earlier st -> allSorted st ->
    (List.length (aggregated earlier vars) + groupCount st
     = List.length (ungrouped vars) + groupCount (recorded vars st))%nat.
Proof.
  induction vars as [|v rest IH]; intros earlier st Ht Hs; [reflexivity|].
  pose proof (tracks_step _ _ v Ht) as Ht'.
  pose proof (allSorted_step _ v Hs) as Hs'.
  specialize (IH _ _ Ht' Hs').
  cbn [aggregated ungrouped filter recorded fold_left].
  fold (recorded rest (recordIfBit st v)). fold (ungrouped rest).
  rewrite length_app. unfold recordIfBit in *.
  destruct (bitAddressed v) eqn:Hb; cbn [negb].
  - rewrite (groupCount_record _ _ Hs) in IH.
    change (existsb (sameGroup v) earlier)
      with (existsb (inGroup (containerOf (directionFlagOf v)) (pos1 v))
                    earlier).
    rewrite <- (Ht (containerOf (directionFlagOf v)) (pos1 v)).
    destruct (hasGroup st _ _); simpl; lia.
  - simpl. lia.
Qed.

(** ** The list the aggregator leaves *)


(** The list of the witness after the aggregator. *)
Lemma aggregated_example :
  aggregated []
    [mkIecVar "__IX0_0" "BOOL" 0 0; mkIecVar "__IW1" "INT" 1 0;
     mkIecVar "__QX0_3" "BOOL" 0 3; mkIecVar "__IX0_1" "BOOL" 0 1]
  = [mkIecVar "__IG0" "BOOL" 0 0; mkIecVar "__IW1" "INT" 1 0;
     mkIecVar "__QG0" "BOOL" 0 0].
Proof.
  reflexivity.
Qed.





Lemma sameGroup_refl (v : IecVar) : bitAddressed v = true -> sameGroup v v = true.
Proof.
  intros Hb. unfold sameGroup, inGroup. rewrite Hb, N.eqb_refl.
  now destruct (containerOf (directionFlagOf v)).
Qed.

Lemma sameGroup_key (d v w : IecVar) :
  sameGroup d v = true -> sameGroup v w = sameGroup d w.
Proof.
  unfold sameGroup, inGroup. intros E.
  apply andb_true_iff in E as [E E1]. apply andb_true_iff in E as [_ E2].
  apply N.eqb_eq in E1.
  destruct (container_eqb_spec (containerOf (directionFlagOf v))
                               (containerOf (directionFlagOf d)));
    [|discriminate].
  congruence.
Qed.

Lemma aggregated_keeps_group (vars : list IecVar) (d : IecVar) :
  forall earlier : list IecVar,
    In d vars -> bitAddressed d = true ->
    existsb (sameGroup d) earlier = true
    \/ exists w, In w vars /\ sameGroup d w = true
                 /\ In (groupEntry w) (aggregated earlier vars).
Proof.
  induction vars as [|v rest IH]; intros earlier Hin Hb; [easy|].
  cbn [aggregated].
  assert (Hfirst : sameGroup d v = true ->
            existsb (sameGroup d) earlier = true
            \/ exists w, In w (v :: rest) /\ sameGroup d w = true
                 /\ In (groupEntry w)
                      ((if negb (bitAddressed v) then [v]
                        else if existsb (sameGroup v) earlier then []
                             else [groupEntry v])
                       ++ aggregated (earlier ++ [v]) rest)).
  { intros Hs.
    assert (Hbv : bitAddressed v = true).
    { unfold sameGroup, inGroup in Hs.
      apply andb_true_iff in Hs as [Hs _].
      now apply andb_true_iff in Hs as [Hs _]. }
    rewrite Hbv. cbn [negb].
    assert (Heq : existsb (sameGroup v) earlier = existsb (sameGroup d) earlier).
    { clear -Hs. induction earlier as [|w l IHl]; [reflexivity|].
      simpl. now rewrite IHl, (sameGroup_key _ _ w Hs). }
    rewrite Heq. destruct (existsb (sameGroup d) earlier); [now left|].
    right. exists v. repeat split; auto; now left. }
  destruct Hin as [->|Hin].
  - apply Hfirst. now apply sameGroup_refl.
  - destruct (IH (earlier ++ [v])%list Hin Hb) as [He|(w & Hw & Hs & Hg)].
    + rewrite existsb_snoc in He. apply orb_true_iff in He as [He|He];
        [now left | now apply Hfirst].
    + right. exists w. repeat split; auto.
      * now right.
      * apply in_or_app. now right.
Qed.

(** ** The rows of the table *)

Lemma glueRow_defined (v : IecVar) :
  str_at (name v) 2 <> None -> str_at (name v) 3 <> None ->
  glueRow v <> None.
Proof.
  unfold glueRow. intros H2 H3.
  destruct (str_at (name v) 2); [|contradiction].
  destruct (str_at (name v) 3); [|contradiction]. discriminate.
Qed.

Lemma glueRow_addressable (v : IecVar) :
  addressable v = true -> glueRow v <> None.
Proof.
  intros Ha. apply glueRow_defined.
  - rewrite (addressable_directionFlag _ Ha). discriminate.
  - rewrite (addressable_sizeFlag _ Ha). discriminate.
Qed.

Lemma glueRow_groupEntry (v : IecVar) : glueRow (groupEntry v) <> None.
Proof.
  apply glueRow_defined; discriminate.
Qed.

Lemma aggregated_rows (vars : list IecVar) :
  forall earlier : list IecVar,
    Forall (fun v => addressable v = true) vars ->
    Forall (fun v => glueRow v <> None) (aggregated earlier vars).
Proof.
  induction vars as [|v rest IH]; intros earlier Hall; [constructor|].
  inversion Hall; subst. cbn [aggregated]. apply Forall_app. split; auto.
  destruct (negb (bitAddressed v)).
  - repeat constructor. now apply glueRow_addressable.
  - destruct (existsb (sameGroup v) earlier); repeat constructor.
    apply glueRow_groupEntry.
Qed.

(** *** The text of a row *)

Lemma fromDirectionFlag_text (d : ascii) :
  fromDirectionFlag d = directionText (containerOf d).
Proof.
  unfold fromDirectionFlag, containerOf.
  destruct (d =? "I")%char; [reflexivity|].
  destruct (d =? "Q")%char; reflexivity.
Qed.

Lemma fromSizeFlag_text (s : ascii) : fromSizeFlag s = sizeClassText s.
Proof.
  unfold fromSizeFlag.
  destruct (Ascii.eqb_spec s "G") as [->|HG]; [reflexivity|].
  destruct (Ascii.eqb_spec s "X") as [->|HX]; [reflexivity|]. cbn [orb].
  destruct (Ascii.eqb_spec s "B") as [->|HB]; [reflexivity|].
  destruct (Ascii.eqb_spec s "W") as [->|HW]; [reflexivity|].
  destruct (Ascii.eqb_spec s "D") as [->|HD]; [reflexivity|].
  destruct s as [[] [] [] [] [] [] [] []]; try reflexivity; congruence.
Qed.

Lemma glueRow_rowText (it : IecVar) (row : string) :
  glueRow it = Some row -> row = rowText it.
Proof.
  unfold glueRow, rowText, directionFlagOf, sizeFlagOf. intros E.
  destruct (str_at (name it) 2) as [d|]; [|discriminate]. cbn [bind] in E.
  destruct (str_at (name it) 3) as [s|]; [|discriminate]. cbn [bind] in E.
  injection E as <-.
  rewrite fromDirectionFlag_text, fromSizeFlag_text. reflexivity.
Qed.

Lemma glueRows_rowText (vars : list IecVar) :
  forall rows : list string,
    glueRows vars = Some rows -> rows = map rowText vars.
Proof.
  unfold glueRows. induction vars as [|v rest IH]; intros rows E.
  - now injection E as <-.
  - cbn [mapM] in E.
    destruct (glueRow v) as [row|] eqn:Er; [|discriminate]. cbn [bind] in E.
    destruct (mapM glueRow rest) as [rs|]; [|discriminate]. cbn [bind] in E.
    injection E as <-. cbn [map].
    now rewrite (glueRow_rowText _ _ Er), (IH rs eq_refl).
Qed.

(** C2: the table has one row for each declaration that is not grouped and
    one for each non-empty group, each row the line of its declaration, and
    the size constant written before the table, [OPLCGLUE_GLUE_SIZE], is
    that number. *)
Theorem table_rows_are_ungrouped_plus_groups (vars : list IecVar) :
  Forall (fun v => addressable v = true) vars ->
  exists (groups : string) (st : Containers) (vars' : list IecVar)
         (rows : list string),
    groupLoop vars noGroups = Some (vars', st)
    /\ generateBoolGroups vars = Some (groups, vars')
    /\ glueRows vars' = Some rows
    /\ rows = map rowText vars'
    /\ List.length rows
       = (List.length (ungrouped vars) + nonEmptyGroups st)%nat
    /\ generateIntegratedGlue vars'
       = Some ("/// The size of the array of glue variables." ++ endl
               ++ "extern std::size_t const OPLCGLUE_GLUE_SIZE("
               ++ dec (N.of_nat (List.length (ungrouped vars)
                                 + nonEmptyGroups st))
               ++ ");" ++ endl
               ++ "/// The packed glue variables." ++ endl
               ++ "extern const GlueVariable oplc_glue_vars[] = {" ++ endl
               ++ String.concat "" rows
               ++ "};" ++ endl ++ endl).
Proof.
  intros Hall.
  destruct (mapM_total _ _ (aggregated_rows vars [] Hall)) as [rows Hrows].
  assert (Hlen : List.length (aggregated [] vars)
                 = (List.length (ungrouped vars)
                    + nonEmptyGroups (recorded vars noGroups))%nat).
  { rewrite (wellFormed_nonEmptyGroups _
               (wellFormed_recorded _ _ Hall wellFormed_nil)).
    pose proof (aggregated_length vars [] noGroups tracks_nil allSorted_nil)
      as H. unfold groupCount at 1 in H. simpl in H. lia. }
  exists (renderContainers (recorded vars noGroups)),
         (recorded vars noGroups), (aggregated [] vars), rows.
  split; [exact (groupLoop_spec _ _ _ Hall tracks_nil)|].
  split; [now apply generateBoolGroups_spec|].
  split; [exact Hrows|].
  split; [now apply glueRows_rowText|]. split.
  - rewrite (mapM_length _ _ _ Hrows). exact Hlen.
  - unfold generateIntegratedGlue, glueRows. rewrite Hrows. cbn [bind].
    rewrite Hlen. unfold integratedGlueText, glueSizeLine.
    now rewrite !append_assoc.
Qed.

Lemma table_rows_are_ungrouped_plus_groups_witness :
  exists (groups : string) (st : Containers) (vars' : list IecVar)
         (rows : list string),
    groupLoop [mkIecVar "__IX0_0" "BOOL" 0 0; mkIecVar "__QB3" "BYTE" 3 0;
               mkIecVar "__IX0_1" "BOOL" 0 1] noGroups = Some (vars', st)
    /\ generateBoolGroups
         [mkIecVar "__IX0_0" "BOOL" 0 0; mkIecVar "__QB3" "BYTE" 3 0;
          mkIecVar "__IX0_1" "BOOL" 0 1] = Some (groups, vars')
    /\ glueRows vars' = Some rows
    /\ rows = map rowText vars'
    /\ List.length rows
       = (List.length
            (ungrouped [mkIecVar "__IX0_0" "BOOL" 0 0;
                        mkIecVar "__QB3" "BYTE" 3 0;
                        mkIecVar "__IX0_1" "BOOL" 0 1])
          + nonEmptyGroups st)%nat
    /\ generateIntegratedGlue vars'
       = Some ("/// The size of the array of glue variables." ++ endl
               ++ "extern std::size_t const OPLCGLUE_GLUE_SIZE("
               ++ dec (N.of_nat
                         (List.length
                            (ungrouped [mkIecVar "__IX0_0" "BOOL" 0 0;
                                        mkIecVar "__QB3" "BYTE" 3 0;
                                        mkIecVar "__IX0_1" "BOOL" 0 1])
                          + nonEmptyGroups st))
               ++ ");" ++ endl
               ++ "/// The packed glue variables." ++ endl
               ++ "extern const GlueVariable oplc_glue_vars[] = {" ++ endl
               ++ String.concat "" rows
               ++ "};" ++ endl ++ endl).
Proof.
  apply (table_rows_are_ungrouped_plus_groups
           [mkIecVar "__IX0_0" "BOOL" 0 0; mkIecVar "__QB3" "BYTE" 3 0;
            mkIecVar "__IX0_1" "BOOL" 0 1]).
  repeat constructor.
Defined.

(** The table of the witness: two rows, and the size constant 2. *)
Lemma table_example :
  (vars' <- option_map snd
              (generateBoolGroups
                 [mkIecVar "__IX0_0" "BOOL" 0 0; mkIecVar "__QB3" "BYTE" 3 0;
                  mkIecVar "__IX0_1" "BOOL" 0 1]) ;;
   generateIntegratedGlue vars')
  = Some ("/// The size of the array of glue variables." ++ endl
          ++ "extern std::size_t const OPLCGLUE_GLUE_SIZE(2);" ++ endl
          ++ "/// The packed glue variables." ++ endl
          ++ "extern const GlueVariable oplc_glue_vars[] = {" ++ endl
          ++ "    { IECLDT_IN, IECLST_BIT, 0, 0, IECVT_BOOL,  __IG0 },"
          ++ endl
          ++ "    { IECLDT_OUT, IECLST_BYTE, 3, 0, IECVT_BYTE,  __QB3 },"
          ++ endl
          ++ "};" ++ endl ++ endl).
Proof.
  reflexivity.
Qed.

(** ** The slots *)

Lemma wellFormed_map_at (st : Containers) (c : Container) (k : N) :
  wellFormed st -> List.length (map_at k (deref c st)) = 8%nat.
Proof.
  intros Hw. apply map_at_length, Hw.
Qed.

Lemma slotOf_record_same (v : IecVar) (st : Containers) :
  wellFormed st -> (pos2 v < 8)%N ->
  slotOf (record v st) (containerOf (directionFlagOf v)) (pos1 v) (pos2 v)
  = Some (name v).
Proof.
  intros Hw Hp. unfold slotOf, record.
  rewrite deref_assign.
  destruct (container_eqb_spec (containerOf (directionFlagOf v))
                               (containerOf (directionFlagOf v)));
    [|contradiction].
  rewrite map_find_set, N.eqb_refl. cbn [bind].
  apply set_nth_same. rewrite (wellFormed_map_at _ _ _ Hw). lia.
Qed.

Lemma slotOf_record_other (v : IecVar) (st : Containers) (c : Container)
    (k i : N) (s : string) :
  slotOf st c k i = Some s ->
  container_eqb (containerOf (directionFlagOf v)) c
  && (pos1 v =? k)%N && (pos2 v =? i)%N = false ->
  slotOf (record v st) c k i = Some s.
Proof.
  unfold slotOf, record. intros Hs Hne. rewrite deref_assign.
  destruct (container_eqb_spec (containerOf (directionFlagOf v)) c)
    as [<-|_]; [|exact Hs].
  rewrite map_find_set, (N.eqb_sym k (pos1 v)).
  destruct (N.eqb_spec (pos1 v) k) as [<-|_]; [|exact Hs].
  simpl in Hne. cbn [bind]. unfold map_at.
  destruct (map_find (pos1 v) _) as [a|]; [|discriminate].
  cbn [bind] in Hs. rewrite set_nth_other; [exact Hs|].
  apply N.eqb_neq in Hne. lia.
Qed.

Lemma slotOf_recorded_kept (vars : list IecVar) (c : Container) (k i : N)
    (s : string) :
  forall st : Containers,
    slotOf st c k i = Some s ->
    existsb (fun w => inGroup c k w && (pos2 w =? i)%N) vars = false ->
    slotOf (recorded vars st) c k i = Some s.
Proof.
  induction vars as [|v rest IH]; intros st Hs Hno; [exact Hs|].
  simpl in Hno. apply orb_false_iff in Hno as [Hv Hrest].
  cbn [recorded fold_left]. apply IH; [|exact Hrest].
  unfold recordIfBit. destruct (bitAddressed v) eqn:Hb; [|exact Hs].
  apply slotOf_record_other; [exact Hs|].
  unfold inGroup in Hv. now rewrite Hb in Hv.
Qed.

(** ** The console *)

Lemma glueVar_shown (varName : string) (p1 p2 : N) :
  str_at varName 2 <> None -> str_at varName 3 <> None ->
  exists statement,
    glueVar varName p1 p2 = Some (invalidAddressing varName p2, statement).
Proof.
  intros H2 H3. unfold glueVar.
  destruct (str_at varName 2) as [d|]; [|contradiction].
  destruct (str_at varName 3) as [s|]; [|contradiction].
  cbn [bind].
  repeat match goal with
         | |- context [if ?b then _ else _] => destruct b
         end; eauto.
Qed.

Lemma glueAll_shown (vars : list IecVar) :
  Forall (fun v => addressable v = true) vars ->
  exists statements,
    glueAll vars
    = Some (String.concat ""
              (map (fun v => invalidAddressing (name v) (pos2 v)) vars),
            statements).
Proof.
  intros Hall. unfold glueAll.
  assert (H : exists outs,
             mapM (fun it => glueVar (name it) (pos1 it) (pos2 it)) vars
             = Some outs
             /\ map fst outs
                = map (fun v => invalidAddressing (name v) (pos2 v)) vars).
  { induction Hall as [|v rest Hv _ (outs & E & Hfst)].
    - now exists [].
    - destruct (glueVar_shown (name v) (pos1 v) (pos2 v)) as [stmt Es].
      + rewrite (addressable_directionFlag _ Hv). discriminate.
      + rewrite (addressable_sizeFlag _ Hv). discriminate.
      + eexists. cbn [mapM]. rewrite Es, E. cbn [bind]. split; [reflexivity|].
        simpl. now rewrite Hfst. }
  destruct H as (outs & -> & <-). cbn [bind]. eauto.
Qed.

Lemma renderSlot_name (s : string) :
  s <> EmptyString -> renderSlot s = s ++ ", ".
Proof.
  destruct s; [contradiction|reflexivity].
Qed.

(** C8: two bit-addressed declarations [d1] and, later, [d2] have the same
    direction, major index and minor index, and no declaration after [d2]
    has them.  After [d1] the slot holds the name of [d1]; after [d2], and
    at the end, it holds the name of [d2], which is what the group constant
    shows in that place.  The console receives the addressing warnings of
    [glueVar] and nothing else. *)
Theorem later_declaration_overwrites_the_slot
    (l1 l2 l3 : list IecVar) (d1 d2 : IecVar) :
  Forall (fun v => addressable v = true)
         (l1 ++ d1 :: l2 ++ d2 :: l3) ->
  bitAddressed d1 = true ->
  sameSlot d1 d2 = true ->
  existsb (sameSlot d2) l3 = false ->
  exists (vars' : list IecVar) (st : Containers) (a : slots)
         (statements : string),
    groupLoop (l1 ++ d1 :: l2 ++ d2 :: l3) noGroups = Some (vars', st)
    /\ generateBoolGroups (l1 ++ d1 :: l2 ++ d2 :: l3)
       = Some (renderContainers st, vars')
    /\ (exists (vars1 : list IecVar) (st1 : Containers),
          groupLoop (l1 ++ [d1]) noGroups = Some (vars1, st1)
          /\ slotOf st1 (containerOf (directionFlagOf d1)) (pos1 d1) (pos2 d1)
             = Some (name d1))
    /\ map_find (pos1 d1) (deref (containerOf (directionFlagOf d1)) st)
       = Some a
    /\ nth_error a (N.to_nat (pos2 d1)) = Some (name d2)
    /\ nth_error (map renderSlot a) (N.to_nat (pos2 d1))
       = Some (name d2 ++ ", ")
    /\ (name d1 <> name d2 ->
        nth_error a (N.to_nat (pos2 d1)) <> Some (name d1))
    /\ glueAll (l1 ++ d1 :: l2 ++ d2 :: l3)
       = Some (String.concat ""
                 (map (fun v => invalidAddressing (name v) (pos2 v))
                      (l1 ++ d1 :: l2 ++ d2 :: l3)),
               statements).
Proof.
  intros Hall Hb1 Hsame Hlast.
  set (vars := (l1 ++ d1 :: l2 ++ d2 :: l3)%list) in *.
  (* The declaration d2 and its key. *)
  unfold sameSlot in Hsame. apply andb_true_iff in Hsame as [Hg Hp2].
  apply N.eqb_eq in Hp2.
  pose proof Hg as Hkey. unfold sameGroup, inGroup in Hkey.
  apply andb_true_iff in Hkey as [Hkey Hp1].
  apply andb_true_iff in Hkey as [Hb2 Hc].
  apply N.eqb_eq in Hp1.
  destruct (container_eqb_spec (containerOf (directionFlagOf d2))
                               (containerOf (directionFlagOf d1)))
    as [Hc'|]; [clear Hc|discriminate].
  (* Addressability of the parts. *)
  pose proof Hall as Hparts. unfold vars in Hparts.
  apply Forall_app in Hparts as [H1 Hparts].
  inversion Hparts as [|? ? Hd1 Hparts']; subst.
  apply Forall_app in Hparts' as [H2 Hparts'].
  inversion Hparts' as [|? ? Hd2 H3]; subst.
  (* The state after d1. *)
  assert (Hafter1 :
            slotOf (recorded (l1 ++ [d1]) noGroups)
                   (containerOf (directionFlagOf d1)) (pos1 d1) (pos2 d1)
            = Some (name d1)).
  { rewrite recorded_app. cbn [recorded fold_left]. unfold recordIfBit.
    rewrite Hb1. apply slotOf_record_same.
    - apply wellFormed_recorded; auto with glue.
    - now apply addressable_bit. }
  (* The state after d2, and at the end. *)
  assert (Hend :
            slotOf (recorded vars noGroups)
                   (containerOf (directionFlagOf d1)) (pos1 d1) (pos2 d1)
            = Some (name d2)).
  { unfold vars.
    replace (l1 ++ d1 :: l2 ++ d2 :: l3)%list
      with ((l1 ++ d1 :: l2) ++ [d2] ++ l3)%list
      by (rewrite <- app_assoc; reflexivity).
    rewrite recorded_app, recorded_app.
    apply slotOf_recorded_kept.
    - cbn [recorded fold_left]. unfold recordIfBit. rewrite Hb2.
      rewrite <- Hc', <- Hp1, <- Hp2. apply slotOf_record_same.
      + apply wellFormed_recorded; auto with glue.
        apply Forall_app. split; auto.
      + now apply addressable_bit.
    - rewrite <- Hlast. rewrite <- Hc', <- Hp1, <- Hp2. reflexivity. }
  destruct (glueAll_shown vars Hall) as [statements Hshown].
  unfold slotOf in Hend.
  destruct (map_find (pos1 d1)
              (deref (containerOf (directionFlagOf d1))
                     (recorded vars noGroups))) as [a|] eqn:Ea;
    [|discriminate].
  cbn [bind] in Hend.
  exists (aggregated [] vars), (recorded vars noGroups), a, statements.
  split; [now apply groupLoop_spec; auto with glue|].
  split; [now apply generateBoolGroups_spec|].
  split.
  { exists (aggregated [] (l1 ++ [d1])), (recorded (l1 ++ [d1]) noGroups).
    split; [|exact Hafter1].
    apply groupLoop_spec; auto with glue.
    apply Forall_app. split; auto. }
  split; [exact Ea|]. split; [exact Hend|].
  split; [|split; [|exact Hshown]].
  - rewrite nth_error_map, Hend. simpl.
    now rewrite (renderSlot_name _ (bitAddressed_name _ Hb2)).
  - intros Hne. rewrite Hend. congruence.
Qed.

Lemma later_declaration_overwrites_the_slot_witness :
  exists (vars' : list IecVar) (st : Containers) (a : slots)
         (statements : string),
    groupLoop ([] ++ mkIecVar "__IX0_1" "BOOL" 0 1
               :: [mkIecVar "__IX0_2" "BOOL" 0 2]
               ++ mkIecVar "__IX0_01" "BOOL" 0 1 :: []) noGroups
    = Some (vars', st)
    /\ generateBoolGroups ([] ++ mkIecVar "__IX0_1" "BOOL" 0 1
                           :: [mkIecVar "__IX0_2" "BOOL" 0 2]
                           ++ mkIecVar "__IX0_01" "BOOL" 0 1 :: [])
       = Some (renderContainers st, vars')
    /\ (exists (vars1 : list IecVar) (st1 : Containers),
          groupLoop ([] ++ [mkIecVar "__IX0_1" "BOOL" 0 1]) noGroups
          = Some (vars1, st1)
          /\ slotOf st1
               (containerOf (directionFlagOf (mkIecVar "__IX0_1" "BOOL" 0 1)))
               (pos1 (mkIecVar "__IX0_1" "BOOL" 0 1))
               (pos2 (mkIecVar "__IX0_1" "BOOL" 0 1))
             = Some (name (mkIecVar "__IX0_1" "BOOL" 0 1)))
    /\ map_find (pos1 (mkIecVar "__IX0_1" "BOOL" 0 1))
         (deref (containerOf (directionFlagOf (mkIecVar "__IX0_1" "BOOL" 0 1)))
                st)
       = Some a
    /\ nth_error a (N.to_nat (pos2 (mkIecVar "__IX0_1" "BOOL" 0 1)))
       = Some (name (mkIecVar "__IX0_01" "BOOL" 0 1))
    /\ nth_error (map renderSlot a)
                 (N.to_nat (pos2 (mkIecVar "__IX0_1" "BOOL" 0 1)))
       = Some (name (mkIecVar "__IX0_01" "BOOL" 0 1) ++ ", ")
    /\ (name (mkIecVar "__IX0_1" "BOOL" 0 1)
        <> name (mkIecVar "__IX0_01" "BOOL" 0 1) ->
        nth_error a (N.to_nat (pos2 (mkIecVar "__IX0_1" "BOOL" 0 1)))
        <> Some (name (mkIecVar "__IX0_1" "BOOL" 0 1)))
    /\ glueAll ([] ++ mkIecVar "__IX0_1" "BOOL" 0 1
                :: [mkIecVar "__IX0_2" "BOOL" 0 2]
                ++ mkIecVar "__IX0_01" "BOOL" 0 1 :: [])
       = Some (String.concat ""
                 (map (fun v => invalidAddressing (name v) (pos2 v))
                      ([] ++ mkIecVar "__IX0_1" "BOOL" 0 1
                       :: [mkIecVar "__IX0_2" "BOOL" 0 2]
                       ++ mkIecVar "__IX0_01" "BOOL" 0 1 :: [])),
               statements).
Proof.
  apply (later_declaration_overwrites_the_slot
           [] [mkIecVar "__IX0_2" "BOOL" 0 2] []
           (mkIecVar "__IX0_1" "BOOL" 0 1) (mkIecVar "__IX0_01" "BOOL" 0 1)).
  - repeat constructor.
  - reflexivity.
  - reflexivity.
  - reflexivity.
Defined.

(** The group constant of the witness: slot 1 shows the later name. *)
Lemma overwritten_slot_example :
  generateBoolGroups
    [mkIecVar "__IX0_1" "BOOL" 0 1; mkIecVar "__IX0_2" "BOOL" 0 2;
     mkIecVar "__IX0_01" "BOOL" 0 1]
  = Some ("GlueBoolGroup ___IG0 { .index=0, .values={ nullptr, __IX0_01, "
          ++ "__IX0_2, nullptr, nullptr, nullptr, nullptr, nullptr, } };"
          ++ endl ++ "GlueBoolGroup* __IG0(&___IG0);" ++ endl,
          [mkIecVar "__IG0" "BOOL" 0 0]).
Proof.
  reflexivity.
Qed.

(** ** Declarations without a case in glueVar *)





Lemma occursIn_app_l (s t u : string) : occursIn s t -> occursIn s (t ++ u).
Proof.
  intros (a & b & ->). exists a, (b ++ u). now rewrite !append_assoc.
Qed.

Lemma occursIn_app_r (s t u : string) : occursIn s t -> occursIn s (u ++ t).
Proof.
  intros (a & b & ->). exists (u ++ a), b. now rewrite !append_assoc.
Qed.

Lemma occursIn_concat (s x : string) (l : list string) :
  In x l -> occursIn s x -> occursIn s (String.concat "" l).
Proof.
  intros Hin Hs. induction l as [|y l IH]; [contradiction|].
  rewrite concat_cons. destruct Hin as [->|Hin].
  - now apply occursIn_app_l.
  - now apply occursIn_app_r, IH.
Qed.






(** The run of the witness: no statement, no console text, two rows. *)
Lemma unmapped_run_example :
  glueAll [mkIecVar "__ID0" "DINT" 0 0; mkIecVar "__MX0_0" "BOOL" 0 0;
           mkIecVar "__MX0_1" "BOOL" 0 1] = Some ("", "")
  /\ (vars' <- option_map snd
                 (generateBoolGroups
                    [mkIecVar "__ID0" "DINT" 0 0;
                     mkIecVar "__MX0_0" "BOOL" 0 0;
                     mkIecVar "__MX0_1" "BOOL" 0 1]) ;;
      glueRows vars')
     = Some ["    { IECLDT_IN, IECLST_DOUBLEWORD, 0, 0, IECVT_DINT,  __ID0 },"
             ++ endl;
             "    { IECLDT_MEM, IECLST_BIT, 0, 0, IECVT_BOOL,  __MG0 },"
             ++ endl].
Proof.
  split; reflexivity.
Qed.

(** The flag combinations named in C9 have no case. *)
Lemma unmapped_examples :
  mapped "I" "D" = false /\ mapped "I" "L" = false
  /\ mapped "Q" "D" = false /\ mapped "Q" "L" = false
  /\ mapped "M" "X" = false /\ mapped "M" "B" = false.
Proof.
  repeat split; reflexivity.
Qed.

(** ** The order of the group constants *)

Lemma existsb_Permutation {A : Type} (f : A -> bool) (l1 l2 : list A) :
  Permutation l1 l2 -> existsb f l1 = existsb f l2.
Proof.
  induction 1 as [|x l l' _ IH|x y l|l l' l'' _ IH1 _ IH2]; simpl.
  - reflexivity.
  - now rewrite IH.
  - destruct (f x), (f y); reflexivity.
  - congruence.
Qed.

Lemma hasGroup_keys (st : Containers) (c : Container) (k : N) :
  hasGroup st c k = true <-> In k (keys (deref c st)).
Proof.
  rewrite <- map_find_keys. unfold hasGroup.
  destruct (map_find k (deref c st)); split; congruence.
Qed.

Lemma recorded_keys_Permutation (vars1 vars2 : list IecVar) (c : Container) :
  Permutation vars1 vars2 ->
  keys (deref c (recorded vars1 noGroups))
  = keys (deref c (recorded vars2 noGroups)).
Proof.
  intros Hp. apply sorted_keys_unique.
  - apply allSorted_recorded, allSorted_nil.
  - apply allSorted_recorded, allSorted_nil.
  - intros k. rewrite <- !hasGroup_keys.
    rewrite (tracks_recorded vars1 [] noGroups tracks_nil c k).
    rewrite (tracks_recorded vars2 [] noGroups tracks_nil c k).
    simpl. now rewrite (existsb_Permutation _ _ _ Hp).
Qed.

(** C10: the group constants are written for the input groups, then the
    output groups, then the memory groups, each in ascending order of the
    major index; and the sequence of major indices of each direction is the
    same for every reordering of the declarations. *)
Theorem group_constants_by_direction_then_index (vars : list IecVar) :
  Forall (fun v => addressable v = true) vars ->
  exists (st : Containers) (vars' : list IecVar),
    groupLoop vars noGroups = Some (vars', st)
    /\ generateBoolGroups vars
       = Some (String.concat "" (map (renderGroup "I") (inputs st))
               ++ String.concat "" (map (renderGroup "Q") (outputs st))
               ++ String.concat "" (map (renderGroup "M") (memory st)),
               vars')
    /\ StronglySorted N.lt (keys (inputs st))
    /\ StronglySorted N.lt (keys (outputs st))
    /\ StronglySorted N.lt (keys (memory st))
    /\ forall vars2 : list IecVar,
         Permutation vars vars2 ->
         exists (st2 : Containers) (vars2' : list IecVar),
           groupLoop vars2 noGroups = Some (vars2', st2)
           /\ keys (inputs st2) = keys (inputs st)
           /\ keys (outputs st2) = keys (outputs st)
           /\ keys (memory st2) = keys (memory st).
Proof.
  intros Hall.
  pose proof (allSorted_recorded vars noGroups allSorted_nil) as Hs.
  exists (recorded vars noGroups), (aggregated [] vars).
  split; [now apply groupLoop_spec; auto with glue|].
  split; [now apply generateBoolGroups_spec|].
  split; [apply (Hs Inputs)|]. split; [apply (Hs Outputs)|].
  split; [apply (Hs Memory)|].
  intros vars2 Hp.
  assert (Hall2 : Forall (fun v => addressable v = true) vars2)
    by (eapply Permutation_Forall; eauto).
  exists (recorded vars2 noGroups), (aggregated [] vars2).
  split; [now apply groupLoop_spec; auto with glue|].
  apply Permutation_sym in Hp.
  repeat split.
  - apply (recorded_keys_Permutation _ _ Inputs Hp).
  - apply (recorded_keys_Permutation _ _ Outputs Hp).
  - apply (recorded_keys_Permutation _ _ Memory Hp).
Qed.

Lemma group_constants_by_direction_then_index_witness :
  exists (st : Containers) (vars' : list IecVar),
    groupLoop [mkIecVar "__MX7_0" "BOOL" 7 0; mkIecVar "__QX2_0" "BOOL" 2 0;
               mkIecVar "__IX5_0" "BOOL" 5 0; mkIecVar "__IX1_0" "BOOL" 1 0]
              noGroups = Some (vars', st)
    /\ generateBoolGroups
         [mkIecVar "__MX7_0" "BOOL" 7 0; mkIecVar "__QX2_0" "BOOL" 2 0;
          mkIecVar "__IX5_0" "BOOL" 5 0; mkIecVar "__IX1_0" "BOOL" 1 0]
       = Some (String.concat "" (map (renderGroup "I") (inputs st))
               ++ String.concat "" (map (renderGroup "Q") (outputs st))
               ++ String.concat "" (map (renderGroup "M") (memory st)),
               vars')
    /\ StronglySorted N.lt (keys (inputs st))
    /\ StronglySorted N.lt (keys (outputs st))
    /\ StronglySorted N.lt (keys (memory st))
    /\ forall vars2 : list IecVar,
         Permutation
           [mkIecVar "__MX7_0" "BOOL" 7 0; mkIecVar "__QX2_0" "BOOL" 2 0;
            mkIecVar "__IX5_0" "BOOL" 5 0; mkIecVar "__IX1_0" "BOOL" 1 0]
           vars2 ->
         exists (st2 : Containers) (vars2' : list IecVar),
           groupLoop vars2 noGroups = Some (vars2', st2)
           /\ keys (inputs st2) = keys (inputs st)
           /\ keys (outputs st2) = keys (outputs st)
           /\ keys (memory st2) = keys (memory st).
Proof.
  apply (group_constants_by_direction_then_index
           [mkIecVar "__MX7_0" "BOOL" 7 0; mkIecVar "__QX2_0" "BOOL" 2 0;
            mkIecVar "__IX5_0" "BOOL" 5 0; mkIecVar "__IX1_0" "BOOL" 1 0]).
  repeat constructor.
Defined.

(** The constants of the witness, in the order they are written. *)
Lemma group_constants_example :
  option_map fst
    (generateBoolGroups
       [mkIecVar "__MX7_0" "BOOL" 7 0; mkIecVar "__QX2_0" "BOOL" 2 0;
        mkIecVar "__IX5_0" "BOOL" 5 0; mkIecVar "__IX1_0" "BOOL" 1 0])
  = Some (renderGroup "I" (1, set_nth emptySlots 0 "__IX1_0")
          ++ renderGroup "I" (5, set_nth emptySlots 0 "__IX5_0")
          ++ renderGroup "Q" (2, set_nth emptySlots 0 "__QX2_0")
          ++ renderGroup "M" (7, set_nth emptySlots 0 "__MX7_0")).
Proof.
  reflexivity.
Qed.

(** ** The minor index from 8 on, in general *)

(** The defect behind C6 in general: a list with a bit-addressed declaration
    whose minor index is 8 or more makes the grouping pass undefined,
    whatever else the list holds. *)
Lemma groupLoop_undefined_from_slot_8 (vars : list IecVar) (v : IecVar) :
  In v vars ->
  str_at (name v) 3 = Some "X"%char ->
  (8 <= pos2 v)%N ->
  forall st : Containers, groupLoop vars st = None.
Proof.
  intros Hin Hx Hp.
  assert (Hstore : forall m k, map_store m k (pos2 v) (name v) = None).
  { intros m k. unfold map_store, slot_store.
    destruct (N.ltb_spec (pos2 v) 8); [lia|reflexivity]. }
  induction vars as [|w rest IH]; intros st; [easy|].
  destruct Hin as [->|Hin].
  - cbn [groupLoop]. rewrite Hx. cbn [bind negb Ascii.eqb Bool.eqb].
    destruct (str_at (name v) 2) as [d|]; [|reflexivity]. cbn [bind].
    destruct (map_find (pos1 v) _); now rewrite Hstore.
  - cbn [groupLoop].
    destruct (str_at (name w) 3) as [s|]; [|reflexivity]. cbn [bind].
    destruct (negb (s =? "X")%char).
    + now rewrite (IH Hin).
    + destruct (str_at (name w) 2) as [d|]; [|reflexivity]. cbn [bind].
      destruct (map_find (pos1 w) _).
      * destruct (map_store _ _ _ _); [|reflexivity]. cbn [bind].
        apply (IH Hin).
      * destruct (map_store _ _ _ _); [|reflexivity]. cbn [bind].
        now rewrite (IH Hin).
Qed.

(** The part of C6 the source does provide: on declarations that are not
    bit-addressed a minor index of 8 or more costs a warning and nothing
    else. *)
Lemma warning_only_outside_bit_declarations (vars : list IecVar) :
  Forall (fun v => addressable v = true) vars ->
  exists statements groups table,
    glueAll vars
    = Some (String.concat ""
              (map (fun v => invalidAddressing (name v) (pos2 v)) vars),
            statements)
    /\ generateBoolGroups vars = Some (groups, aggregated [] vars)
    /\ generateIntegratedGlue (aggregated [] vars) = Some table.
Proof.
  intros Hall.
  destruct (glueAll_shown vars Hall) as [statements Hs].
  destruct (mapM_total _ _ (aggregated_rows vars [] Hall)) as [rows Hrows].
  exists statements, (renderContainers (recorded vars noGroups)),
    (integratedGlueText (List.length (aggregated [] vars)) rows).
  split; [exact Hs|]. split; [now apply generateBoolGroups_spec|].
  unfold generateIntegratedGlue, glueRows. now rewrite Hrows.
Qed.

(** ** The run on the lines the compiler writes *)

Lemma buf_write_length (b : cbuf) :
  forall (j : nat) (c : ascii) (b' : cbuf),
    buf_write b j c = Some b' -> List.length b' = List.length b.
Proof.
  induction b as [|x b IH]; intros [|j] c b' E; simpl in E;
    try discriminate.
  - now injection E as <-.
  - inv_bind E as r Er. injection E as <-. simpl. f_equal. eauto.
Qed.

Lemma buf_write_defined (b : cbuf) :
  forall (j : nat) (c : ascii),
    (j < List.length b)%nat -> buf_write b j c <> None.
Proof.
  induction b as [|x b IH]; intros [|j] c Hj; simpl in *; try lia.
  - discriminate.
  - destruct (buf_write b j c) eqn:E; [discriminate|].
    apply IH in E; [contradiction|lia].
Qed.

(** The copying loop on a source that holds the characters [cs] and then a
    stopping character, with room for [cs] and a terminator in [dst]. *)
Lemma copy_until_run (stop : ascii -> bool) (cs : list ascii) (c : ascii)
    (after : cbuf) :
  Forall (fun x => stop x = false) cs -> stop c = true ->
  forall (dst : cbuf) (pre : list ascii),
    starts_with dst pre ->
    (List.length pre + List.length cs < List.length dst)%nat ->
    exists dst',
      copy_until stop (buf_of_chars cs ++ Some c :: after)%list dst
                 (List.length pre)
      = Some (Some c :: after, dst')
      /\ List.length dst' = List.length dst
      /\ (cs = [] -> dst' = dst)
      /\ (cs <> [] -> starts_with dst' (pre ++ cs ++ [NUL])%list).
Proof.
  intros Hcs Hc. induction Hcs as [|x cs Hx _ IH]; intros dst pre Hpre Hlen.
  - exists dst. simpl. rewrite Hc. repeat split; auto. congruence.
  - simpl in Hlen. cbn [buf_of_chars map app copy_until]. rewrite Hx.
    destruct (buf_write dst (List.length pre) x) as [dst1|] eqn:E1;
      [|apply buf_write_defined in E1; [contradiction|lia]].
    pose proof (buf_write_length _ _ _ _ E1) as L1.
    pose proof (buf_write_starts_with _ _ _ _ Hpre E1) as S1.
    cbn [bind].
    destruct (buf_write dst1 (S (List.length pre)) NUL) as [dst2|] eqn:E2;
      [|apply buf_write_defined in E2; [contradiction|lia]].
    pose proof (buf_write_length _ _ _ _ E2) as L2.
    assert (S2 : starts_with dst2 ((pre ++ [x]) ++ [NUL])%list).
    { eapply buf_write_starts_with; eauto.
      rewrite length_app, Nat.add_comm. exact E2. }
    cbn [bind].
    destruct (IH dst2 (pre ++ [x])%list (starts_with_app_l _ _ _ S2))
      as (dst' & E & L & Hnil & Hcons).
    { rewrite length_app. simpl. lia. }
    rewrite length_app, Nat.add_comm in E. simpl in E.
    exists dst'. split; [exact E|]. split; [lia|]. split; [congruence|].
    intros _. destruct cs as [|y cs].
    + rewrite (Hnil eq_refl). now rewrite <- app_assoc in S2.
    + assert (Hne : y :: cs <> []) by congruence.
      specialize (Hcons Hne). now rewrite <- app_assoc in Hcons.
Qed.

Lemma seek_run (c : ascii) (pre : list ascii) (after : cbuf) :
  ~ In c pre ->
  seek c (buf_of_chars pre ++ Some c :: after)%list = Some (Some c :: after).
Proof.
  induction pre as [|x pre IH]; intros Hin; simpl.
  - now rewrite Ascii.eqb_refl.
  - destruct (Ascii.eqb_spec x c) as [->|_]; [destruct Hin; now left|].
    apply IH. intros H. apply Hin. now right.
Qed.

Lemma not_comma_Forall (cs : list ascii) :
  ~ In ","%char cs -> Forall (fun x => isComma x = false) cs.
Proof.
  intros Hin. apply Forall_forall. intros x Hx. unfold isComma.
  destruct (Ascii.eqb_spec x ","); [subst; contradiction|reflexivity].
Qed.

(** The scan of a line whose array holds a prefix without parenthesis, the
    parenthesis and two fields ended by commas. *)
Lemma scanLine_run (line : string) (pre ty nm : list ascii) (post : cbuf)
    (varName varType : cbuf) :
  strncpy line 1024
  = (buf_of_chars pre ++ Some "("%char :: buf_of_chars ty
     ++ Some ","%char :: buf_of_chars nm ++ Some ","%char :: post)%list ->
  ~ In "("%char pre -> ~ In ","%char ty -> ~ In ","%char nm ->
  ty <> [] -> nm <> [] ->
  (List.length ty < List.length varType)%nat ->
  (List.length nm < List.length varName)%nat ->
  exists varName' varType',
    scanLine line varName varType = Some (varName', varType')
    /\ List.length varName' = List.length varName
    /\ List.length varType' = List.length varType
    /\ starts_with varName' (nm ++ [NUL])%list
    /\ starts_with varType' (ty ++ [NUL])%list.
Proof.
  intros Hbuf Hpre Hty Hnm Hty1 Hnm1 Lty Lnm. unfold scanLine.
  rewrite Hbuf, (seek_run _ _ _ Hpre). cbn [bind tl].
  destruct (copy_until_run isComma ty ","
              (buf_of_chars nm ++ Some ","%char :: post)%list
              (not_comma_Forall _ Hty) eq_refl
              varType [] (ex_intro _ varType eq_refl) Lty)
    as (varType' & Et & Lt & _ & St).
  cbn [List.length] in Et. rewrite Et. cbn [bind tl].
  destruct (copy_until_run isComma nm "," post (not_comma_Forall _ Hnm) eq_refl
              varName [] (ex_intro _ varName eq_refl) Lnm)
    as (varName' & En & Ln & _ & Sn).
  cbn [List.length] in En. rewrite En. cbn [bind].
  exists varName', varType'. repeat split; auto.
Qed.

(** *** Numerals *)

Lemma isDigit_digit (c : ascii) :
  isDigit c = true ->
  digit c = Some (Z.of_nat (nat_of_ascii c - 48))
  /\ (48 <= nat_of_ascii c <= 57)%nat.
Proof.
  unfold isDigit, digit.
  destruct (Nat.leb_spec 48 (nat_of_ascii c)),
    (Nat.leb_spec (nat_of_ascii c) 57); simpl; intros E;
    try discriminate E. split; [reflexivity|lia].
Qed.

Lemma isDigit_not (c x : ascii) :
  isDigit c = true -> (nat_of_ascii x < 48)%nat \/ (57 < nat_of_ascii x)%nat ->
  (c =? x)%char = false.
Proof.
  intros Hd Hx. apply isDigit_digit in Hd as [_ Hc].
  destruct (Ascii.eqb_spec c x) as [->|_]; [lia|reflexivity].
Qed.

Lemma isDigit_isspace (c : ascii) : isDigit c = true -> isspace c = false.
Proof.
  intros Hd. apply isDigit_digit in Hd as [_ Hc]. unfold isspace.
  destruct (Nat.eqb_spec (nat_of_ascii c) 32); [lia|].
  destruct (Nat.leb_spec (nat_of_ascii c) 13); [lia|].
  now rewrite andb_false_r.
Qed.

Lemma digits_run (ds : list ascii) (c : ascii) (r : cbuf) :
  forallb isDigit ds = true -> digit c = None ->
  forall acc : Z,
    digits acc (buf_of_chars ds ++ Some c :: r)%list
    = Some (fold_left
              (fun acc c => (10 * acc + Z.of_nat (nat_of_ascii c - 48))%Z)
              ds acc).
Proof.
  intros Hds Hc. induction ds as [|d ds IH]; intros acc;
    cbn [buf_of_chars map app digits fold_left].
  - now rewrite Hc.
  - cbn [forallb] in Hds. apply andb_true_iff in Hds as [Hd Hds].
    destruct (isDigit_digit _ Hd) as [-> _]. now apply IH.
Qed.

Lemma numeral_nonneg (ds : list ascii) :
  forall acc : Z,
    (0 <= acc)%Z ->
    (0 <= fold_left
            (fun acc c => (10 * acc + Z.of_nat (nat_of_ascii c - 48))%Z)
            ds acc)%Z.
Proof.
  induction ds as [|d ds IH]; intros acc Hacc; cbn [fold_left];
    [exact Hacc|].
  apply IH. lia.
Qed.

Lemma isNumeral_parts (ds : list ascii) :
  isNumeral ds = true ->
  ds <> [] /\ forallb isDigit ds = true
  /\ (0 <= numeral ds <= 2147483647)%Z.
Proof.
  unfold isNumeral. intros E.
  apply andb_true_iff in E as [E Hmax]. apply andb_true_iff in E as [Hne Hd].
  apply Z.leb_le in Hmax. repeat split; auto.
  - intros ->. discriminate Hne.
  - apply numeral_nonneg. lia.
Qed.

Lemma atoi_run (b : cbuf) (ds : list ascii) :
  starts_with b (ds ++ [NUL])%list -> isNumeral ds = true ->
  atoi b = Some (numeral ds).
Proof.
  intros [r ->] Hn. destruct (isNumeral_parts _ Hn) as (Hne & Hd & H0 & Hmax).
  destruct ds as [|d ds]; [contradiction|].
  pose proof Hd as Hd'. simpl in Hd'. apply andb_true_iff in Hd' as [Hd0 _].
  unfold atoi, buf_of_chars. rewrite map_app. cbn [map app skip_spaces].
  rewrite (isDigit_isspace _ Hd0). cbn [bind].
  rewrite (isDigit_not d "-" Hd0), (isDigit_not d "+" Hd0)
    by (left; vm_compute; lia).
  rewrite <- app_assoc. cbn [app].
  change (Some d :: map Some ds ++ Some NUL :: r)%list
    with (buf_of_chars (d :: ds) ++ Some NUL :: r)%list.
  rewrite (digits_run _ NUL r Hd eq_refl). cbn [bind].
  fold (numeral (d :: ds)). unfold as_int.
  destruct (Z.leb_spec (-2147483648) (numeral (d :: ds))); [|lia].
  destruct (Z.leb_spec (numeral (d :: ds)) 2147483647); [reflexivity|lia].
Qed.

Lemma isDigit_plain_Forall (stop : ascii -> bool) (ds : list ascii) :
  (forall c, isDigit c = true -> stop c = false) ->
  forallb isDigit ds = true -> Forall (fun x => stop x = false) ds.
Proof.
  intros Hstop Hd. apply Forall_forall. intros x Hx.
  rewrite forallb_forall in Hd. auto.
Qed.

Lemma isDigit_isSeparatorOrEnd (c : ascii) :
  isDigit c = true -> isSeparatorOrEnd c = false.
Proof.
  intros Hd. unfold isSeparatorOrEnd.
  rewrite (isDigit_not c "_" Hd) by (right; vm_compute; lia).
  rewrite (isDigit_not c NUL Hd) by (left; vm_compute; lia). reflexivity.
Qed.

Lemma isDigit_isEnd (c : ascii) : isDigit c = true -> isEnd c = false.
Proof.
  intros Hd. unfold isEnd. apply (isDigit_not c NUL Hd). left. vm_compute. lia.
Qed.

(** *** The name array and its positions *)

Lemma uninitialized_length (n : nat) : List.length (uninitialized n) = n.
Proof.
  apply repeat_length.
Qed.

Lemma starts_with_nil (b : cbuf) : starts_with b [].
Proof.
  now exists b.
Qed.

(** [findPositions] on an array that holds four characters, the digits of
    the major index and then either the terminator or an underscore, the
    digits of the minor index and the terminator. *)
Lemma findPositions_run (p0 p1 d s : ascii) (major : list ascii)
    (minor : option (list ascii)) (r : cbuf) :
  isNumeral major = true ->
  match minor with
  | Some m => isNumeral m = true /\ (List.length m < 100)%nat
  | None => True
  end ->
  (List.length major < 100)%nat ->
  findPositions
    (Some p0 :: Some p1 :: Some d :: Some s
     :: buf_of_chars major
     ++ match minor with
        | Some m => Some "_"%char :: buf_of_chars m ++ Some NUL :: r
        | None => Some NUL :: r
        end)%list
  = Some (to_uint16 (numeral major),
          match minor with
          | Some m => to_uint16 (numeral m)
          | None => 0
          end).
Proof.
  intros Hmajor Hminor Lmajor.
  destruct (isNumeral_parts _ Hmajor) as (Hne & Hd & _).
  unfold findPositions. cbn [skipn].
  assert (Hstop : forall c after,
            isSeparatorOrEnd c = true ->
            exists t1,
              copy_until isSeparatorOrEnd
                (buf_of_chars major ++ Some c :: after)%list
                (uninitialized 100) 0
              = Some (Some c :: after, t1)
              /\ List.length t1 = 100%nat
              /\ starts_with t1 (major ++ [NUL])%list).
  { intros c after Hc.
    destruct (copy_until_run isSeparatorOrEnd major c after
                (isDigit_plain_Forall _ _ isDigit_isSeparatorOrEnd Hd) Hc
                (uninitialized 100) [] (starts_with_nil _))
      as (t1 & E & L & _ & S).
    - rewrite uninitialized_length. simpl. lia.
    - exists t1. rewrite uninitialized_length in L. auto. }
  destruct minor as [m|].
  - destruct Hminor as [Hm Lm].
    destruct (isNumeral_parts _ Hm) as (Hmne & Hmd & _).
    destruct (Hstop "_"%char (buf_of_chars m ++ Some NUL :: r)%list eq_refl)
      as (t1 & -> & L1 & S1).
    cbn [bind]. rewrite (atoi_run _ _ S1 Hmajor). cbn [bind].
    change ("_" =? NUL)%char with false. cbn iota.
    destruct (copy_until_run isEnd m NUL r
                (isDigit_plain_Forall _ _ isDigit_isEnd Hmd) eq_refl
                t1 [] (starts_with_nil _))
      as (t2 & E2 & L2 & _ & S2).
    + rewrite L1. simpl. lia.
    + cbn [List.length] in E2. rewrite E2. cbn [bind].
      now rewrite (atoi_run _ _ (S2 Hmne) Hm).
  - destruct (Hstop NUL r eq_refl) as (t1 & -> & L1 & S1).
    cbn [bind]. rewrite (atoi_run _ _ S1 Hmajor). cbn [bind].
    now rewrite Ascii.eqb_refl.
Qed.

(** *** The parts of a well-formed line *)

Lemma chars_app (a b : string) :
  list_ascii_of_string (a ++ b)
  = (list_ascii_of_string a ++ list_ascii_of_string b)%list.
Proof.
  induction a as [|c a IH]; simpl; congruence.
Qed.

Lemma c_str_app (a b : string) :
  noNul (list_ascii_of_string a) -> c_str (a ++ b) = a ++ c_str b.
Proof.
  unfold noNul. induction a as [|c a IH]; simpl; intros Hn; [reflexivity|].
  inversion Hn as [|? ? Hc Ha]; subst.
  destruct (Ascii.eqb_spec c NUL); [contradiction|]. now rewrite IH.
Qed.

Lemma plainChar_parts (c : ascii) :
  plainChar c = true -> c <> NUL /\ c <> ","%char /\ c <> LF.
Proof.
  unfold plainChar. intros E.
  apply andb_true_iff in E as [E E3]. apply andb_true_iff in E as [E1 E2].
  repeat split; intros ->; discriminate.
Qed.

Lemma isDigit_plainChar (c : ascii) : isDigit c = true -> plainChar c = true.
Proof.
  intros Hd. unfold plainChar.
  rewrite (isDigit_not c NUL Hd), (isDigit_not c "," Hd),
    (isDigit_not c LF Hd) by (left; vm_compute; lia).
  reflexivity.
Qed.

Lemma plain_noNul (l : list ascii) : forallb plainChar l = true -> noNul l.
Proof.
  intros H. apply Forall_forall. intros c Hc.
  rewrite forallb_forall in H. now apply plainChar_parts, H.
Qed.

Lemma plain_no_comma (l : list ascii) :
  forallb plainChar l = true -> ~ In ","%char l.
Proof.
  intros H Hin. rewrite forallb_forall in H.
  now apply H, plainChar_parts in Hin.
Qed.

Lemma plain_no_LF (l : list ascii) :
  forallb plainChar l = true ->
  forallb (fun c => negb (c =? LF)%char) l = true.
Proof.
  intros H. apply forallb_forall. intros c Hc.
  rewrite forallb_forall in H. apply H, plainChar_parts in Hc.
  destruct Hc as (_ & _ & Hc). now destruct (Ascii.eqb_spec c LF).
Qed.

Lemma digits_plain (ds : list ascii) :
  forallb isDigit ds = true -> forallb plainChar ds = true.
Proof.
  intros H. apply forallb_forall. intros c Hc.
  rewrite forallb_forall in H. now apply isDigit_plainChar, H.
Qed.

Lemma locatedName_chars (l : Located) :
  list_ascii_of_string (locatedName l)
  = ("_"%char :: "_"%char :: loc_direction l :: loc_size l
     :: loc_major l ++ minorChars (loc_minor l))%list.
Proof.
  unfold locatedName, chr. cbn [append list_ascii_of_string].
  rewrite chars_app, list_ascii_of_string_of_list_ascii.
  destruct (loc_minor l) as [m|]; cbn [minorChars append list_ascii_of_string];
    [now rewrite list_ascii_of_string_of_list_ascii | reflexivity].
Qed.

Lemma wellFormedLocated_parts (l : Located) :
  wellFormedLocated l = true -> LocatedParts l.
Proof.
  unfold wellFormedLocated. intros E.
  repeat match type of E with
         | (_ && _)%bool = true =>
             let E' := fresh "E" in
             apply andb_true_iff in E as [E E']
         end.
  constructor.
  - destruct (loc_type l); [discriminate E|discriminate].
  - assumption.
  - now apply Nat.leb_le.
  - assumption.
  - assumption.
  - assumption.
  - destruct (loc_minor l); [assumption|exact I].
  - now apply Nat.leb_le.
  - assumption.
  - intros Hx. rewrite Hx in *. now apply N.ltb_lt.
Qed.

Lemma locatedName_plain (l : Located) :
  LocatedParts l ->
  forallb plainChar (list_ascii_of_string (locatedName l)) = true.
Proof.
  intros P. rewrite locatedName_chars. cbn [forallb].
  rewrite (lp_direction _ P), (lp_size _ P). cbn [andb].
  rewrite forallb_app.
  destruct (isNumeral_parts _ (lp_major _ P)) as (_ & Hd & _).
  rewrite (digits_plain _ Hd). cbn [andb].
  pose proof (lp_minor _ P) as Hm.
  destruct (loc_minor l) as [m|]; [|reflexivity].
  destruct (isNumeral_parts _ Hm) as (_ & Hmd & _).
  cbn [minorChars forallb]. now rewrite (digits_plain _ Hmd).
Qed.

Lemma string_length_chars (s : string) :
  List.length (list_ascii_of_string s) = String.length s.
Proof.
  induction s; simpl; congruence.
Qed.

(** The line array of a well-formed line. *)
Lemma strncpy_located (l : Located) :
  LocatedParts l ->
  exists post : cbuf,
    strncpy (locatedLine l) 1024
    = (buf_of_chars (list_ascii_of_string "__LOCATED_VAR")
       ++ Some "("%char :: buf_of_chars (list_ascii_of_string (loc_type l))
       ++ Some ","%char
       :: buf_of_chars (list_ascii_of_string (locatedName l))
       ++ Some ","%char :: post)%list.
Proof.
  intros P. unfold strncpy, locatedLine.
  pose proof (plain_noNul _ (lp_type_plain _ P)) as Nty.
  pose proof (plain_noNul _ (locatedName_plain _ P)) as Nnm.
  assert (Ec : c_str ("__LOCATED_VAR(" ++ loc_type l ++ "," ++ locatedName l
                      ++ "," ++ loc_tail l)
               = "__LOCATED_VAR(" ++ loc_type l ++ "," ++ locatedName l
                 ++ "," ++ c_str (loc_tail l)).
  { assert (Nc : forall a : string,
                forallb (fun c => negb (c =? NUL)%char)
                        (list_ascii_of_string a) = true ->
                forall b, c_str (a ++ b) = a ++ c_str b).
    { intros a Ha b. apply c_str_app, Forall_forall. intros c Hc.
      rewrite forallb_forall in Ha. apply Ha in Hc.
      intros ->. discriminate Hc. }
    rewrite (Nc "__LOCATED_VAR(" eq_refl).
    rewrite (c_str_app _ _ Nty), (Nc "," eq_refl).
    now rewrite (c_str_app _ _ Nnm), (Nc "," eq_refl). }
  rewrite Ec.
  set (tailc := list_ascii_of_string (c_str (loc_tail l))).
  assert (Eh : list_ascii_of_string
                 ("__LOCATED_VAR(" ++ loc_type l ++ "," ++ locatedName l
                  ++ "," ++ c_str (loc_tail l))
               = ((list_ascii_of_string "__LOCATED_VAR"
                   ++ "("%char :: list_ascii_of_string (loc_type l)
                   ++ ","%char :: list_ascii_of_string (locatedName l)
                   ++ [","%char]) ++ tailc)%list).
  { cbn [append list_ascii_of_string app].
    rewrite chars_app. cbn [append list_ascii_of_string].
    rewrite chars_app. cbn [append list_ascii_of_string].
    repeat (rewrite <- app_assoc; cbn [app]). reflexivity. }
  rewrite Eh.
  set (head := (list_ascii_of_string "__LOCATED_VAR"
                ++ "("%char :: list_ascii_of_string (loc_type l)
                ++ ","%char :: list_ascii_of_string (locatedName l)
                ++ [","%char])%list).
  assert (Lh : (List.length head <= 1024)%nat).
  { unfold head. rewrite length_app. cbn [List.length list_ascii_of_string].
    rewrite length_app. cbn [List.length]. rewrite length_app.
    cbn [List.length]. rewrite !string_length_chars.
    pose proof (lp_type_length _ P). pose proof (lp_name_length _ P). lia. }
  rewrite firstn_app, (firstn_all2 head) by exact Lh.
  generalize (firstn (1024 - List.length head) tailc).
  generalize (repeat NUL (1024 - List.length (head ++ tailc))).
  intros pad kept. exists (buf_of_chars (kept ++ pad)%list).
  unfold buf_of_chars, head.
  repeat first [rewrite map_app | rewrite <- app_assoc
               | progress cbn [map app]].
  reflexivity.
Qed.

(** *** The reading loop *)

(** One line: the scan fills the two arrays with the type and the name, and
    [findPositions] reads the two indices off the name array. *)
Lemma located_line_read (l : Located) (varName varType : cbuf) :
  LocatedParts l ->
  List.length varName = 100%nat -> List.length varType = 100%nat ->
  exists varName' varType',
    scanLine (locatedLine l) varName varType = Some (varName', varType')
    /\ List.length varName' = 100%nat /\ List.length varType' = 100%nat
    /\ cstring varName' = Some (locatedName l)
    /\ cstring varType' = Some (loc_type l)
    /\ findPositions varName'
       = Some (pos1 (locatedVar l), pos2 (locatedVar l)).
Proof.
  intros P Ln Lt.
  destruct (strncpy_located l P) as [post Hbuf].
  pose proof (locatedName_plain _ P) as Pnm.
  pose proof (lp_name_length _ P) as Lnm.
  pose proof (lp_type_length _ P) as Lty.
  destruct (scanLine_run (locatedLine l)
              (list_ascii_of_string "__LOCATED_VAR")
              (list_ascii_of_string (loc_type l))
              (list_ascii_of_string (locatedName l)) post varName varType Hbuf)
    as (varName' & varType' & E & Ln' & Lt' & Sn & St).
  - cbn. intuition discriminate.
  - apply plain_no_comma, (lp_type_plain _ P).
  - apply plain_no_comma, Pnm.
  - apply (lp_type_nonempty _ P).
  - rewrite locatedName_chars. discriminate.
  - rewrite string_length_chars. lia.
  - rewrite string_length_chars. lia.
  - exists varName', varType'. split; [exact E|].
    split; [lia|]. split; [lia|]. split; [|split].
    + rewrite (cstring_starts_with _ _ Sn (plain_noNul _ Pnm)).
      now rewrite string_of_list_ascii_of_string.
    + rewrite (cstring_starts_with _ _ St
                 (plain_noNul _ (lp_type_plain _ P))).
      now rewrite string_of_list_ascii_of_string.
    + destruct Sn as [r ->].
      rewrite <- string_length_chars, locatedName_chars in Lnm.
      cbn [List.length] in Lnm. rewrite length_app in Lnm.
      pose proof (lp_minor _ P) as Hminor.
      assert (Hshape :
                (buf_of_chars (list_ascii_of_string (locatedName l) ++ [NUL])
                 ++ r)%list
                = (Some "_"%char :: Some "_"%char :: Some (loc_direction l)
                   :: Some (loc_size l) :: buf_of_chars (loc_major l)
                   ++ match loc_minor l with
                      | Some m =>
                          Some "_"%char :: buf_of_chars m ++ Some NUL :: r
                      | None => Some NUL :: r
                      end)%list).
      { rewrite locatedName_chars. unfold buf_of_chars.
        destruct (loc_minor l); cbn [minorChars];
          repeat first [rewrite map_app | rewrite <- app_assoc
                       | rewrite app_nil_r | progress cbn [map app]];
          reflexivity. }
      rewrite Hshape. unfold locatedVar. cbn [pos1 pos2].
      apply findPositions_run; [exact (lp_major _ P)| |lia].
      destruct (loc_minor l) as [m|]; [|exact I].
      split; [exact Hminor|]. cbn [minorChars List.length] in Lnm. lia.
Qed.

Lemma readVars_located {H : Md5} (ls : list Located) :
  Forall LocatedParts ls ->
  forall (varName varType : cbuf) (st : md5_state_s),
    List.length varName = 100%nat -> List.length varType = 100%nat ->
    exists shown : string,
      readVars (map locatedLine ls) varName varType st
      = Some (map locatedVar ls, shown,
              fold_left md5_append (map locatedLine ls) st).
Proof.
  induction 1 as [|l ls P _ IH]; intros varName varType st Ln Lt.
  - now exists "".
  - destruct (located_line_read l varName varType P Ln Lt)
      as (n' & t' & E & Ln' & Lt' & Cn & Ct & Ep).
    destruct (IH n' t' (md5_append st (locatedLine l)) Ln' Lt')
      as [shown Er].
    eexists. cbn [map readVars fold_left]. rewrite E. cbn [bind].
    rewrite Cn, Ct. cbn [bind]. rewrite Ep. cbn [bind]. rewrite Er.
    cbn [bind]. reflexivity.
Qed.

Lemma split_lines_line (a rest : string) :
  forallb (fun c => negb (c =? LF)%char) (list_ascii_of_string a) = true ->
  split_lines (a ++ String LF rest) = a :: split_lines rest.
Proof.
  induction a as [|c a IH]; intros Ha.
  - reflexivity.
  - cbn [list_ascii_of_string forallb] in Ha.
    apply andb_true_iff in Ha as [Hc Ha].
    cbn [append split_lines]. rewrite (IH Ha).
    now destruct (c =? LF)%char.
Qed.

Lemma locatedLine_no_LF (l : Located) :
  LocatedParts l ->
  forallb (fun c => negb (c =? LF)%char)
          (list_ascii_of_string (locatedLine l)) = true.
Proof.
  intros P. unfold locatedLine.
  repeat (rewrite chars_app, forallb_app).
  rewrite (plain_no_LF _ (lp_type_plain _ P)),
    (plain_no_LF _ (locatedName_plain _ P)), (lp_tail _ P).
  reflexivity.
Qed.

Lemma split_lines_located (ls : list Located) :
  Forall LocatedParts ls ->
  split_lines (locatedInput ls) = map locatedLine ls.
Proof.
  induction 1 as [|l ls P _ IH]; [reflexivity|].
  unfold locatedInput in *. cbn [map]. rewrite concat_cons.
  replace ((locatedLine l ++ endl)
           ++ String.concat "" (map (fun l => locatedLine l ++ endl) ls))
    with (locatedLine l
          ++ String LF (String.concat ""
                          (map (fun l => locatedLine l ++ endl) ls)))
    by (now rewrite append_assoc).
  rewrite (split_lines_line _ _ (locatedLine_no_LF _ P)). now rewrite IH.
Qed.

Lemma located_addressable (l : Located) :
  LocatedParts l -> addressable (locatedVar l) = true.
Proof.
  intros P. unfold addressable.
  assert (Hb : bitAddressed (locatedVar l) = (loc_size l =? "X")%char)
    by reflexivity.
  rewrite Hb. apply andb_true_iff. split; [reflexivity|].
  destruct (loc_size l =? "X")%char eqn:Hx; [|reflexivity].
  now apply N.ltb_lt, (lp_bit _ P).
Qed.

(** On a file of well-formed lines the run is defined: the declarations
    read are those of the lines, in order, and the three passes over them
    are the ones the list properties describe. *)
Theorem generateBody_on_compiler_lines {H : Md5} (ls : list Located) :
  forallb wellFormedLocated ls = true ->
  exists (shown warnings statements groups table : string),
    readVars (split_lines (locatedInput ls))
             (uninitialized 100) (uninitialized 100) md5_init
    = Some (map locatedVar ls, shown,
            fold_left md5_append (map locatedLine ls) md5_init)
    /\ Forall (fun v => addressable v = true) (map locatedVar ls)
    /\ glueAll (map locatedVar ls) = Some (warnings, statements)
    /\ generateBoolGroups (map locatedVar ls)
       = Some (groups, aggregated [] (map locatedVar ls))
    /\ generateIntegratedGlue (aggregated [] (map locatedVar ls))
       = Some table
    /\ generateBody (locatedInput ls)
       = Some (mkBodyResult
                 ("void glueVars()" ++ endl ++ "{" ++ endl ++ statements
                  ++ "}" ++ endl ++ endl ++ groups ++ table)
                 (shown ++ warnings)
                 (md5_finish
                    (fold_left md5_append (map locatedLine ls) md5_init))).
Proof.
  intros Hwf.
  assert (Hparts : Forall LocatedParts ls).
  { apply Forall_forall. intros l Hl. rewrite forallb_forall in Hwf.
    now apply wellFormedLocated_parts, Hwf. }
  assert (Hall : Forall (fun v => addressable v = true) (map locatedVar ls)).
  { apply Forall_map. eapply Forall_impl; [|exact Hparts].
    apply located_addressable. }
  destruct (readVars_located ls Hparts (uninitialized 100) (uninitialized 100)
              md5_init (uninitialized_length _) (uninitialized_length _))
    as [shown Er].
  destruct (warning_only_outside_bit_declarations _ Hall)
    as (statements & groups & table & Eg & Eb & Et).
  rewrite <- (split_lines_located ls Hparts) in Er at 1.
  eexists shown, _, statements, groups, table.
  split; [exact Er|]. split; [exact Hall|]. split; [exact Eg|].
  split; [exact Eb|]. split; [exact Et|].
  unfold generateBody. rewrite Er. cbn [bind]. rewrite Eg. cbn [bind].
  rewrite Eb. cbn [bind]. rewrite Et. reflexivity.
Qed.

Lemma generateBody_on_compiler_lines_witness :
  exists (shown warnings statements groups table : string),
    readVars (H := md5_rfc1321)
      (split_lines
         (locatedInput
            [mkLocated "BOOL" "I" "X" ["0"%char] (Some ["1"%char]) "I,X,0,1)";
             mkLocated "LINT" "M" "L" (list_ascii_of_string "1025") None
                       "M,L,1025)"]))
      (uninitialized 100) (uninitialized 100) md5_init
    = Some (map locatedVar
              [mkLocated "BOOL" "I" "X" ["0"%char] (Some ["1"%char])
                         "I,X,0,1)";
               mkLocated "LINT" "M" "L" (list_ascii_of_string "1025") None
                         "M,L,1025)"],
            shown,
            fold_left md5_append
              (map locatedLine
                 [mkLocated "BOOL" "I" "X" ["0"%char] (Some ["1"%char])
                            "I,X,0,1)";
                  mkLocated "LINT" "M" "L" (list_ascii_of_string "1025") None
                            "M,L,1025)"]) md5_init)
    /\ Forall (fun v => addressable v = true)
         (map locatedVar
            [mkLocated "BOOL" "I" "X" ["0"%char] (Some ["1"%char]) "I,X,0,1)";
             mkLocated "LINT" "M" "L" (list_ascii_of_string "1025") None
                       "M,L,1025)"])
    /\ glueAll
         (map locatedVar
            [mkLocated "BOOL" "I" "X" ["0"%char] (Some ["1"%char]) "I,X,0,1)";
             mkLocated "LINT" "M" "L" (list_ascii_of_string "1025") None
                       "M,L,1025)"])
       = Some (warnings, statements)
    /\ generateBoolGroups
         (map locatedVar
            [mkLocated "BOOL" "I" "X" ["0"%char] (Some ["1"%char]) "I,X,0,1)";
             mkLocated "LINT" "M" "L" (list_ascii_of_string "1025") None
                       "M,L,1025)"])
       = Some (groups,
               aggregated []
                 (map locatedVar
                    [mkLocated "BOOL" "I" "X" ["0"%char] (Some ["1"%char])
                               "I,X,0,1)";
                     mkLocated "LINT" "M" "L" (list_ascii_of_string "1025")
                               None "M,L,1025)"]))
    /\ generateIntegratedGlue
         (aggregated []
            (map locatedVar
               [mkLocated "BOOL" "I" "X" ["0"%char] (Some ["1"%char])
                          "I,X,0,1)";
                mkLocated "LINT" "M" "L" (list_ascii_of_string "1025") None
                          "M,L,1025)"]))
       = Some table
    /\ generateBody (H := md5_rfc1321)
         (locatedInput
            [mkLocated "BOOL" "I" "X" ["0"%char] (Some ["1"%char]) "I,X,0,1)";
             mkLocated "LINT" "M" "L" (list_ascii_of_string "1025") None
                       "M,L,1025)"])
       = Some (mkBodyResult
                 ("void glueVars()" ++ endl ++ "{" ++ endl ++ statements
                  ++ "}" ++ endl ++ endl ++ groups ++ table)
                 (shown ++ warnings)
                 (md5_finish
                    (fold_left md5_append
                       (map locatedLine
                          [mkLocated "BOOL" "I" "X" ["0"%char]
                                     (Some ["1"%char]) "I,X,0,1)";
                           mkLocated "LINT" "M" "L"
                                     (list_ascii_of_string "1025") None
                                     "M,L,1025)"]) md5_init))).
Proof.
  apply (generateBody_on_compiler_lines (H := md5_rfc1321)
           [mkLocated "BOOL" "I" "X" ["0"%char] (Some ["1"%char]) "I,X,0,1)";
            mkLocated "LINT" "M" "L" (list_ascii_of_string "1025") None
                      "M,L,1025)"]).
  reflexivity.
Defined.

(** The digest of a file of well-formed lines: the run is defined, and the
    digest is the one of the lines joined without their line feeds. *)
Lemma checksum_on_compiler_lines {H : Md5} {L : Md5Streaming H}
    (ls : list Located) :
  forallb wellFormedLocated ls = true ->
  exists r : BodyResult,
    generateBody (locatedInput ls) = Some r
    /\ digest r = digestOf (String.concat "" (map locatedLine ls)).
Proof.
  intros Hwf.
  destruct (generateBody_on_compiler_lines ls Hwf)
    as (shown & warnings & statements & groups & table
        & _ & _ & _ & _ & _ & E).
  eexists. split; [exact E|]. cbn [digest]. unfold digestOf.
  now rewrite fold_md5_append.
Qed.

(** ** When the grouping pass is defined *)

Lemma str_at_length (s : string) :
  forall (i : nat) (c : ascii),
    str_at s i = Some c -> (i <= String.length s)%nat.
Proof.
  induction s as [|x s IH]; intros [|i] c E; simpl; try lia.
  - discriminate E.
  - rewrite str_at_cons in E. apply IH in E. lia.
Qed.

Lemma groupLoop_defined_addressable (vars : list IecVar) :
  forall st : Containers,
    groupLoop vars st <> None ->
    Forall (fun v => addressable v = true) vars.
Proof.
  induction vars as [|v rest IH]; intros st Hdef; [constructor|].
  cbn [groupLoop] in Hdef.
  destruct (str_at (name v) 3) as [s|] eqn:E3; [|now destruct Hdef].
  cbn [bind] in Hdef.
  pose proof (str_at_length _ _ _ E3) as Hlen.
  assert (Hb : bitAddressed v = (s =? "X")%char)
    by (unfold bitAddressed, sizeFlagOf; now rewrite E3).
  destruct (s =? "X")%char eqn:Hx; cbn [negb] in Hdef.
  - destruct (str_at (name v) 2) as [d|]; [|now destruct Hdef].
    cbn [bind] in Hdef.
    assert (Hp : forall m k, map_store m k (pos2 v) (name v) <> None ->
                             (pos2 v < 8)%N).
    { intros m k. unfold map_store, slot_store.
      destruct (N.ltb_spec (pos2 v) 8); [auto|now intros []]. }
    destruct (map_find (pos1 v) _).
    + destruct (map_store _ _ _ _) as [m2|] eqn:Es; [|now destruct Hdef].
      cbn [bind] in Hdef. constructor; [|eauto].
      unfold addressable. rewrite Hb.
      apply andb_true_iff. split; [now apply Nat.leb_le|].
      apply N.ltb_lt, (Hp _ _ ltac:(rewrite Es; discriminate)).
    + destruct (map_store _ _ _ _) as [m2|] eqn:Es; [|now destruct Hdef].
      cbn [bind] in Hdef. constructor.
      * unfold addressable. rewrite Hb.
        apply andb_true_iff. split; [now apply Nat.leb_le|].
        apply N.ltb_lt, (Hp _ _ ltac:(rewrite Es; discriminate)).
      * destruct (groupLoop rest _) eqn:Er; [|now destruct Hdef].
        eapply IH. rewrite Er. discriminate.
  - constructor.
    + unfold addressable. rewrite Hb.
      apply andb_true_iff. split; [now apply Nat.leb_le|reflexivity].
    + destruct (groupLoop rest st) eqn:Er; [|now destruct Hdef].
      eapply IH. rewrite Er. discriminate.
Qed.

(** The grouping pass is defined on the addressable lists and on no
    other. *)
Lemma generateBoolGroups_defined_iff (vars : list IecVar) :
  generateBoolGroups vars <> None
  <-> Forall (fun v => addressable v = true) vars.
Proof.
  split.
  - unfold generateBoolGroups. intros Hdef.
    apply (groupLoop_defined_addressable vars noGroups).
    destruct (groupLoop vars noGroups); [discriminate|now destruct Hdef].
  - intros Hall. rewrite (generateBoolGroups_spec _ Hall). discriminate.
Qed.

(** * Further properties *)

(** ** findPositions *)

(** X1: on a name array that holds four characters, the decimal digits of
    the major index and, for some, an underscore and the digits of the minor
    index, [findPositions] returns the two numbers reduced modulo 65536, the
    minor index being 0 when the name has none. *)
Theorem findPositions_decodes_name (varName : cbuf) (p0 p1 d s : ascii)
    (major : list ascii) (minor : option (list ascii)) :
  starts_with varName
    ((p0 :: p1 :: d :: s :: major ++ minorChars minor) ++ [NUL])%list ->
  isNumeral major = true ->
  (List.length major < 100)%nat ->
  match minor with
  | Some m => isNumeral m = true /\ (List.length m < 100)%nat
  | None => True
  end ->
  findPositions varName
  = Some (Z.to_N (numeral major mod 65536),
          match minor with
          | Some m => Z.to_N (numeral m mod 65536)
          | None => 0
          end).
Proof.
  intros [r ->] Hmajor Lmajor Hminor.
  replace (buf_of_chars
             ((p0 :: p1 :: d :: s :: major ++ minorChars minor) ++ [NUL])
           ++ r)%list
    with (Some p0 :: Some p1 :: Some d :: Some s :: buf_of_chars major
          ++ match minor with
             | Some m => Some "_"%char :: buf_of_chars m ++ Some NUL :: r
             | None => Some NUL :: r
             end)%list.
  - now apply findPositions_run.
  - unfold buf_of_chars. destruct minor; cbn [minorChars];
      repeat first [rewrite map_app | rewrite <- app_assoc
                   | rewrite app_nil_r | progress cbn [map app]];
      reflexivity.
Qed.

Lemma findPositions_decodes_name_witness :
  findPositions (buf_of_chars (list_ascii_of_string "__QX65537_3" ++ [NUL])
                 ++ uninitialized 88)%list
  = Some (Z.to_N (numeral (list_ascii_of_string "65537") mod 65536),
          Z.to_N (numeral ["3"%char] mod 65536)).
Proof.
  apply (findPositions_decodes_name _ "_" "_" "Q" "X"
           (list_ascii_of_string "65537") (Some ["3"%char])).
  - exists (uninitialized 88). reflexivity.
  - reflexivity.
  - simpl. lia.
  - split; [reflexivity | simpl; lia].
Defined.

(** X2: a name that ends with the underscore, without digits after it, gets
    its major index as minor index: the second loop copies nothing, and
    [atoi] reads the digits the first loop left in [tempBuffer]. *)
Theorem findPositions_separator_without_minor (varName : cbuf)
    (p0 p1 d s : ascii) (major : list ascii) :
  starts_with varName
    ((p0 :: p1 :: d :: s :: major ++ ["_"%char]) ++ [NUL])%list ->
  isNumeral major = true ->
  (List.length major < 100)%nat ->
  findPositions varName
  = Some (to_uint16 (numeral major), to_uint16 (numeral major)).
Proof.
  intros [r ->] Hmajor Lmajor.
  destruct (isNumeral_parts _ Hmajor) as (Hne & Hd & _).
  replace (buf_of_chars
             ((p0 :: p1 :: d :: s :: major ++ ["_"%char]) ++ [NUL]) ++ r)%list
    with (Some p0 :: Some p1 :: Some d :: Some s :: buf_of_chars major
          ++ Some "_"%char :: Some NUL :: r)%list
    by (unfold buf_of_chars;
        repeat first [rewrite map_app | rewrite <- app_assoc
                     | progress cbn [map app]]; reflexivity).
  unfold findPositions. cbn [skipn].
  destruct (copy_until_run isSeparatorOrEnd major "_" (Some NUL :: r)
              (isDigit_plain_Forall _ _ isDigit_isSeparatorOrEnd Hd) eq_refl
              (uninitialized 100) [] (starts_with_nil _))
    as (t1 & E & L & _ & S).
  - rewrite uninitialized_length. simpl. lia.
  - cbn [List.length] in E. rewrite E. cbn [bind].
    rewrite (atoi_run _ _ (S Hne) Hmajor). cbn [bind].
    change ("_" =? NUL)%char with false. cbn iota.
    change (copy_until isEnd (Some NUL :: r) t1 0)
      with (Some (Some NUL :: r, t1)). cbn [bind].
    now rewrite (atoi_run _ _ (S Hne) Hmajor).
Qed.

Lemma findPositions_separator_without_minor_witness :
  findPositions (buf_of_chars (list_ascii_of_string "__IX5_" ++ [NUL])
                 ++ uninitialized 93)%list
  = Some (to_uint16 (numeral ["5"%char]), to_uint16 (numeral ["5"%char])).
Proof.
  apply (findPositions_separator_without_minor _ "_" "_" "I" "X" ["5"%char]).
  - exists (uninitialized 93). reflexivity.
  - reflexivity.
  - simpl. lia.
Defined.

(** X3: a name whose fifth character is the underscore or the terminator
    has no digit for the major index: the first loop copies nothing and
    [atoi] reads [tempBuffer], which nothing has written.  The call is
    undefined, whatever the four first cells and the rest of the array
    hold. *)
Theorem findPositions_without_major_digits
    (c0 c1 c2 c3 : option ascii) (c : ascii) (rest : cbuf) :
  isSeparatorOrEnd c = true ->
  findPositions (c0 :: c1 :: c2 :: c3 :: Some c :: rest) = None.
Proof.
  intros Hc. unfold findPositions. cbn [skipn copy_until]. rewrite Hc.
  reflexivity.
Qed.

Lemma findPositions_without_major_digits_witness :
  findPositions (buf_of_chars (list_ascii_of_string "__IX" ++ [NUL])
                 ++ uninitialized 95)%list = None
  /\ findPositions (buf_of_chars (list_ascii_of_string "__IX_3" ++ [NUL])
                    ++ uninitialized 93)%list = None.
Proof.
  split.
  - apply (findPositions_without_major_digits
             (Some "_"%char) (Some "_"%char) (Some "I"%char) (Some "X"%char)
             NUL (uninitialized 95)). reflexivity.
  - apply (findPositions_without_major_digits
             (Some "_"%char) (Some "_"%char) (Some "I"%char) (Some "X"%char)
             "_" (buf_of_chars (list_ascii_of_string "3" ++ [NUL])
                  ++ uninitialized 93)%list). reflexivity.
Defined.

(** ** parseIecVars *)

Lemma strncpy_head (head tail : string) :
  noNul (list_ascii_of_string head) ->
  (String.length head <= 1024)%nat ->
  exists post : cbuf,
    strncpy (head ++ tail) 1024
    = (buf_of_chars (list_ascii_of_string head) ++ post)%list.
Proof.
  intros Hn Hl. unfold strncpy. rewrite (c_str_app _ _ Hn), chars_app.
  rewrite firstn_app, firstn_all2 by (rewrite string_length_chars; lia).
  eexists. unfold buf_of_chars.
  rewrite <- app_assoc, map_app. reflexivity.
Qed.

Lemma noNul_app (l1 l2 : list ascii) :
  noNul l1 -> noNul l2 -> noNul (l1 ++ l2).
Proof.
  unfold noNul. intros H1 H2. apply Forall_app. now split.
Qed.

(** The array of a line that begins with a prefix, the parenthesis and two
    fields ended by commas. *)
Lemma strncpy_fields (pre ty nm tail : string) :
  noNul (list_ascii_of_string pre) ->
  noNul (list_ascii_of_string ty) ->
  noNul (list_ascii_of_string nm) ->
  (String.length pre + String.length ty + String.length nm + 3 <= 1024)%nat ->
  exists post : cbuf,
    strncpy (pre ++ "(" ++ ty ++ "," ++ nm ++ "," ++ tail) 1024
    = (buf_of_chars (list_ascii_of_string pre)
       ++ Some "("%char :: buf_of_chars (list_ascii_of_string ty)
       ++ Some ","%char :: buf_of_chars (list_ascii_of_string nm)
       ++ Some ","%char :: post)%list.
Proof.
  intros Hpre Hty Hnm Hlen.
  replace (pre ++ "(" ++ ty ++ "," ++ nm ++ "," ++ tail)
    with ((pre ++ "(" ++ ty ++ "," ++ nm ++ ",") ++ tail)
    by (repeat (rewrite append_assoc; cbn [append]); reflexivity).
  destruct (strncpy_head (pre ++ "(" ++ ty ++ "," ++ nm ++ ",") tail)
    as [post Hpost].
  - repeat (rewrite chars_app; cbn [append list_ascii_of_string]).
    apply noNul_app; [exact Hpre|]. constructor; [discriminate|].
    apply noNul_app; [exact Hty|]. constructor; [discriminate|].
    apply noNul_app; [exact Hnm|]. constructor; [discriminate|constructor].
  - rewrite <- string_length_chars.
    repeat (rewrite chars_app; cbn [append list_ascii_of_string]).
    repeat (rewrite length_app; cbn [List.length]).
    rewrite !string_length_chars. lia.
  - exists post. rewrite Hpost. unfold buf_of_chars.
    repeat (rewrite chars_app; cbn [append list_ascii_of_string]).
    repeat first [rewrite map_app | rewrite <- app_assoc
                 | progress cbn [map app]].
    reflexivity.
Qed.

Lemma not_in_chars (c : ascii) (s : string) :
  forallb (fun x => negb (x =? c)%char) (list_ascii_of_string s) = true ->
  ~ In c (list_ascii_of_string s).
Proof.
  intros H Hin. rewrite forallb_forall in H. apply H in Hin.
  now rewrite Ascii.eqb_refl in Hin.
Qed.

Lemma noNul_chars (s : string) :
  forallb (fun x => negb (x =? NUL)%char) (list_ascii_of_string s) = true ->
  noNul (list_ascii_of_string s).
Proof.
  intros H. apply Forall_forall. intros c Hc Heq. subst c.
  now apply (not_in_chars NUL s H).
Qed.

Lemma chars_nonempty (s : string) :
  s <> EmptyString -> list_ascii_of_string s <> [].
Proof.
  destruct s; [contradiction|discriminate].
Qed.

(** X4: a line made of a prefix without parenthesis, the parenthesis, a type
    and a name each followed by a comma, and any tail, is parsed: the call
    returns 1, leaves the rest of the stream, has appended the whole line to
    the checksum, and the two arrays hold the name and the type.  The
    fields are not empty, have neither comma nor terminator, and fit their
    arrays with their terminator; the line up to the second comma fits the
    line array of 1024 characters. *)
Theorem parseIecVars_reads_type_and_name {H : Md5}
    (pre ty nm tail : string) (rest : list string)
    (varName varType : cbuf) (md5_state : md5_state_s) :
  forallb (fun x => negb (x =? NUL)%char && negb (x =? "(")%char)
          (list_ascii_of_string pre) = true ->
  forallb (fun x => negb (x =? NUL)%char && negb (x =? ",")%char)
          (list_ascii_of_string ty) = true ->
  forallb (fun x => negb (x =? NUL)%char && negb (x =? ",")%char)
          (list_ascii_of_string nm) = true ->
  ty <> EmptyString -> nm <> EmptyString ->
  (String.length ty < List.length varType)%nat ->
  (String.length nm < List.length varName)%nat ->
  (String.length pre + String.length ty + String.length nm + 3 <= 1024)%nat ->
  exists varName' varType',
    parseIecVars ((pre ++ "(" ++ ty ++ "," ++ nm ++ "," ++ tail) :: rest)
                 varName varType md5_state
    = Some (1%Z, rest, varName', varType',
            md5_append md5_state
              (pre ++ "(" ++ ty ++ "," ++ nm ++ "," ++ tail))
    /\ cstring varName' = Some nm
    /\ cstring varType' = Some ty.
Proof.
  intros Hpre Hty Hnm Ety Enm Lty Lnm Hlen.
  assert (Hsplit : forall (c : ascii) (s : string),
            forallb (fun x => negb (x =? NUL)%char && negb (x =? c)%char)
                    (list_ascii_of_string s) = true ->
            noNul (list_ascii_of_string s) /\ ~ In c (list_ascii_of_string s)).
  { intros c s Hs. split.
    - apply noNul_chars, forallb_forall. intros x Hx.
      rewrite forallb_forall in Hs. apply Hs in Hx.
      now apply andb_true_iff in Hx.
    - apply not_in_chars, forallb_forall. intros x Hx.
      rewrite forallb_forall in Hs. apply Hs in Hx.
      now apply andb_true_iff in Hx. }
  destruct (Hsplit _ _ Hpre) as [Npre Ppre].
  destruct (Hsplit _ _ Hty) as [Nty Cty].
  destruct (Hsplit _ _ Hnm) as [Nnm Cnm].
  destruct (strncpy_fields pre ty nm tail Npre Nty Nnm Hlen) as [post Hbuf].
  destruct (scanLine_run _ _ _ _ post varName varType Hbuf Ppre Cty Cnm
              (chars_nonempty _ Ety) (chars_nonempty _ Enm))
    as (varName' & varType' & E & _ & _ & Sn & St).
  - now rewrite string_length_chars.
  - now rewrite string_length_chars.
  - exists varName', varType'. cbn [parseIecVars]. rewrite E. cbn [bind].
    split; [reflexivity|]. split.
    + rewrite (cstring_starts_with _ _ Sn Nnm).
      now rewrite string_of_list_ascii_of_string.
    + rewrite (cstring_starts_with _ _ St Nty).
      now rewrite string_of_list_ascii_of_string.
Qed.

Lemma parseIecVars_reads_type_and_name_witness :
  exists varName' varType',
    parseIecVars (H := md5_rfc1321)
      (("// " ++ "(" ++ "UINT" ++ "," ++ "__QW12" ++ "," ++ "Q,W,12)")
       :: ["next"])
      zeroed (uninitialized 100) md5_init
    = Some (1%Z, ["next"], varName', varType',
            md5_append md5_init
              ("// " ++ "(" ++ "UINT" ++ "," ++ "__QW12" ++ ","
               ++ "Q,W,12)"))
    /\ cstring varName' = Some "__QW12"
    /\ cstring varType' = Some "UINT".
Proof.
  apply (parseIecVars_reads_type_and_name (H := md5_rfc1321)
           "// " "UINT" "__QW12" "Q,W,12)" ["next"]
           zeroed (uninitialized 100) md5_init);
    try reflexivity; try discriminate; simpl; lia.
Defined.

(** The copying loop does not look behind the stopping character. *)
Lemma copy_until_behind_stop (stop : ascii -> bool) (cs : list ascii)
    (c : ascii) (after1 after2 : cbuf) :
  Forall (fun x => stop x = false) cs -> stop c = true ->
  forall (dst : cbuf) (j : nat),
    copy_until stop (buf_of_chars cs ++ Some c :: after2)%list dst j
    = option_map (fun r => (Some c :: after2, snd r))
        (copy_until stop (buf_of_chars cs ++ Some c :: after1)%list dst j).
Proof.
  intros Hcs Hc. induction Hcs as [|x cs Hx _ IH]; intros dst j.
  - cbn [buf_of_chars map app copy_until]. now rewrite Hc.
  - cbn [buf_of_chars map app copy_until]. rewrite Hx.
    destruct (buf_write dst j x) as [dst1|]; [|reflexivity]. cbn [bind].
    destruct (buf_write dst1 (S j) NUL) as [dst2|]; [|reflexivity].
    cbn [bind]. apply IH.
Qed.

(** X5: what follows the second comma of a line is not looked at: two lines
    whose arrays agree up to that comma leave the two arrays in the same
    state, or are both undefined. *)
Theorem scanLine_ignores_what_follows_the_name
    (line1 line2 : string) (pre ty nm : list ascii) (post1 post2 : cbuf)
    (varName varType : cbuf) :
  strncpy line1 1024
  = (buf_of_chars pre ++ Some "("%char :: buf_of_chars ty
     ++ Some ","%char :: buf_of_chars nm ++ Some ","%char :: post1)%list ->
  strncpy line2 1024
  = (buf_of_chars pre ++ Some "("%char :: buf_of_chars ty
     ++ Some ","%char :: buf_of_chars nm ++ Some ","%char :: post2)%list ->
  ~ In "("%char pre -> ~ In ","%char ty -> ~ In ","%char nm ->
  scanLine line1 varName varType = scanLine line2 varName varType.
Proof.
  intros E1 E2 Hpre Hty Hnm. unfold scanLine.
  rewrite E1, E2, !(seek_run _ _ _ Hpre). cbn [bind tl].
  rewrite (copy_until_behind_stop isComma ty ","
             (buf_of_chars nm ++ Some ","%char :: post1)%list
             (buf_of_chars nm ++ Some ","%char :: post2)%list
             (not_comma_Forall _ Hty) eq_refl).
  destruct (copy_until isComma
              (buf_of_chars ty ++ Some ","%char
               :: buf_of_chars nm ++ Some ","%char :: post1)%list varType 0)
    as [[s1 t1]|] eqn:Et; cbn [option_map bind snd tl]; [|reflexivity].
  assert (Hs1 : s1 = (Some ","%char
                      :: buf_of_chars nm ++ Some ","%char :: post1)%list).
  { destruct (copy_until_spec _ _ varType [] _ _ Et (starts_with_nil _))
      as (cs & c & after & Hsrc & -> & Hc & Hcs & _).
    apply isComma_spec in Hc. subst c.
    clear -Hsrc Hcs Hty. revert cs Hsrc Hcs.
    induction ty as [|x ty IH]; intros [|y cs] Hsrc Hcs; cbn in Hsrc.
    - exact (eq_sym Hsrc).
    - injection Hsrc as <- _. inversion Hcs; subst. discriminate.
    - injection Hsrc as -> _. destruct Hty. now left.
    - injection Hsrc as <- Hsrc. inversion Hcs; subst.
      apply (IH (fun H => Hty (or_intror H)) cs); assumption. }
  subst s1. cbn [tl].
  rewrite (copy_until_behind_stop isComma nm "," post1 post2
             (not_comma_Forall _ Hnm) eq_refl).
  destruct (copy_until isComma (buf_of_chars nm ++ Some ","%char :: post1)%list
              varName 0) as [[s2 n2]|]; reflexivity.
Qed.

Lemma scanLine_ignores_what_follows_the_name_witness :
  scanLine "__LOCATED_VAR(INT,__IW3,I,W,3)" zeroed zeroed
  = scanLine "__LOCATED_VAR(INT,__IW3,anything" zeroed zeroed.
Proof.
  apply (scanLine_ignores_what_follows_the_name _ _
           (list_ascii_of_string "__LOCATED_VAR")
           (list_ascii_of_string "INT") (list_ascii_of_string "__IW3")
           (buf_of_chars (list_ascii_of_string "I,W,3)" ++ repeat NUL 994))
           (buf_of_chars (list_ascii_of_string "anything" ++ repeat NUL 992))).
  - vm_compute. reflexivity.
  - vm_compute. reflexivity.
  - simpl. intuition discriminate.
  - simpl. intuition discriminate.
  - simpl. intuition discriminate.
Defined.

(** The copying loop leaves the array when the characters to copy and their
    terminator do not fit. *)
Lemma copy_until_overflow (stop : ascii -> bool) (cs : list ascii)
    (rest : cbuf) :
  Forall (fun x => stop x = false) cs -> cs <> [] ->
  forall (dst : cbuf) (j : nat),
    (List.length dst <= j + List.length cs)%nat ->
    copy_until stop (buf_of_chars cs ++ rest)%list dst j = None.
Proof.
  intros Hcs. induction Hcs as [|x cs Hx Hcs IH]; intros Hne dst j Hlen;
    [contradiction|].
  cbn [buf_of_chars map app copy_until]. rewrite Hx.
  destruct (buf_write dst j x) as [dst1|] eqn:E1; [|reflexivity].
  cbn [bind]. pose proof (buf_write_length _ _ _ _ E1) as L1.
  destruct (buf_write dst1 (S j) NUL) as [dst2|] eqn:E2; [|reflexivity].
  cbn [bind]. pose proof (buf_write_length _ _ _ _ E2) as L2.
  assert (Hj : (S j < List.length dst1)%nat).
  { destruct (Nat.lt_ge_cases (S j) (List.length dst1)) as [Hlt|Hge];
      [exact Hlt|].
    assert (Hd : buf_write dst1 (S j) NUL <> None) by (rewrite E2; discriminate).
    exfalso. clear -Hge Hd. revert Hge Hd. generalize (S j).
    induction dst1 as [|y l IHl]; intros [|n] Hge Hd; simpl in *;
      try lia; try (now apply Hd).
    destruct (buf_write l n NUL) eqn:E; [|now apply Hd].
    apply (IHl n); [lia|]. rewrite E. discriminate. }
  destruct cs as [|y cs].
  - simpl in Hlen. lia.
  - apply IH; [discriminate|]. simpl in *. lia.
Qed.

(** X6: a type field that does not fit the array [varType] with its
    terminator makes the call undefined, and so does a name field that does
    not fit [varName]; with the arrays of [generateBody] this is a field of
    100 characters or more. *)
Theorem scanLine_field_too_long
    (line : string) (pre ty nm : list ascii) (post : cbuf)
    (varName varType : cbuf) :
  strncpy line 1024
  = (buf_of_chars pre ++ Some "("%char :: buf_of_chars ty
     ++ Some ","%char :: buf_of_chars nm ++ Some ","%char :: post)%list ->
  ~ In "("%char pre -> ~ In ","%char ty -> ~ In ","%char nm ->
  ty <> [] -> nm <> [] ->
  (List.length varType <= List.length ty)%nat
  \/ (List.length varName <= List.length nm)%nat ->
  scanLine line varName varType = None.
Proof.
  intros E Hpre Hty Hnm Ety Enm Hlong. unfold scanLine.
  rewrite E, (seek_run _ _ _ Hpre). cbn [bind tl].
  destruct (Nat.le_gt_cases (List.length varType) (List.length ty))
    as [Hl|Hfit].
  - now rewrite (copy_until_overflow isComma ty _
                   (not_comma_Forall _ Hty) Ety varType 0 Hl).
  - destruct Hlong as [Hl|Hl]; [lia|].
    destruct (copy_until_run isComma ty ","
                (buf_of_chars nm ++ Some ","%char :: post)%list
                (not_comma_Forall _ Hty) eq_refl varType []
                (starts_with_nil _) Hfit) as (t' & Et & _).
    cbn [List.length] in Et. rewrite Et. cbn [bind tl].
    now rewrite (copy_until_overflow isComma nm _
                   (not_comma_Forall _ Hnm) Enm varName 0 Hl).
Qed.

Lemma scanLine_field_too_long_witness :
  scanLine ("(" ++ string_of_list_ascii (repeat "A"%char 100) ++ ",n,")
           (uninitialized 100) (uninitialized 100) = None.
Proof.
  apply (scanLine_field_too_long _ [] (repeat "A"%char 100) ["n"%char]
           (buf_of_chars (repeat NUL 920))).
  - vm_compute. reflexivity.
  - simpl. tauto.
  - intros Hin. apply repeat_spec in Hin. discriminate.
  - simpl. intuition discriminate.
  - discriminate.
  - discriminate.
  - left. rewrite repeat_length. simpl. lia.
Defined.

(** ** Lines without parenthesis *)

Lemma seek_absent (c : ascii) (l : list ascii) :
  ~ In c l -> seek c (buf_of_chars l) = None.
Proof.
  induction l as [|x l IH]; intros Hin; [reflexivity|].
  cbn [buf_of_chars map seek].
  destruct (Ascii.eqb_spec x c) as [->|_]; [destruct Hin; now left|].
  apply IH. intros H. apply Hin. now right.
Qed.

Lemma firstn_member {A : Type} (n : nat) (l : list A) (a : A) :
  In a (firstn n l) -> In a l.
Proof.
  revert n; induction l as [|x l IH]; intros [|n]; simpl; try tauto.
  intros [E|E]; [now left | right; eauto].
Qed.

Lemma c_str_In (c : ascii) (s : string) :
  In c (list_ascii_of_string (c_str s)) -> In c (list_ascii_of_string s).
Proof.
  induction s as [|x s IH]; simpl; [tauto|].
  destruct (x =? NUL)%char; simpl; [tauto|]. intros [E|E]; auto.
Qed.

Lemma scanLine_without_parenthesis (line : string) (varName varType : cbuf) :
  ~ In "("%char (list_ascii_of_string line) ->
  scanLine line varName varType = None.
Proof.
  intros Hin. unfold scanLine, strncpy. rewrite seek_absent; [reflexivity|].
  intros H. apply in_app_or in H as [H|H].
  - apply Hin, c_str_In. eapply firstn_member; eassumption.
  - apply repeat_spec in H. discriminate.
Qed.

Lemma readVars_undefined_line {H : Md5} (locatedVars : list string)
    (line : string) :
  In line locatedVars ->
  (forall varName varType, scanLine line varName varType = None) ->
  forall (varName varType : cbuf) (st : md5_state_s),
    readVars locatedVars varName varType st = None.
Proof.
  intros Hin Hline.
  induction locatedVars as [|l rest IH]; intros varName varType st; [easy|].
  cbn [readVars]. destruct Hin as [->|Hin].
  - now rewrite Hline.
  - destruct (scanLine l varName varType) as [[n t]|]; [|reflexivity].
    cbn [bind]. destruct (cstring n); [|reflexivity]. cbn [bind].
    destruct (cstring t); [|reflexivity]. cbn [bind].
    destruct (findPositions n) as [[p1 p2]|]; [|reflexivity]. cbn [bind].
    now rewrite (IH Hin).
Qed.

(** X7: a file with a line that has no opening parenthesis, a blank line or
    a comment for instance, makes the run undefined: the search for the
    parenthesis leaves the line array. *)
Theorem generateBody_line_without_parenthesis {H : Md5}
    (locatedVars line : string) :
  In line (split_lines locatedVars) ->
  ~ In "("%char (list_ascii_of_string line) ->
  generateBody locatedVars = None.
Proof.
  intros Hin Hline. unfold generateBody.
  rewrite (readVars_undefined_line _ line Hin); [reflexivity|].
  intros n t. now apply scanLine_without_parenthesis.
Qed.

Lemma generateBody_line_without_parenthesis_witness :
  generateBody (H := md5_rfc1321)
    ("__LOCATED_VAR(BOOL,__IX0_0,I,X,0,0)" ++ endl ++ endl) = None.
Proof.
  apply (generateBody_line_without_parenthesis (H := md5_rfc1321) _ "").
  - simpl. tauto.
  - simpl. tauto.
Defined.

(** ** glueVar *)

Lemma str_at_NUL_length (s : string) :
  forall (i : nat) (c : ascii),
    str_at s i = Some c -> c <> NUL -> (i < String.length s)%nat.
Proof.
  induction s as [|x s IH]; intros [|i] c E Hc; simpl.
  - injection E as <-. contradiction.
  - discriminate E.
  - lia.
  - rewrite str_at_cons in E. apply (IH _ _ E) in Hc. lia.
Qed.

(** X8: [glueVar] reads the third character of the name, and the fourth
    when the third is a direction letter: it is defined exactly on the
    names of two characters or more. *)
Theorem glueVar_defined_iff (varName : string) (p1 p2 : N) :
  glueVar varName p1 p2 <> None <-> (2 <= String.length varName)%nat.
Proof.
  split.
  - unfold glueVar. intros Hdef.
    destruct (str_at varName 2) as [d|] eqn:E2; [|now destruct Hdef].
    now apply str_at_length in E2.
  - intros Hlen. unfold glueVar.
    destruct (str_at varName 2) as [d|] eqn:E2;
      [|now apply str_at_defined in E2].
    cbn [bind].
    assert (H3 : d <> NUL -> str_at varName 3 <> None).
    { intros Hd. apply str_at_defined.
      pose proof (str_at_NUL_length _ _ _ E2 Hd). lia. }
    destruct (Ascii.eqb_spec d "I") as [->|_].
    { destruct (str_at varName 3); [|now destruct H3]. cbn [bind].
      repeat match goal with
             | |- context [if ?b then _ else _] => destruct b
             end; discriminate. }
    destruct (Ascii.eqb_spec d "Q") as [->|_].
    { destruct (str_at varName 3); [|now destruct H3]. cbn [bind].
      repeat match goal with
             | |- context [if ?b then _ else _] => destruct b
             end; discriminate. }
    destruct (Ascii.eqb_spec d "M") as [->|_]; [|discriminate].
    destruct (str_at varName 3); [|now destruct H3]. cbn [bind].
    repeat match goal with
           | |- context [if ?b then _ else _] => destruct b
           end; discriminate.
Qed.

(** X9: the minor index enters the statement of a bit-addressed input or
    output only.  For every other size flag the statement [glueVar] writes
    is the same for all minor indices; only the warning depends on them. *)
Theorem glueVar_statement_ignores_minor_index
    (varName : string) (p1 p2 p2' : N) (s : ascii) :
  str_at varName 3 = Some s -> s <> "X"%char ->
  option_map snd (glueVar varName p1 p2)
  = option_map snd (glueVar varName p1 p2').
Proof.
  intros E3 Hs. unfold glueVar.
  destruct (str_at varName 2) as [d|]; [|reflexivity]. cbn [bind].
  rewrite E3. cbn [bind].
  destruct (Ascii.eqb_spec s "X") as [->|_]; [contradiction|].
  repeat match goal with
         | |- context [if ?b then _ else _] => destruct b
         end; reflexivity.
Qed.

Lemma glueVar_statement_ignores_minor_index_witness :
  option_map snd (glueVar "__QW7_9" 7 9)
  = option_map snd (glueVar "__QW7_9" 7 0).
Proof.
  apply (glueVar_statement_ignores_minor_index "__QW7_9" 7 9 0 "W").
  - reflexivity.
  - discriminate.
Defined.

(** ** The direction of a group *)

Lemma containerOf_letter (d : ascii) :
  d = containerLetter (containerOf d)
  <-> d = "I"%char \/ d = "Q"%char \/ d = "M"%char.
Proof.
  unfold containerOf.
  destruct (Ascii.eqb_spec d "I") as [->|HI]; [simpl; tauto|].
  destruct (Ascii.eqb_spec d "Q") as [->|HQ]; [simpl; tauto|].
  simpl. split; [tauto|]. intros [E|[E|E]]; tauto.
Qed.

(** X10: the three places that read the direction flag agree on the letters
    I and Q and take every other character as memory: the table row prints
    the direction of the map the declaration is grouped in.  The entry of a
    group keeps the character itself in its name, while the group constant
    is named after the map: the name in the table row is the name of the
    pointer written for the group exactly when the flag is I, Q or M. *)
Theorem direction_flag_in_row_map_and_group_name (d : ascii) (k : N) :
  fromDirectionFlag d = directionText (containerOf d)
  /\ (specialName d k = "__" ++ groupName (containerLetter (containerOf d)) k
      <-> d = "I"%char \/ d = "Q"%char \/ d = "M"%char).
Proof.
  split.
  - unfold fromDirectionFlag, containerOf.
    destruct (d =? "I")%char; [reflexivity|].
    destruct (d =? "Q")%char; reflexivity.
  - rewrite <- containerOf_letter. unfold specialName, groupName, chr.
    cbn [append]. split.
    + intros E. now injection E.
    + intros <-. reflexivity.
Qed.

(** The pointer of a group is written under the name the theorem uses. *)
Lemma renderGroup_pointer_name (c : Container) (g : N * slots) :
  exists before,
    renderGroup (containerLetter c) g
    = before ++ "GlueBoolGroup* __" ++ groupName (containerLetter c) (fst g)
      ++ "(&___" ++ groupName (containerLetter c) (fst g) ++ ");" ++ endl.
Proof.
  unfold renderGroup. eexists.
  repeat rewrite <- append_assoc. reflexivity.
Qed.

Lemma renderContainers_letters (st : Containers) :
  renderContainers st
  = generateBoolGroups_dir (containerLetter Inputs) (deref Inputs st)
    ++ generateBoolGroups_dir (containerLetter Outputs) (deref Outputs st)
    ++ generateBoolGroups_dir (containerLetter Memory) (deref Memory st).
Proof.
  reflexivity.
Qed.

(** ** The hexadecimal pairs *)

(** X11: for a byte, the loop body of [generateChecksum] writes two quoted
    upper-case hexadecimal digits, the high one first, that denote the
    byte. *)
Theorem hexPair_denotes_the_byte (b : Z) :
  isByte b = true ->
  exists hi lo vh vl,
    hexPair b = Some (quoted hi ++ quoted lo)
    /\ hexValue hi = Some vh /\ hexValue lo = Some vl
    /\ (16 * vh + vl = b)%Z.
Proof.
  intros Hb.
  assert (Hall : forallb
            (fun n =>
               match nth_error hex_chars
                       (Z.to_nat (Z.shiftr (Z.land (Z.of_nat n) 240) 4)),
                     nth_error hex_chars
                       (Z.to_nat (Z.shiftr (Z.land (Z.of_nat n) 15) 0)) with
               | Some hi, Some lo =>
                   match hexValue hi, hexValue lo with
                   | Some vh, Some vl => (16 * vh + vl =? Z.of_nat n)%Z
                   | _, _ => false
                   end
               | _, _ => false
               end) (seq 0 256) = true)
    by (vm_compute; reflexivity).
  rewrite forallb_forall in Hall.
  unfold isByte in Hb. apply andb_true_iff in Hb as [H0 H1].
  apply Z.leb_le in H0. apply Z.ltb_lt in H1.
  specialize (Hall (Z.to_nat b)). rewrite Z2Nat.id in Hall by assumption.
  assert (Hin : In (Z.to_nat b) (seq 0 256)) by (apply in_seq; lia).
  specialize (Hall Hin). unfold hexPair.
  destruct (nth_error hex_chars (Z.to_nat (Z.shiftr (Z.land b 240) 4)))
    as [hi|]; [|discriminate].
  destruct (nth_error hex_chars (Z.to_nat (Z.shiftr (Z.land b 15) 0)))
    as [lo|]; [|discriminate].
  destruct (hexValue hi) as [vh|] eqn:Eh; [|discriminate].
  destruct (hexValue lo) as [vl|] eqn:El; [|discriminate].
  apply Z.eqb_eq in Hall. exists hi, lo, vh, vl. cbn [bind].
  repeat split; auto.
Qed.

Lemma hexPair_denotes_the_byte_witness :
  exists hi lo vh vl,
    hexPair 171 = Some (quoted hi ++ quoted lo)
    /\ hexValue hi = Some vh /\ hexValue lo = Some vl
    /\ (16 * vh + vl = 171)%Z.
Proof.
  apply (hexPair_denotes_the_byte 171). reflexivity.
Defined.

(** ** What the slots hold *)

Lemma hasGroup_find (st : Containers) (c : Container) (k : N) :
  hasGroup st c k = false -> map_find k (deref c st) = None.
Proof.
  unfold hasGroup. now destruct (map_find k (deref c st)).
Qed.

Lemma nth_error_emptySlots (i : N) :
  (i < 8)%N -> nth_error emptySlots (N.to_nat i) = Some EmptyString.
Proof.
  intros Hi.
  assert (Hn : (N.to_nat i < 8)%nat) by lia.
  revert Hn. generalize (N.to_nat i). intros n Hn.
  do 8 (destruct n as [|n]; [reflexivity|]). lia.
Qed.

Lemma slotOf_record_new (v : IecVar) (st : Containers) (i : N) :
  hasGroup st (containerOf (directionFlagOf v)) (pos1 v) = false ->
  pos2 v <> i -> (i < 8)%N ->
  slotOf (record v st) (containerOf (directionFlagOf v)) (pos1 v) i
  = Some EmptyString.
Proof.
  intros Hg Hne Hi. unfold slotOf, record. rewrite deref_assign.
  destruct (container_eqb_spec (containerOf (directionFlagOf v))
                               (containerOf (directionFlagOf v)));
    [|contradiction].
  rewrite map_find_set, N.eqb_refl. cbn [bind].
  unfold map_at. rewrite (hasGroup_find _ _ _ Hg).
  rewrite set_nth_other by lia. now apply nth_error_emptySlots.
Qed.

Lemma inGroup_parts (c : Container) (k : N) (w : IecVar) :
  inGroup c k w = true ->
  bitAddressed w = true /\ containerOf (directionFlagOf w) = c /\ pos1 w = k.
Proof.
  unfold inGroup. intros E.
  apply andb_true_iff in E as [E E3]. apply andb_true_iff in E as [E1 E2].
  apply N.eqb_eq in E3.
  destruct (container_eqb_spec (containerOf (directionFlagOf w)) c);
    [auto|discriminate].
Qed.

Lemma lastWriter_cons (c : Container) (k i : N) (v : IecVar)
    (vars : list IecVar) (s : string) :
  lastWriter c k i (v :: vars) s
  = lastWriter c k i vars
      (if inGroup c k v && (pos2 v =? i)%N then name v else s).
Proof.
  reflexivity.
Qed.

(** The slot [i] of the group [(c, k)] along the loop: [s] is what the slot
    holds when the group exists, and the empty string when it does not. *)
Lemma slotOf_recorded (c : Container) (k i : N) (vars : list IecVar) :
  (i < 8)%N ->
  Forall (fun v => addressable v = true) vars ->
  forall (st : Containers) (s : string),
    wellFormed st ->
    (if hasGroup st c k then slotOf st c k i = Some s else s = EmptyString) ->
    if hasGroup (recorded vars st) c k
    then slotOf (recorded vars st) c k i = Some (lastWriter c k i vars s)
    else lastWriter c k i vars s = EmptyString.
Proof.
  intros Hi Hall. induction Hall as [|v rest Hv _ IH]; intros st s Hw Hs;
    [exact Hs|].
  cbn [recorded fold_left]. fold (recorded rest (recordIfBit st v)).
  rewrite lastWriter_cons.
  apply IH; [now apply wellFormed_step|].
  unfold recordIfBit.
  destruct (bitAddressed v) eqn:Hb;
    [|unfold inGroup; rewrite Hb; exact Hs].
  rewrite hasGroup_record.
  destruct (inGroup c k v) eqn:Hg.
  - destruct (inGroup_parts _ _ _ Hg) as (_ & <- & <-).
    destruct (container_eqb_spec (containerOf (directionFlagOf v))
                                 (containerOf (directionFlagOf v)));
      [|contradiction].
    rewrite N.eqb_refl, orb_true_r. cbn [andb].
    destruct (N.eqb_spec (pos2 v) i) as [<-|Hne].
    + apply slotOf_record_same; [exact Hw|now apply addressable_bit].
    + destruct (hasGroup st _ _) eqn:Hh.
      * apply slotOf_record_other; [exact Hs|].
        apply andb_false_iff. right. now apply N.eqb_neq.
      * subst s. now apply slotOf_record_new.
  - cbn [andb].
    assert (Hk : container_eqb (containerOf (directionFlagOf v)) c
                 && (pos1 v =? k)%N = false).
    { unfold inGroup in Hg. now rewrite Hb in Hg. }
    rewrite Hk, orb_false_r.
    destruct (hasGroup st c k); [|exact Hs].
    apply slotOf_record_other; [exact Hs|]. now rewrite Hk.
Qed.

Lemma lastWriter_none (c : Container) (k i : N) (vars : list IecVar) :
  forall s : string,
    existsb (fun w => inGroup c k w && (pos2 w =? i)%N) vars = false ->
    lastWriter c k i vars s = s.
Proof.
  induction vars as [|v rest IH]; intros s Hno; [reflexivity|].
  simpl in Hno. apply orb_false_iff in Hno as [Hv Hrest].
  rewrite lastWriter_cons, Hv. now apply IH.
Qed.

(** X12: after the grouping loop there is a group for a direction and a
    major index exactly when a bit-addressed declaration has them, and its
    slot [i] holds the name of the last declaration with that direction,
    major index and minor index [i], or the empty string, written
    [nullptr], when no declaration has them. *)
Theorem slots_hold_the_last_name_of_each_address
    (vars : list IecVar) (c : Container) (k i : N) :
  Forall (fun v => addressable v = true) vars ->
  (i < 8)%N ->
  exists (vars' : list IecVar) (st : Containers),
    groupLoop vars noGroups = Some (vars', st)
    /\ (existsb (inGroup c k) vars = false ->
        map_find k (deref c st) = None)
    /\ (existsb (inGroup c k) vars = true ->
        exists a,
          map_find k (deref c st) = Some a
          /\ nth_error a (N.to_nat i) = Some (lastWriter c k i vars "")
          /\ (existsb (fun w => inGroup c k w && (pos2 w =? i)%N) vars = false
              -> nth_error (map renderSlot a) (N.to_nat i)
                 = Some "nullptr, ")).
Proof.
  intros Hall Hi.
  exists (aggregated [] vars), (recorded vars noGroups).
  split; [exact (groupLoop_spec _ _ _ Hall tracks_nil)|].
  pose proof (tracks_recorded vars [] noGroups tracks_nil c k) as Ht.
  simpl in Ht.
  pose proof (slotOf_recorded c k i vars Hi Hall noGroups ""
                wellFormed_nil) as Hs.
  assert (H0 : hasGroup noGroups c k = false) by (now destruct c).
  rewrite H0 in Hs. specialize (Hs eq_refl). rewrite Ht in *.
  split.
  - intros He. rewrite <- Ht in He. now apply hasGroup_find.
  - intros He. rewrite He in Hs. unfold slotOf in Hs.
    destruct (map_find k (deref c (recorded vars noGroups))) as [a|];
      [|discriminate].
    cbn [bind] in Hs. exists a. repeat split; auto.
    intros Hno. rewrite nth_error_map, Hs.
    now rewrite (lastWriter_none _ _ _ _ "" Hno).
Qed.

Lemma slots_hold_the_last_name_of_each_address_witness :
  exists (vars' : list IecVar) (st : Containers),
    groupLoop [mkIecVar "__QX4_2" "BOOL" 4 2; mkIecVar "__QX4_5" "BOOL" 4 5;
               mkIecVar "__QX04_2" "BOOL" 4 2] noGroups = Some (vars', st)
    /\ (existsb (inGroup Outputs 4)
          [mkIecVar "__QX4_2" "BOOL" 4 2; mkIecVar "__QX4_5" "BOOL" 4 5;
           mkIecVar "__QX04_2" "BOOL" 4 2] = false ->
        map_find 4 (deref Outputs st) = None)
    /\ (existsb (inGroup Outputs 4)
          [mkIecVar "__QX4_2" "BOOL" 4 2; mkIecVar "__QX4_5" "BOOL" 4 5;
           mkIecVar "__QX04_2" "BOOL" 4 2] = true ->
        exists a,
          map_find 4 (deref Outputs st) = Some a
          /\ nth_error a (N.to_nat 2)
             = Some (lastWriter Outputs 4 2
                       [mkIecVar "__QX4_2" "BOOL" 4 2;
                        mkIecVar "__QX4_5" "BOOL" 4 5;
                        mkIecVar "__QX04_2" "BOOL" 4 2] "")
          /\ (existsb (fun w => inGroup Outputs 4 w && (pos2 w =? 2)%N)
                [mkIecVar "__QX4_2" "BOOL" 4 2; mkIecVar "__QX4_5" "BOOL" 4 5;
                 mkIecVar "__QX04_2" "BOOL" 4 2] = false
              -> nth_error (map renderSlot a) (N.to_nat 2)
                 = Some "nullptr, ")).
Proof.
  apply (slots_hold_the_last_name_of_each_address
           [mkIecVar "__QX4_2" "BOOL" 4 2; mkIecVar "__QX4_5" "BOOL" 4 5;
            mkIecVar "__QX04_2" "BOOL" 4 2] Outputs 4 2).
  - repeat constructor.
  - reflexivity.
Defined.

(** ** A second grouping pass *)

Lemma bitAddressed_groupEntry (v : IecVar) : bitAddressed (groupEntry v) = false.
Proof.
  reflexivity.
Qed.

Lemma addressable_groupEntry (v : IecVar) : addressable (groupEntry v) = true.
Proof.
  reflexivity.
Qed.

Lemma aggregated_no_bit (vars : list IecVar) :
  forall earlier : list IecVar,
    Forall (fun v => bitAddressed v = false) (aggregated earlier vars).
Proof.
  induction vars as [|v rest IH]; intros earlier; [constructor|].
  cbn [aggregated]. apply Forall_app. split; [|apply IH].
  destruct (bitAddressed v) eqn:Hb; cbn [negb].
  - destruct (existsb (sameGroup v) earlier); repeat constructor.
  - now repeat constructor.
Qed.

Lemma aggregated_addressable (vars : list IecVar) :
  forall earlier : list IecVar,
    Forall (fun v => addressable v = true) vars ->
    Forall (fun v => addressable v = true) (aggregated earlier vars).
Proof.
  induction vars as [|v rest IH]; intros earlier Hall; [constructor|].
  inversion Hall; subst. cbn [aggregated]. apply Forall_app.
  split; [|now apply IH].
  destruct (negb (bitAddressed v)); [now repeat constructor|].
  destruct (existsb (sameGroup v) earlier); repeat constructor.
Qed.

Lemma aggregated_without_bit (vars : list IecVar) :
  Forall (fun v => bitAddressed v = false) vars ->
  forall earlier : list IecVar, aggregated earlier vars = vars.
Proof.
  induction 1 as [|v rest Hv _ IH]; intros earlier; [reflexivity|].
  cbn [aggregated]. rewrite Hv, IH. reflexivity.
Qed.

Lemma recorded_without_bit (vars : list IecVar) :
  Forall (fun v => bitAddressed v = false) vars ->
  forall st : Containers, recorded vars st = st.
Proof.
  induction 1 as [|v rest Hv _ IH]; intros st; [reflexivity|].
  cbn [recorded fold_left]. unfold recordIfBit. rewrite Hv. apply IH.
Qed.

(** X13: the list the grouping pass leaves holds no bit-addressed
    declaration, the entries of the groups having the size flag G: a second
    pass over it writes no group constant and leaves it as it is. *)
Theorem second_grouping_pass_changes_nothing (vars : list IecVar) :
  Forall (fun v => addressable v = true) vars ->
  exists (groups : string) (vars' : list IecVar),
    generateBoolGroups vars = Some (groups, vars')
    /\ Forall (fun v => bitAddressed v = false) vars'
    /\ generateBoolGroups vars' = Some ("", vars').
Proof.
  intros Hall.
  exists (renderContainers (recorded vars noGroups)), (aggregated [] vars).
  split; [now apply generateBoolGroups_spec|].
  split; [apply aggregated_no_bit|].
  rewrite (generateBoolGroups_spec _ (aggregated_addressable _ [] Hall)).
  rewrite (recorded_without_bit _ (aggregated_no_bit vars [])).
  now rewrite (aggregated_without_bit _ (aggregated_no_bit vars [])).
Qed.

Lemma second_grouping_pass_changes_nothing_witness :
  exists (groups : string) (vars' : list IecVar),
    generateBoolGroups
      [mkIecVar "__IX0_0" "BOOL" 0 0; mkIecVar "__MD2" "DINT" 2 0;
       mkIecVar "__IX0_7" "BOOL" 0 7] = Some (groups, vars')
    /\ Forall (fun v => bitAddressed v = false) vars'
    /\ generateBoolGroups vars' = Some ("", vars').
Proof.
  apply (second_grouping_pass_changes_nothing
           [mkIecVar "__IX0_0" "BOOL" 0 0; mkIecVar "__MD2" "DINT" 2 0;
            mkIecVar "__IX0_7" "BOOL" 0 7]).
  repeat constructor.
Defined.

(** ** Where the grouping pass is defined *)

Lemma addressable_spec (v : IecVar) :
  addressable v = true
  <-> (3 <= String.length (name v))%nat
      /\ (str_at (name v) 3 = Some "X"%char -> (pos2 v < 8)%N).
Proof.
  unfold addressable, bitAddressed, sizeFlagOf. split.
  - intros E. apply andb_true_iff in E as [El Eb].
    apply Nat.leb_le in El. split; [exact El|].
    intros E3. rewrite E3 in Eb. now apply N.ltb_lt.
  - intros [El Eb]. apply andb_true_iff. split; [now apply Nat.leb_le|].
    destruct (str_at (name v) 3) as [s|]; [|reflexivity].
    destruct (Ascii.eqb_spec s "X") as [->|_]; [|reflexivity].
    now apply N.ltb_lt, Eb.
Qed.

(** X14: the grouping pass is defined on a list exactly when every name has
    three characters or more and every declaration with size flag X has a
    minor index below 8; a shorter name makes the read of the size flag
    undefined, a larger minor index the store into the slots. *)
Theorem grouping_pass_defined_iff (vars : list IecVar) :
  generateBoolGroups vars <> None
  <-> forall v : IecVar,
        In v vars ->
        (3 <= String.length (name v))%nat
        /\ (str_at (name v) 3 = Some "X"%char -> (pos2 v < 8)%N).
Proof.
  split.
  - intros Hdef v Hin.
    assert (Hall : Forall (fun v => addressable v = true) vars).
    { apply (groupLoop_defined_addressable vars noGroups).
      unfold generateBoolGroups in Hdef.
      destruct (groupLoop vars noGroups); [discriminate|now destruct Hdef]. }
    rewrite Forall_forall in Hall. now apply addressable_spec, Hall.
  - intros Hall.
    rewrite (generateBoolGroups_spec vars); [discriminate|].
    apply Forall_forall. intros v Hin. now apply addressable_spec, Hall.
Qed.

(** ** A line with an empty name field *)

Lemma copy_until_rest (stop : ascii -> bool) (cs : list ascii) (c : ascii)
    (after : cbuf) :
  Forall (fun x => stop x = false) cs -> stop c = true ->
  forall (dst : cbuf) (j : nat) (src' dst' : cbuf),
    copy_until stop (buf_of_chars cs ++ Some c :: after)%list dst j
    = Some (src', dst') ->
    src' = Some c :: after.
Proof.
  intros Hcs Hc. induction Hcs as [|x cs Hx _ IH]; intros dst j src' dst' E.
  - cbn [buf_of_chars map app copy_until] in E. rewrite Hc in E.
    now injection E as <- _.
  - cbn [buf_of_chars map app copy_until] in E. rewrite Hx in E.
    destruct (buf_write dst j x) as [d1|]; [|discriminate]. cbn [bind] in E.
    destruct (buf_write d1 (S j) NUL) as [d2|]; [|discriminate].
    cbn [bind] in E. exact (IH _ _ _ _ E).
Qed.

Lemma scanLine_empty_name (line : string) (pre ty : list ascii) (post : cbuf)
    (varName varType varName' varType' : cbuf) :
  strncpy line 1024
  = (buf_of_chars pre ++ Some "("%char :: buf_of_chars ty
     ++ Some ","%char :: Some ","%char :: post)%list ->
  ~ In "("%char pre -> ~ In ","%char ty ->
  scanLine line varName varType = Some (varName', varType') ->
  varName' = varName.
Proof.
  intros Hs Hpre Hty E. unfold scanLine in E. cbn zeta in E.
  rewrite Hs, (seek_run _ _ _ Hpre) in E. cbn [bind tl] in E.
  destruct (copy_until isComma _ varType 0) as [[a t]|] eqn:E1;
    [|discriminate].
  cbn [bind] in E.
  apply copy_until_rest in E1;
    [|now apply not_comma_Forall|reflexivity].
  subst a. cbn [tl copy_until] in E.
  change (isComma ",") with true in E. cbn [bind] in E.
  now injection E as <- _.
Qed.

(** X15: a line whose name field is empty leaves the name array as the
    previous line filled it: the declaration read from it has the name and
    the two indices of the declaration before it. *)
Theorem empty_name_field_repeats_the_declaration {H : Md5}
    (line1 line2 : string) (rest : list string) (pre ty : list ascii)
    (post : cbuf) (iecVar_name iecVar_type : cbuf) (md5_state : md5_state_s)
    (vars : list IecVar) (shown : string) (md5_end : md5_state_s) :
  strncpy line2 1024
  = (buf_of_chars pre ++ Some "("%char :: buf_of_chars ty
     ++ Some ","%char :: Some ","%char :: post)%list ->
  ~ In "("%char pre -> ~ In ","%char ty ->
  readVars (line1 :: line2 :: rest) iecVar_name iecVar_type md5_state
  = Some (vars, shown, md5_end) ->
  exists (v1 v2 : IecVar) (vars' : list IecVar),
    vars = v1 :: v2 :: vars'
    /\ name v2 = name v1 /\ pos1 v2 = pos1 v1 /\ pos2 v2 = pos2 v1.
Proof.
  intros Hs Hpre Hty E. cbn [readVars] in E.
  destruct (scanLine line1 iecVar_name iecVar_type) as [[n1 t1]|];
    [|discriminate].
  cbn [bind] in E.
  destruct (cstring n1) as [nm1|] eqn:Ec1; [|discriminate]. cbn [bind] in E.
  destruct (cstring t1) as [ty1|]; [|discriminate]. cbn [bind] in E.
  destruct (findPositions n1) as [[p1 p2]|] eqn:Ef1; [|discriminate].
  cbn [bind] in E.
  destruct (scanLine line2 n1 t1) as [[n2 t2]|] eqn:E2; [|discriminate].
  cbn [bind] in E.
  pose proof (scanLine_empty_name _ _ _ _ _ _ _ _ Hs Hpre Hty E2) as ->.
  rewrite Ec1, Ef1 in E. cbn [bind] in E.
  destruct (cstring t2) as [ty2|]; [|discriminate]. cbn [bind] in E.
  destruct (readVars rest n1 t2 _) as [[[vs out] st]|]; [|discriminate].
  cbn [bind] in E. injection E as <- _ _.
  exists (mkIecVar nm1 ty1 p1 p2), (mkIecVar nm1 ty2 p1 p2), vs.
  repeat split.
Qed.

Lemma empty_name_field_repeats_the_declaration_witness :
  exists (v1 v2 : IecVar) (vars' : list IecVar),
    [mkIecVar "__IX0_3" "BOOL" 0 3; mkIecVar "__IX0_3" "INT" 0 3]
    = v1 :: v2 :: vars'
    /\ name v2 = name v1 /\ pos1 v2 = pos1 v1 /\ pos2 v2 = pos2 v1.
Proof.
  apply (empty_name_field_repeats_the_declaration
           (H := md5_rfc1321)
           "__LOCATED_VAR(BOOL,__IX0_3,I,X,0,3)" "__LOCATED_VAR(INT,,Q,W,5)"
           [] (list_ascii_of_string "__LOCATED_VAR")
           (list_ascii_of_string "INT")
           (buf_of_chars (list_ascii_of_string "Q,W,5)")
            ++ repeat (Some NUL) 999)%list
           (uninitialized 100) (uninitialized 100) md5_init
           [mkIecVar "__IX0_3" "BOOL" 0 3; mkIecVar "__IX0_3" "INT" 0 3]
           ("varName: __IX0_3" ++ String TAB "varType: BOOL" ++ endl
            ++ "varName: __IX0_3" ++ String TAB "varType: INT" ++ endl)
           ("__LOCATED_VAR(BOOL,__IX0_3,I,X,0,3)"
            ++ "__LOCATED_VAR(INT,,Q,W,5)")).
  - vm_compute. reflexivity.
  - vm_compute. intuition discriminate.
  - vm_compute. intuition discriminate.
  - vm_compute. reflexivity.
Defined.

(** ** The console text of a run *)





(** ** The entry of a group and its pointer *)

Lemma pointerLine_renderGroup (c : Container) (g : N * slots) :
  occursIn (pointerLine c (fst g)) (renderGroup (containerLetter c) g).
Proof.
  unfold renderGroup, pointerLine. cbn zeta.
  unfold occursIn. eexists. exists "". rewrite append_empty_r.
  repeat rewrite <- append_assoc. reflexivity.
Qed.

Lemma pointerLine_renderContainers (st : Containers) (c : Container) (k : N) :
  hasGroup st c k = true -> occursIn (pointerLine c k) (renderContainers st).
Proof.
  unfold hasGroup. intros Hg.
  destruct (map_find k (deref c st)) as [a|] eqn:Ef; [|discriminate].
  apply map_find_In in Ef.
  assert (Hd : occursIn (pointerLine c k)
                 (generateBoolGroups_dir (containerLetter c) (deref c st))).
  { unfold generateBoolGroups_dir.
    apply (occursIn_concat _ (renderGroup (containerLetter c) (k, a)));
      [now apply in_map | apply (pointerLine_renderGroup c (k, a))]. }
  unfold renderContainers. destruct c; cbn [containerLetter deref] in Hd.
  - now apply occursIn_app_l.
  - now apply occursIn_app_r, occursIn_app_l.
  - now apply occursIn_app_r, occursIn_app_r.
Qed.

(** X17: for every bit-addressed declaration the list keeps the entry of
    its group, made from a declaration of the group, and the text of the
    groups holds the pointer of the group.  The name of the entry, which
    its table row prints, is the name of that pointer exactly when the
    direction flag the entry was made from is I, Q or M: with another
    character the group is in the memory map and its pointer is named with
    M, while the entry keeps the character. *)
Theorem group_entry_names_the_group_pointer (vars : list IecVar)
    (d : IecVar) :
  Forall (fun v => addressable v = true) vars ->
  In d vars -> bitAddressed d = true ->
  exists (groups : string) (vars' : list IecVar) (w : IecVar),
    generateBoolGroups vars = Some (groups, vars')
    /\ In w vars /\ sameGroup d w = true
    /\ In (groupEntry w) vars'
    /\ occursIn (pointerLine (containerOf (directionFlagOf d)) (pos1 d))
                groups
    /\ (name (groupEntry w)
        = "__" ++ groupName (containerLetter (containerOf (directionFlagOf d)))
                            (pos1 d)
        <-> directionFlagOf w = "I"%char \/ directionFlagOf w = "Q"%char
            \/ directionFlagOf w = "M"%char).
Proof.
  intros Hall Hin Hb.
  destruct (aggregated_keeps_group vars d [] Hin Hb) as [Hf|(w & Hw & Hs & He)];
    [discriminate|].
  exists (renderContainers (recorded vars noGroups)), (aggregated [] vars), w.
  split; [now apply generateBoolGroups_spec|].
  repeat split; auto.
  - apply pointerLine_renderContainers.
    rewrite (tracks_recorded vars [] noGroups tracks_nil). cbn [app].
    apply existsb_exists. exists d. split; [exact Hin|].
    unfold inGroup. rewrite Hb, N.eqb_refl.
    now destruct (containerOf (directionFlagOf d)).
  - destruct (inGroup_parts _ _ _ Hs) as (_ & <- & <-).
    rewrite <- containerOf_letter. unfold groupEntry, specialName, groupName.
    cbn [name chr append]. intros E. now injection E.
  - destruct (inGroup_parts _ _ _ Hs) as (_ & <- & <-).
    rewrite <- containerOf_letter. unfold groupEntry, specialName, groupName.
    cbn [name chr append]. now intros <-.
Qed.

Lemma group_entry_names_the_group_pointer_witness :
  exists (groups : string) (vars' : list IecVar) (w : IecVar),
    generateBoolGroups [mkIecVar "__MD2" "DINT" 2 0;
                        mkIecVar "__QX4_2" "BOOL" 4 2;
                        mkIecVar "__QX4_5" "BOOL" 4 5]
    = Some (groups, vars')
    /\ In w [mkIecVar "__MD2" "DINT" 2 0; mkIecVar "__QX4_2" "BOOL" 4 2;
             mkIecVar "__QX4_5" "BOOL" 4 5]
    /\ sameGroup (mkIecVar "__QX4_5" "BOOL" 4 5) w = true
    /\ In (groupEntry w) vars'
    /\ occursIn (pointerLine
                   (containerOf
                      (directionFlagOf (mkIecVar "__QX4_5" "BOOL" 4 5)))
                   (pos1 (mkIecVar "__QX4_5" "BOOL" 4 5)))
                groups
    /\ (name (groupEntry w)
        = "__" ++ groupName
                    (containerLetter
                       (containerOf
                          (directionFlagOf (mkIecVar "__QX4_5" "BOOL" 4 5))))
                    (pos1 (mkIecVar "__QX4_5" "BOOL" 4 5))
        <-> directionFlagOf w = "I"%char \/ directionFlagOf w = "Q"%char
            \/ directionFlagOf w = "M"%char).
Proof.
  apply (group_entry_names_the_group_pointer
           [mkIecVar "__MD2" "DINT" 2 0; mkIecVar "__QX4_2" "BOOL" 4 2;
            mkIecVar "__QX4_5" "BOOL" 4 5]
           (mkIecVar "__QX4_5" "BOOL" 4 5)).
  - repeat constructor.
  - simpl. auto.
  - reflexivity.
Defined.

(** ** A file of compiler lines *)



(** ** mainImpl *)

Lemma mapM_undefined {A B : Type} (f : A -> option B) (l : list A) (a : A) :
  In a l -> f a = None -> mapM f l = None.
Proof.
  intros Hin Hf. induction l as [|x l IH]; [contradiction|].
  cbn [mapM]. destruct Hin as [->|Hin].
  - now rewrite Hf.
  - rewrite (IH Hin). now destruct (f x).
Qed.

Lemma generateChecksum_short (digest : list Z) :
  (List.length digest <= 16)%nat -> generateChecksum digest = None.
Proof.
  intros Hlen. unfold generateChecksum.
  rewrite (mapM_undefined _ checksumIndices 16%nat); [reflexivity| |].
  - unfold checksumIndices. apply in_seq. lia.
  - assert (E : nth_error digest 16 = None) by now apply nth_error_None.
    now rewrite E.
Qed.

Lemma show_help_flag (argv : list string) (a : string) :
  nth_error argv 1 = Some a -> a = "-h" \/ a = "--help" ->
  show_help argv = true.
Proof.
  intros Ha Hv. unfold show_help. rewrite Ha.
  assert (Hl : (1 < List.length argv)%nat)
    by (apply nth_error_Some; now rewrite Ha).
  apply andb_true_iff. split; [apply Nat.leb_le; lia|].
  destruct Hv as [->| ->]; reflexivity.
Qed.

(** X19: the help flag is looked at before the number of arguments and
    before any file: with [-h] or [--help] as first argument the run prints
    the usage text and returns 0, whatever else the command line holds and
    whatever the files are. *)
Theorem help_flag_wins {H : Md5} (fs : Files) (argv : list string)
    (a : string) :
  nth_error argv 1 = Some a -> a = "-h" \/ a = "--help" ->
  mainImpl fs argv = Some (mkMainResult 0%Z usageText None).
Proof.
  intros Ha Hv. unfold mainImpl. cbn zeta.
  now rewrite (show_help_flag _ _ Ha Hv).
Qed.

Lemma help_flag_wins_witness :
  mainImpl (H := md5_rfc1321) (mkFiles (fun _ => None) (fun _ => false))
           ["glue_generator"; "--help"; "in.h"; "out.cpp"; "more"]
  = Some (mkMainResult 0%Z usageText None).
Proof.
  apply (help_flag_wins (H := md5_rfc1321)
           (mkFiles (fun _ => None) (fun _ => false))
           ["glue_generator"; "--help"; "in.h"; "out.cpp"; "more"] "--help").
  - reflexivity.
  - right. reflexivity.
Defined.

(** X20: a run that returns a value other than 0 has written no output
    file, and its value tells why: -1 for a number of arguments other than
    none or two, with the usage text; 1 when the input file cannot be
    opened, the output file not having been looked at; 2 when the input
    file can be opened and the output file cannot.  Without arguments the
    two files are [LOCATED_VARIABLES.h] and [glueVars.cpp]. *)
Theorem failure_exit_codes {H : Md5} (fs : Files) (argv : list string)
    (r : MainResult) :
  mainImpl fs argv = Some r -> exitCode r <> 0%Z ->
  written r = None
  /\ show_help argv = false
  /\ ((exitCode r = (-1)%Z /\ console r = usageText
       /\ List.length argv <> 1%nat /\ List.length argv <> 3%nat)
      \/ exists input output : string,
           (argv = [nth 0 argv ""; input; output]
            \/ (List.length argv = 1%nat
                /\ input = "LOCATED_VARIABLES.h" /\ output = "glueVars.cpp"))
           /\ ((exitCode r = 1%Z /\ openInput fs input = None
                /\ console r = "Error opening located variables file at "
                               ++ input ++ endl)
               \/ (exitCode r = 2%Z /\ openInput fs input <> None
                   /\ openOutput fs output = false
                   /\ console r = "Error opening glue variables file at "
                                  ++ output ++ endl))).
Proof.
  unfold mainImpl. cbn zeta. intros E Hc.
  destruct (show_help argv) eqn:Hh; cbn [orb] in E.
  { injection E as <-. now destruct Hc. }
  destruct (negb (List.length argv =? 1)%nat
            && negb (List.length argv =? 3)%nat) eqn:Hn.
  { injection E as <-. cbn. apply andb_true_iff in Hn as [H1 H3].
    apply negb_true_iff in H1, H3. apply Nat.eqb_neq in H1, H3.
    repeat split; auto. }
  assert (Hargs : exists input output : string,
             ((if (List.length argv =? 3)%nat then nth 1 argv ""
               else "LOCATED_VARIABLES.h") = input
              /\ (if (List.length argv =? 3)%nat then nth 2 argv ""
                  else "glueVars.cpp") = output)
             /\ (argv = [nth 0 argv ""; input; output]
                 \/ (List.length argv = 1%nat
                     /\ input = "LOCATED_VARIABLES.h"
                     /\ output = "glueVars.cpp"))).
  { destruct (Nat.eqb_spec (List.length argv) 3) as [H3|H3].
    - exists (nth 1 argv ""), (nth 2 argv ""). split; [now split|]. left.
      do 4 (destruct argv as [|? argv]; try discriminate H3). reflexivity.
    - exists "LOCATED_VARIABLES.h", "glueVars.cpp". split; [now split|].
      right. destruct (Nat.eqb_spec (List.length argv) 1) as [H1|H1];
        [now repeat split|discriminate Hn]. }
  destruct Hargs as (input & output & [Ei Eo] & Hargv).
  rewrite Ei, Eo in E.
  destruct (openInput fs input) as [content|] eqn:Hin.
  - destruct (openOutput fs output) eqn:Hout; cbn [negb] in E.
    + destruct (generateBody content) as [body|]; [|discriminate].
      cbn [bind] in E.
      destruct (generateChecksum (digest body)); [|discriminate].
      cbn [bind] in E. injection E as <-. now destruct Hc.
    + injection E as <-. cbn. repeat split.
      right. exists input, output. split; [exact Hargv|]. right.
      rewrite Hin. repeat split; auto. discriminate.
  - injection E as <-. cbn. repeat split.
    right. exists input, output. split; [exact Hargv|]. left.
    now repeat split.
Qed.

Lemma failure_exit_codes_witness :
  written (mkMainResult 1%Z
             ("Error opening located variables file at "
              ++ "LOCATED_VARIABLES.h" ++ endl) None) = None
  /\ show_help ["glue_generator"] = false
  /\ ((exitCode (mkMainResult 1%Z
                   ("Error opening located variables file at "
                    ++ "LOCATED_VARIABLES.h" ++ endl) None) = (-1)%Z
       /\ console (mkMainResult 1%Z
                     ("Error opening located variables file at "
                      ++ "LOCATED_VARIABLES.h" ++ endl) None) = usageText
       /\ List.length ["glue_generator"] <> 1%nat
       /\ List.length ["glue_generator"] <> 3%nat)
      \/ exists input output : string,
           (["glue_generator"] = [nth 0 ["glue_generator"] ""; input; output]
            \/ (List.length ["glue_generator"] = 1%nat
                /\ input = "LOCATED_VARIABLES.h" /\ output = "glueVars.cpp"))
           /\ ((exitCode (mkMainResult 1%Z
                            ("Error opening located variables file at "
                             ++ "LOCATED_VARIABLES.h" ++ endl) None) = 1%Z
                /\ openInput (mkFiles (fun _ => None) (fun _ => false)) input
                   = None
                /\ console (mkMainResult 1%Z
                              ("Error opening located variables file at "
                               ++ "LOCATED_VARIABLES.h" ++ endl) None)
                   = "Error opening located variables file at "
                     ++ input ++ endl)
               \/ (exitCode (mkMainResult 1%Z
                               ("Error opening located variables file at "
                                ++ "LOCATED_VARIABLES.h" ++ endl) None) = 2%Z
                   /\ openInput (mkFiles (fun _ => None) (fun _ => false))
                                input <> None
                   /\ openOutput (mkFiles (fun _ => None) (fun _ => false))
                                 output = false
                   /\ console (mkMainResult 1%Z
                                 ("Error opening located variables file at "
                                  ++ "LOCATED_VARIABLES.h" ++ endl) None)
                      = "Error opening glue variables file at "
                        ++ output ++ endl))).
Proof.
  apply (failure_exit_codes (H := md5_rfc1321)
           (mkFiles (fun _ => None) (fun _ => false)) ["glue_generator"]
           (mkMainResult 1%Z
              ("Error opening located variables file at "
               ++ "LOCATED_VARIABLES.h" ++ endl) None)).
  - reflexivity.
  - discriminate.
Defined.

#[export] Instance md5_rfc1321_digest16 : Md5Digest16 md5_rfc1321.
Proof.
  constructor. intros s. cbn [md5_finish md5_rfc1321]. unfold RFC1321.md5.
  cbn zeta.
  destruct (fold_left RFC1321.block _ RFC1321.initial) as [[[a b] c] d].
  unfold RFC1321.le_bytes. rewrite !length_app, !length_map, !length_seq.
  reflexivity.
Qed.

(** X21: [mainImpl] hands [generateChecksum] the sixteen bytes that
    [md5_finish] filled, and [generateChecksum] reads a seventeenth: no run
    with defined behaviour gets to the end of the generation.  The runs
    that return 0 are those of the help flag, and no defined run has
    written the output file. *)
Theorem generation_reads_past_the_digest {H : Md5} {D : Md5Digest16 H}
    (fs : Files) (argv : list string) :
  (forall r : MainResult,
      mainImpl fs argv = Some r ->
      written r = None /\ (exitCode r = 0%Z -> show_help argv = true))
  /\ (forall content : string,
        show_help argv = false ->
        List.length argv = 1%nat \/ List.length argv = 3%nat ->
        openInput fs (if (List.length argv =? 3)%nat then nth 1 argv ""
                      else "LOCATED_VARIABLES.h") = Some content ->
        openOutput fs (if (List.length argv =? 3)%nat then nth 2 argv ""
                       else "glueVars.cpp") = true ->
        mainImpl fs argv = None).
Proof.
  assert (Hgen : forall content : string,
             (body <- generateBody content ;;
              checksum <- generateChecksum (digest body) ;;
              Some (mkMainResult 0%Z (cout body)
                      (Some (if (List.length argv =? 3)%nat
                             then nth 2 argv "" else "glueVars.cpp",
                             generateHeader ++ glueVars body ++ checksum
                             ++ generateBottom)))) = None).
  { intros content. unfold generateBody.
    destruct (readVars _ _ _ _) as [[[vars shown] st]|]; [|reflexivity].
    cbn [bind].
    destruct (glueAll vars) as [[w s]|]; [|reflexivity]. cbn [bind].
    destruct (generateBoolGroups vars) as [[g vs]|]; [|reflexivity].
    cbn [bind].
    destruct (generateIntegratedGlue vs) as [table|]; [|reflexivity].
    cbn [bind digest].
    rewrite generateChecksum_short; [reflexivity|].
    now rewrite md5_finish_length. }
  split.
  - intros r E. unfold mainImpl in E. cbn zeta in E.
    destruct (show_help argv) eqn:Hh; cbn [orb] in E;
      [injection E as <-; now split|].
    destruct (negb (List.length argv =? 1)%nat
              && negb (List.length argv =? 3)%nat);
      [injection E as <-; split; [reflexivity|discriminate]|].
    destruct (openInput fs _) as [content|];
      [|injection E as <-; split; [reflexivity|discriminate]].
    destruct (openOutput fs _); cbn [negb] in E;
      [|injection E as <-; split; [reflexivity|discriminate]].
    now rewrite Hgen in E.
  - intros content Hh Hargc Hin Hout. unfold mainImpl. cbn zeta.
    rewrite Hh, Hin, Hout. cbn [orb negb].
    replace (negb (List.length argv =? 1)%nat
             && negb (List.length argv =? 3)%nat) with false
      by (destruct Hargc as [-> | ->]; reflexivity).
    apply Hgen.
Qed.

Lemma generation_reads_past_the_digest_witness :
  (forall r : MainResult,
      mainImpl (H := md5_rfc1321)
        (mkFiles (fun _ => Some "__LOCATED_VAR(BOOL,__IX0_1,I,X,0,1)")
                 (fun _ => true))
        ["glue_generator"] = Some r ->
      written r = None
      /\ (exitCode r = 0%Z -> show_help ["glue_generator"] = true))
  /\ (forall content : string,
        show_help ["glue_generator"] = false ->
        List.length ["glue_generator"] = 1%nat
        \/ List.length ["glue_generator"] = 3%nat ->
        openInput
          (mkFiles (fun _ => Some "__LOCATED_VAR(BOOL,__IX0_1,I,X,0,1)")
                   (fun _ => true))
          (if (List.length ["glue_generator"] =? 3)%nat
           then nth 1 ["glue_generator"] "" else "LOCATED_VARIABLES.h")
        = Some content ->
        openOutput
          (mkFiles (fun _ => Some "__LOCATED_VAR(BOOL,__IX0_1,I,X,0,1)")
                   (fun _ => true))
          (if (List.length ["glue_generator"] =? 3)%nat
           then nth 2 ["glue_generator"] "" else "glueVars.cpp") = true ->
        mainImpl (H := md5_rfc1321)
          (mkFiles (fun _ => Some "__LOCATED_VAR(BOOL,__IX0_1,I,X,0,1)")
                   (fun _ => true))
          ["glue_generator"] = None).
Proof.
  exact (generation_reads_past_the_digest
           (H := md5_rfc1321) (D := md5_rfc1321_digest16)
           (mkFiles (fun _ => Some "__LOCATED_VAR(BOOL,__IX0_1,I,X,0,1)")
                    (fun _ => true))
           ["glue_generator"]).
Defined.

(** ** The table row of a group *)

(** X22: the table row of the entry of a group gives the direction of the
    map the group is in, the size BIT, the major index, the minor index 0,
    the type of the declaration the entry was made from, and the special
    name. *)
Theorem row_of_a_group_entry (v : IecVar) :
  glueRow (groupEntry v)
  = Some ("    { IECLDT_" ++ directionText (containerOf (directionFlagOf v))
          ++ ", IECLST_BIT, " ++ dec (pos1 v) ++ ", 0, IECVT_" ++ type v
          ++ ",  " ++ specialName (directionFlagOf v) (pos1 v)
          ++ " }," ++ endl).
Proof.
  unfold glueRow, groupEntry, specialName, chr.
  cbn [name type pos1 pos2 append].
  rewrite !str_at_cons. unfold str_at. cbn [String.get bind].
  assert (Ed : fromDirectionFlag (directionFlagOf v)
               = directionText (containerOf (directionFlagOf v))).
  { unfold fromDirectionFlag, containerOf.
    destruct (directionFlagOf v =? "I")%char; [reflexivity|].
    destruct (directionFlagOf v =? "Q")%char; reflexivity. }
  rewrite Ed. reflexivity.
Qed.
